(** * CO2MPAS-TA: the dispatcher's resolution run, the cycle model's branch
      predicates and the dice-report generator.

    The development follows the Python sources:
    - [co2mpas/model/physical/cycle/__init__.py]: [is_nedc], [is_wltp],
      [cycle];
    - [compas/models/physical/engine/__init__.py]: [engine], its full-load
      and engine-speed functions;
    - [co2mpas/sampling/report.py]: [Report.yield_report_tuples_from_iofiles];
    - [dispatcher/draw.py]: the graph a plot is drawn from;
    - the [Dispatcher] class itself is not among the sources: its graph and
      its resolution run are modelled from the specification (sections 3
      and 4). *)

From Stdlib Require Import List String Ascii Bool Arith NArith ZArith Lia.
Import ListNotations.
Local Open Scope string_scope.

(** ** Python values that flow through the models *)

Inductive pyval : Type :=
| PNone
| PBool (b : bool)
| PInt (z : Z)
| PStr (s : string).

(** [v == 'literal'] for a string literal on the right-hand side. *)
Definition py_eq_str (v : pyval) (lit : string) : bool :=
  match v with
  | PStr s => String.eqb s lit
  | _ => false
  end.

(** [sub in s] on Python strings: [sub] occurs somewhere inside [s]. *)
Fixpoint str_contains (sub s : string) : bool :=
  if String.prefix sub s then true
  else match s with
       | EmptyString => false
       | String _ rest => str_contains sub rest
       end.

(** ** The cycle model: branch predicates *)

Module Cycle.

(** A [kwargs] dict is walked in insertion order by [kwargs.items()]. *)
Definition kwargs := list (string * pyval).

(** [':cycle_type' in k or 'cycle_type' == k] *)
Definition is_cycle_type_key (k : string) : bool :=
  str_contains ":cycle_type" k || String.eqb "cycle_type" k.

Fixpoint is_nedc (kw : kwargs) : bool :=
  match kw with
  | [] => false
  | (k, v) :: rest =>
      if is_cycle_type_key k then py_eq_str v "NEDC" else is_nedc rest
  end.

Fixpoint is_wltp (kw : kwargs) : bool :=
  match kw with
  | [] => false
  | (k, v) :: rest =>
      if is_cycle_type_key k then py_eq_str v "WLTP" else is_wltp rest
  end.

End Cycle.

(** ** The dice report: [yield_report_tuples_from_iofiles] *)

Module Report.

(** A [vehicle_family_id] read from a sheet cell: a string, or [None]
    (the output sheet is passed through [df.where(pd.notnull(df), None)]). *)
Definition vfid := option string.

Definition vfid_eqb (a b : vfid) : bool :=
  match a, b with
  | None, None => true
  | Some x, Some y => String.eqb x y
  | _, _ => false
  end.

Definition show_vfid (v : vfid) : string :=
  match v with None => "None" | Some s => s end.

Inductive exn : Type :=
| CmdException (msg : string)
| ExtractionError (msg : string).

Record PFiles : Type := mkPFiles {
  inp : list string;
  out : list string;
  other : list string
}.

Section Generator.

(** The dice report of an output file, as extracted by [xleash.lasso]. *)
Variable DataFrame : Type.

(** [pndlu.convpath] *)
Variable convpath : string -> string.
(** [self.extract_vfid_from_input], which may raise. *)
Variable extract_vfid_from_input : string -> exn + vfid.
(** [self.extract_dice_report_from_output], which may raise. *)
Variable extract_dice_report_from_output : string -> exn + (vfid * DataFrame).

Inductive report : Type :=
| InputReport (file_vfid : vfid)
| DiceReport (df : DataFrame)
| NoReport.

(** One yielded tuple: [(fpath, 'inp' | 'out' | 'other', report)]. *)
Definition rtuple : Type := (string * string * report)%type.

(** What draining the generator shows: the tuples yielded in order, the
    warnings logged, and the exception that ended it, if any. *)
Record drained : Type := mkDrained {
  yielded : list rtuple;
  warnings : list string;
  raised : option exn
}.

Definition mismatch_msg (fpath : string) (file_vfid expected : vfid) : string :=
  "Mismatch `vehicle_family_id` between file('" ++ fpath ++ "'): '"
    ++ show_vfid file_vfid ++ "' and the rest's `" ++ show_vfid expected ++ "`!".

(** The closure [check_vfid_missmatch]: [expected] is the enclosing
    function's [expected_vfid] cell, returned updated together with the
    warning logged, or the exception raised. *)
Definition check_vfid_missmatch (force : bool) (expected : vfid)
           (fpath : string) (file_vfid : vfid) : exn + (vfid * list string) :=
  match expected with
  | None => inr (file_vfid, [])
  | Some _ =>
      if negb (vfid_eqb expected file_vfid) then
        let msg := mismatch_msg fpath file_vfid expected in
        if force then inr (expected, [msg]) else inl (CmdException msg)
      else inr (expected, [])
  end.

Definition stop (e : exn) : drained * option vfid :=
  (mkDrained [] [] (Some e), None).

Definition emit (t : rtuple) (w : list string) (r : drained * option vfid)
  : drained * option vfid :=
  (mkDrained (t :: yielded (fst r)) (w ++ warnings (fst r)) (raised (fst r)),
   snd r).

(** [for fpath in iofiles.other: ...] *)
Definition loop_other (l : list string) : drained :=
  mkDrained (map (fun fpath => (convpath fpath, "other", NoReport)) l) [] None.

(** [for fpath in iofiles.out: ...]; the second component is the
    [expected_vfid] cell when the loop ran to its end. *)
Fixpoint loop_out (force : bool) (expected : vfid) (l : list string)
  : drained * option vfid :=
  match l with
  | [] => (mkDrained [] [] None, Some expected)
  | fpath :: rest =>
      let fpath := convpath fpath in
      match extract_dice_report_from_output fpath with
      | inl e => stop e
      | inr (file_vfid, dice_report) =>
          match check_vfid_missmatch force expected fpath file_vfid with
          | inl e => stop e
          | inr (expected', w) =>
              emit (fpath, "out", DiceReport dice_report) w
                   (loop_out force expected' rest)
          end
      end
  end.

(** [for fpath in iofiles.inp: ...] *)
Fixpoint loop_inp (force : bool) (expected : vfid) (l : list string)
  : drained * option vfid :=
  match l with
  | [] => (mkDrained [] [] None, Some expected)
  | fpath :: rest =>
      let fpath := convpath fpath in
      match extract_vfid_from_input fpath with
      | inl e => stop e
      | inr file_vfid =>
          match check_vfid_missmatch force expected fpath file_vfid with
          | inl e => stop e
          | inr (expected', w) =>
              emit (fpath, "inp", InputReport file_vfid) w
                   (loop_inp force expected' rest)
          end
      end
  end.

Definition seq_drained (a b : drained) : drained :=
  mkDrained (yielded a ++ yielded b) (warnings a ++ warnings b) (raised b).

(** The generator drained to its end.  [force] is [self.force]. *)
Definition yield_report_tuples_from_iofiles (force : bool) (iofiles : PFiles)
           (expected_vfid : vfid) : drained :=
  let expected_vfid : vfid := None in
  match loop_inp force expected_vfid (inp iofiles) with
  | (d1, None) => d1
  | (d1, Some expected1) =>
      match loop_out force expected1 (out iofiles) with
      | (d2, None) => seq_drained d1 d2
      | (d2, Some _) =>
          seq_drained d1 (seq_drained d2 (loop_other (other iofiles)))
      end
  end.

(** The first id that is not [None] among those seen so far. *)
Fixpoint first_known (ids : list vfid) : vfid :=
  match ids with
  | [] => None
  | None :: rest => first_known rest
  | Some s :: _ => Some s
  end.

(** A second reading of the generator, to compare the code with: no
    [expected_vfid] argument and no cell; each file's id is compared
    with the first id that is not [None] among the ids of the files
    processed before it ([seen], oldest first). *)
Definition compare_with_first_known (force : bool) (seen : list vfid)
           (fpath : string) (file_vfid : vfid) : exn + list string :=
  match first_known seen with
  | None => inr []
  | Some r =>
      if vfid_eqb (Some r) file_vfid then inr []
      else
        let msg := mismatch_msg fpath file_vfid (Some r) in
        if force then inr [msg] else inl (CmdException msg)
  end.

Definition stop_ref (e : exn) : drained * option (list vfid) :=
  (mkDrained [] [] (Some e), None).

Definition emit_ref (t : rtuple) (w : list string)
           (r : drained * option (list vfid)) : drained * option (list vfid) :=
  (mkDrained (t :: yielded (fst r)) (w ++ warnings (fst r)) (raised (fst r)),
   snd r).

Fixpoint ref_out (force : bool) (seen : list vfid) (l : list string)
  : drained * option (list vfid) :=
  match l with
  | [] => (mkDrained [] [] None, Some seen)
  | fpath :: rest =>
      let fpath := convpath fpath in
      match extract_dice_report_from_output fpath with
      | inl e => stop_ref e
      | inr (file_vfid, dice_report) =>
          match compare_with_first_known force seen fpath file_vfid with
          | inl e => stop_ref e
          | inr w =>
              emit_ref (fpath, "out", DiceReport dice_report) w
                       (ref_out force (seen ++ [file_vfid]) rest)
          end
      end
  end.

Fixpoint ref_inp (force : bool) (seen : list vfid) (l : list string)
  : drained * option (list vfid) :=
  match l with
  | [] => (mkDrained [] [] None, Some seen)
  | fpath :: rest =>
      let fpath := convpath fpath in
      match extract_vfid_from_input fpath with
      | inl e => stop_ref e
      | inr file_vfid =>
          match compare_with_first_known force seen fpath file_vfid with
          | inl e => stop_ref e
          | inr w =>
              emit_ref (fpath, "inp", InputReport file_vfid) w
                       (ref_inp force (seen ++ [file_vfid]) rest)
          end
      end
  end.

Definition report_tuples_by_first_known (force : bool) (iofiles : PFiles) : drained :=
  match ref_inp force [] (inp iofiles) with
  | (d1, None) => d1
  | (d1, Some seen1) =>
      match ref_out force seen1 (out iofiles) with
      | (d2, None) => seq_drained d1 d2
      | (d2, Some _) =>
          seq_drained d1 (seq_drained d2 (loop_other (other iofiles)))
      end
  end.

(** The cell the code keeps, read off the ids seen. *)
Definition cell_of (r : drained * option (list vfid)) : drained * option vfid :=
  (fst r, option_map first_known (snd r)).

End Generator.

Arguments InputReport {DataFrame}.
Arguments DiceReport {DataFrame}.
Arguments NoReport {DataFrame}.
Arguments mkDrained {DataFrame}.
Arguments yielded {DataFrame}.
Arguments warnings {DataFrame}.
Arguments raised {DataFrame}.
Arguments loop_inp {DataFrame}.
Arguments loop_out {DataFrame}.
Arguments ref_inp {DataFrame}.
Arguments ref_out {DataFrame}.
Arguments yield_report_tuples_from_iofiles {DataFrame}.
Arguments report_tuples_by_first_known {DataFrame}.

End Report.

(** Sample sheets for the report generator. *)

Module ReportSamples.

Import Report.

(** Three output files whose sheets hold no id, ['A'] and ['B']. *)
Definition sheet_of (fpath : string) : exn + (vfid * unit) :=
  if String.eqb fpath "o1.xlsx" then inr (None, tt)
  else if String.eqb fpath "o2.xlsx" then inr (Some "A", tt)
  else inr (Some "B", tt).

Definition no_input (fpath : string) : exn + vfid :=
  inl (ExtractionError fpath).

End ReportSamples.

(** ** The dispatcher *)

Module Dsp.

(** *** Data model (specification, section 3) *)

(** Modelled from the spec: the ids of data nodes (section 3): a string key,
    or one of the two sentinels. *)
Inductive node : Type :=
| START
| SINK
| Data (k : string).

Definition node_eqb (a b : node) : bool :=
  match a, b with
  | START, START => true
  | SINK, SINK => true
  | Data x, Data y => String.eqb x y
  | _, _ => false
  end.

(** Modelled from the spec: the callables are opaque to the resolver.  What invoking
    one gives: its return values, or the exception it raised. *)
Inductive outcome : Type :=
| Returned (vs : list pyval)
| Raised (err : string).

(** The [inputs] map of a dispatch call, in insertion order. *)
Definition raw_inputs := list (string * pyval).

(** Modelled from the spec: a function node (section 3).  The weight, a
    non-negative real in the spec, is a natural number here (the model
    files use 0, 5, 20, 50); the registration order is the position in the
    graph's list of functions. *)
Record fnode : Type := mkFun {
  fun_id : string;
  f_inputs : list node;
  f_outputs : list node;
  weight : N;
  input_domain : option (raw_inputs -> bool);
  callable : list pyval -> outcome
}.

(** Modelled from the spec: a data node (section 3).  The resolution loop
    of section 4.2 treats every default as the weakest source, whatever the
    "wait for explicit input" flag. *)
Record dnode : Type := mkData {
  data_id : string;
  default_value : option pyval;
  wait_inputs : bool
}.

(** Modelled from the spec: the [producer] of a settlement (section 4.2,
    [settled: data_id -> (value, cost, producer)]); a function is named by its
    registration index. *)
Inductive producer : Type :=
| FromStart
| FromInput
| FromDefault
| FromFun (i : nat).

(** Modelled from the spec: the workflow, as the calls its recorder receives in
    order: [record_settlement], [record_invocation], [record_failure]
    (section 4.3). *)
Inductive event : Type :=
| Settled (d : node) (v : pyval) (via : producer)
| Invoked (i : nat) (args outs : list pyval)
| Failed (i : nat) (err : string).

(** Modelled from the spec: the [Dispatcher] class is missing from the
    sources.  The capability graph is the registered data and function
    nodes, in registration order.  The [workflow] attribute is the one
    [dispatcher/draw.py] reads ([dsp.workflow]). *)
Record Dispatcher : Type := mkDsp {
  data_nodes : list dnode;
  fun_nodes : list fnode;
  workflow : list event
}.

Definition empty_dsp : Dispatcher := mkDsp [] [] [].

(** *** Registration (section 4.1) *)

(** Modelled from the spec: the construction-time errors (section 7). *)
Inductive reg_error : Type :=
| DuplicateNodeId (id : string)
| UnknownNode (id : string).

Definition has_data (dsp : Dispatcher) (k : string) : bool :=
  existsb (fun d => String.eqb (data_id d) k) (data_nodes dsp).

Definition has_fun (dsp : Dispatcher) (k : string) : bool :=
  existsb (fun f => String.eqb (fun_id f) k) (fun_nodes dsp).

(** Modelled from the spec: [add_data(id, default?, wait_input?) -> id];
    a duplicate id fails with [DuplicateNodeId]. *)
Definition add_data (dsp : Dispatcher) (id : string) (default : option pyval)
           (wait : bool) : reg_error + (string * Dispatcher) :=
  if has_data dsp id then inl (DuplicateNodeId id)
  else inr (id, mkDsp (data_nodes dsp ++ [mkData id default wait])
                      (fun_nodes dsp) (workflow dsp)).

(** Modelled from the spec: registration of the data nodes of a function.  Data
    nodes a function names and no [add_data] introduced are created
    plain, as the model files rely on ([engine()] names ['fuel_type'] only
    in [add_function]). *)
Fixpoint ensure_data (ds : list dnode) (ns : list node) : list dnode :=
  match ns with
  | [] => ds
  | Data k :: rest =>
      if existsb (fun d => String.eqb (data_id d) k) ds
      then ensure_data ds rest
      else ensure_data (ds ++ [mkData k None false]) rest
  | _ :: rest => ensure_data ds rest
  end.

(** Modelled from the spec: an id derived from the callable's name is
    disambiguated when reused. *)
Fixpoint fresh_id (fuel : nat) (dsp : Dispatcher) (base : string) : string :=
  if has_fun dsp base then
    match fuel with
    | O => base
    | S n => fresh_id n dsp (base ++ "'")
    end
  else base.

(** Modelled from the spec: [add_function(id?, inputs, outputs, weight=0,
    input_domain?=None, callable) -> id].  [id] is the explicit id, when
    given; [name] is the callable's name.  No cycle check is performed. *)
Definition add_function (dsp : Dispatcher) (id : option string) (name : string)
           (inputs outputs : list node) (w : N)
           (dom : option (raw_inputs -> bool))
           (fn : list pyval -> outcome) : reg_error + (string * Dispatcher) :=
  match id with
  | Some k =>
      if has_fun dsp k then inl (DuplicateNodeId k)
      else inr (k, mkDsp (ensure_data (data_nodes dsp) (inputs ++ outputs))
                         (fun_nodes dsp ++ [mkFun k inputs outputs w dom fn])
                         (workflow dsp))
  | None =>
      let k := fresh_id (List.length (fun_nodes dsp)) dsp name in
      inr (k, mkDsp (ensure_data (data_nodes dsp) (inputs ++ outputs))
                    (fun_nodes dsp ++ [mkFun k inputs outputs w dom fn])
                    (workflow dsp))
  end.

(** *** Resolution state (section 4.2) *)

(** Modelled from the spec: a queue entry [(cost, data_id)] with its provenance
    (section 4.2, state per run); the value is
    carried by the entry for inputs, defaults and START, and computed on
    pop for a function's output. *)
Record entry : Type := mkEntry {
  e_cost : N;
  e_node : node;
  e_prov : producer;
  e_val : option pyval
}.

Definition prov_class (p : producer) : nat :=
  match p with
  | FromStart | FromInput => 0
  | FromFun _ => 1
  | FromDefault => 2
  end.

Definition prov_index (p : producer) : nat :=
  match p with FromFun i => i | _ => 0 end.

(** Modelled from the spec: the order of the min-priority queue: lower cost
    first; on a tie the function
    registered earlier first, a default last. *)
Definition entry_ltb (a b : entry) : bool :=
  N.ltb (e_cost a) (e_cost b)
  || (N.eqb (e_cost a) (e_cost b)
      && (Nat.ltb (prov_class (e_prov a)) (prov_class (e_prov b))
          || (Nat.eqb (prov_class (e_prov a)) (prov_class (e_prov b))
              && Nat.ltb (prov_index (e_prov a)) (prov_index (e_prov b))))).

(** Modelled from the spec: step 1, pop: the least entry, the one pushed first
    among equals. *)
Fixpoint pop_min (q : list entry) : option (entry * list entry) :=
  match q with
  | [] => None
  | e :: q' =>
      match pop_min q' with
      | None => Some (e, [])
      | Some (m, r) => if entry_ltb m e then Some (m, e :: r) else Some (e, q')
      end
  end.

(** Modelled from the spec: [settled: data_id -> (value, cost, producer)]. *)
Record srec : Type := mkSrec {
  s_val : pyval;
  s_cost : N;
  s_prov : producer
}.

(** Modelled from the spec: the state kept per function: pending-input counter,
    discarded flag, and the outcome
    of its one invocation once made. *)
Record fstate : Type := mkF {
  pend : nat;
  disc : bool;
  res : option outcome
}.

Record state : Type := mkState {
  queue : list entry;
  settled : list (node * srec);      (* newest first *)
  fstates : nat -> fstate;
  flushed : bool;                    (* defaults already offered *)
  trace : list event                 (* newest first *)
}.

(** *** The resolver (section 4.2)

    Modelled from the spec: [Dispatcher.dispatch] is missing from the
    sources.  The run below follows the loop of section 4.2, steps 1 to 6,
    over the graph [funs], [datas], the raw [inputs] map and the
    [requested] outputs. *)

Section Run.

Variable funs : list fnode.
Variable datas : list dnode.
Variable inputs : raw_inputs.
Variable requested : list string.

Definition find_settled (d : node) (l : list (node * srec)) : option srec :=
  match find (fun p => node_eqb d (fst p)) l with
  | Some p => Some (snd p)
  | None => None
  end.

Definition is_settled (d : node) (s : state) : bool :=
  match find_settled d (settled s) with Some _ => true | None => false end.

Definition cost_of (s : state) (d : node) : N :=
  match find_settled d (settled s) with Some r => s_cost r | None => 0%N end.

(** Modelled from the spec: a function with zero required inputs hangs off START
    (section 3). *)
Definition eff_inputs (f : fnode) : list node :=
  match f_inputs f with [] => [START] | l => l end.

(** Modelled from the spec: [max(cost of each required input)] (step 3). *)
Definition max_cost (s : state) (ins : list node) : N :=
  fold_right (fun d m => N.max (cost_of s d) m) 0%N ins.

(** Modelled from the spec: the [input_domain] predicate is applied to the raw
    [inputs] map (step 3). *)
Definition domain_ok (f : fnode) : bool :=
  match input_domain f with Some p => p inputs | None => true end.

Definition set_f (i : nat) (x : fstate) (s : state) : state :=
  mkState (queue s) (settled s)
          (fun j => if Nat.eqb j i then x else fstates s j)
          (flushed s) (trace s).

Definition push (es : list entry) (s : state) : state :=
  mkState (queue s ++ es) (settled s) (fstates s) (flushed s) (trace s).

(** Modelled from the spec: step 3, an output is pushed unless a settlement
    exists at a cost
    [<= c]; a SINK slot discards its value and is never queued. *)
Definition wanted (s : state) (c : N) (o : node) : bool :=
  match o with
  | SINK => false
  | _ => match find_settled o (settled s) with
         | Some r => negb (N.leb (s_cost r) c)
         | None => true
         end
  end.

Definition candidates (i : nat) (f : fnode) (c : N) (s : state) : list entry :=
  map (fun o => mkEntry c o (FromFun i) None) (filter (wanted s c) (f_outputs f)).

(** Modelled from the spec: step 3 for one consumer [f] (registration index [i])
    of the data
    node [d] just settled. *)
Definition relax_one (d : node) (i : nat) (f : fnode) (s : state) : state :=
  if existsb (node_eqb d) (eff_inputs f) then
    let fs := fstates s i in
    match pend fs with
    | 1 =>
        if disc fs then set_f i (mkF 0 true (res fs)) s
        else if domain_ok f then
          let c := (weight f + max_cost s (eff_inputs f))%N in
          push (candidates i f c s) (set_f i (mkF 0 false (res fs)) s)
        else set_f i (mkF 0 true (res fs)) s
    | n => set_f i (mkF (Nat.pred n) (disc fs) (res fs)) s
    end
  else s.

Fixpoint relax_from (d : node) (i : nat) (fs : list fnode) (s : state) : state :=
  match fs with
  | [] => s
  | f :: rest => relax_from d (S i) rest (relax_one d i f s)
  end.

(** Modelled from the spec: step 2 then step 3, settle [d] and tell its consumers,
    in registration order. *)
Definition settle (d : node) (v : pyval) (c : N) (p : producer) (s : state) : state :=
  relax_from d 0 funs
    (mkState (queue s) ((d, mkSrec v c p) :: settled s) (fstates s)
             (flushed s) (Settled d v p :: trace s)).

Fixpoint arg_values (s : state) (ins : list node) : option (list pyval) :=
  match ins with
  | [] => Some []
  | d :: rest =>
      match find_settled d (settled s), arg_values s rest with
      | Some r, Some vs => Some (s_val r :: vs)
      | _, _ => None
      end
  end.

(** Modelled from the spec: a callable has a fixed arity out (section 9): a result
    of another length is a
    failure of the invocation. *)
Definition call (f : fnode) (args : list pyval) : outcome :=
  match callable f args with
  | Returned vs =>
      if Nat.eqb (List.length vs) (List.length (f_outputs f)) then Returned vs
      else Raised "wrong number of results"
  | Raised e => Raised e
  end.

Definition record (ev : event) (s : state) : state :=
  mkState (queue s) (settled s) (fstates s) (flushed s) (ev :: trace s).

(** Modelled from the spec: step 4 and the failure semantics: the one invocation
    of [f]; later pops reuse its outcome; a failure discards the node and is
    recorded. *)
Definition invoke (i : nat) (f : fnode) (s : state) : outcome * state :=
  let fs := fstates s i in
  match res fs with
  | Some oc => (oc, s)
  | None =>
      match arg_values s (f_inputs f) with
      | None =>
          let oc := Raised "unresolved input" in
          (oc, record (Failed i "unresolved input")
                      (set_f i (mkF (pend fs) true (Some oc)) s))
      | Some args =>
          match call f args with
          | Returned vs =>
              (Returned vs,
               record (Invoked i args vs)
                      (set_f i (mkF (pend fs) (disc fs) (Some (Returned vs))) s))
          | Raised e =>
              (Raised e,
               record (Failed i e)
                      (set_f i (mkF (pend fs) true (Some (Raised e))) s))
          end
      end
  end.

(** Modelled from the spec: return values are matched to the outputs by position
    (section 3). *)
Fixpoint pick (d : node) (outs : list node) (vs : list pyval) : option pyval :=
  match outs, vs with
  | o :: outs', v :: vs' => if node_eqb d o then Some v else pick d outs' vs'
  | _, _ => None
  end.

(** Modelled from the spec: steps 1, 2 and 4 for a popped entry. *)
Definition process (e : entry) (s : state) : state :=
  if is_settled (e_node e) s then s
  else
    match e_val e with
    | Some v => settle (e_node e) v (e_cost e) (e_prov e) s
    | None =>
        match e_prov e with
        | FromFun i =>
            match nth_error funs i with
            | Some f =>
                match invoke i f s with
                | (Returned vs, s1) =>
                    match pick (e_node e) (f_outputs f) vs with
                    | Some v => settle (e_node e) v (e_cost e) (e_prov e) s1
                    | None => s1
                    end
                | (Raised _, s1) => s1
                end
            | None => s
            end
        | _ => s
        end
    end.

Definition set_queue (q : list entry) (s : state) : state :=
  mkState q (settled s) (fstates s) (flushed s) (trace s).

Definition is_input (k : string) : bool :=
  existsb (fun kv => String.eqb (fst kv) k) inputs.

(** Modelled from the spec: step 2, defaults are the weakest source: they are
    offered, at cost 0, once
    the queue is exhausted, to the data nodes that are not inputs and
    that nothing settled. *)
Definition default_entries (s : state) : list entry :=
  flat_map (fun d =>
              match default_value d with
              | Some v =>
                  if is_input (data_id d) || is_settled (Data (data_id d)) s
                  then []
                  else [mkEntry 0 (Data (data_id d)) FromDefault (Some v)]
              | None => []
              end) datas.

Definition flush (s : state) : state :=
  mkState (queue s ++ default_entries s) (settled s) (fstates s) true (trace s).

(** Modelled from the spec: step 6, a non-empty request stops the run once all
    of it is settled. *)
Definition requested_done (s : state) : bool :=
  match requested with
  | [] => false
  | _ => forallb (fun k => is_settled (Data k) s) requested
  end.

(** Modelled from the spec: one turn of the loop (steps 1 to 6); [None] when the
    run is over. *)
Definition step (s : state) : option state :=
  if requested_done s then None
  else
    match pop_min (queue s) with
    | Some (e, q) => Some (process e (set_queue q s))
    | None => if flushed s then None else Some (flush s)
    end.

Fixpoint run (fuel : nat) (s : state) : option state :=
  match step s with
  | None => Some s
  | Some s' =>
      match fuel with
      | O => None
      | S n => run n s'
      end
  end.

(** Modelled from the spec: the state a run starts from.  The queue is seeded with
    START and every key of [inputs], at cost 0;
    every counter starts at the function's input arity. *)
Definition init : state :=
  mkState
    (mkEntry 0 START FromStart (Some PNone)
       :: map (fun kv => mkEntry 0 (Data (fst kv)) FromInput (Some (snd kv))) inputs)
    []
    (fun i => match nth_error funs i with
              | Some f => mkF (List.length (eff_inputs f)) false None
              | None => mkF 0 false None
              end)
    false
    [].

Definition outputs_total (fs : list fnode) : nat :=
  fold_right (fun f n => List.length (f_outputs f) + n) 0 fs.

(** Fuel for the loop: every turn consumes a queue entry or offers the
    defaults, and no more
    entries are ever pushed than this many. *)
Definition fuel_bound : nat :=
  3 + List.length inputs + List.length datas + outputs_total funs.

(** Modelled from the spec: [solution], every settled data id with its value, in
    settling order; the sentinels are no data ids. *)
Definition solution_of (s : state) : list (string * pyval) :=
  flat_map (fun p => match fst p with
                     | Data k => [(k, s_val (snd p))]
                     | _ => []
                     end) (rev (settled s)).

Definition resolve : option state := run fuel_bound init.

End Run.

Definition lookup (k : string) (m : list (string * pyval)) : option pyval :=
  match find (fun kv => String.eqb k (fst kv)) m with
  | Some kv => Some (snd kv)
  | None => None
  end.

(** Modelled from the spec: the [dispatch] method.  The callers in the
    sources unpack its result as [w, o = dsp.dispatch()] and read the
    workflow of the last run from [dsp.workflow] ([dispatcher/draw.py]),
    so the method returns the workflow first and leaves it on the
    object. *)
Definition dispatch (dsp : Dispatcher) (inputs : raw_inputs) (outputs : list string)
  : (list event * list (string * pyval)) * Dispatcher :=
  match resolve (fun_nodes dsp) (data_nodes dsp) inputs outputs with
  | Some s =>
      let w := rev (trace s) in
      ((w, solution_of s), mkDsp (data_nodes dsp) (fun_nodes dsp) w)
  | None => (([], []), dsp)
  end.

(** *** Sub-dispatchers (section 4.2, step 5) *)

Fixpoint all_some (l : list (option pyval)) : option (list pyval) :=
  match l with
  | [] => Some []
  | Some v :: rest =>
      match all_some rest with Some vs => Some (v :: vs) | None => None end
  | None :: _ => None
  end.

(** Modelled from the spec: step 5, the child run's inputs: the parent values
    whose slot maps to a child
    id; a slot mapped to SINK is skipped. *)
Fixpoint child_inputs (renames : list (string * node)) (args : list pyval)
  : raw_inputs :=
  match renames, args with
  | (_, Data c) :: rs, v :: vs => (c, v) :: child_inputs rs vs
  | _ :: rs, _ :: vs => child_inputs rs vs
  | _, _ => []
  end.

(** Modelled from the spec: step 5, the callable of an adapter node: a nested
    resolution on the child, its renamed outputs returned by position; a
    child output left unresolved makes the invocation fail. *)
Definition sub_dispatch (child : Dispatcher) (input_renames : list (string * node))
           (output_renames : list (string * string)) (args : list pyval) : outcome :=
  let o := snd (fst (dispatch child (child_inputs input_renames args)
                              (map fst output_renames))) in
  match all_some (map (fun co => lookup (fst co) o) output_renames) with
  | Some vs => Returned vs
  | None => Raised "child output not resolved"
  end.

Definition unknown_child_id (child : Dispatcher) (input_renames : list (string * node))
           (output_renames : list (string * string)) : option string :=
  match find (fun r => match snd r with
                       | Data c => negb (has_data child c)
                       | _ => false
                       end) input_renames with
  | Some (_, Data c) => Some c
  | _ =>
      match find (fun r => negb (has_data child (fst r))) output_renames with
      | Some (c, _) => Some c
      | None => None
      end
  end.

(** Modelled from the spec: [add_sub_dispatcher(child_graph, input_renames,
    output_renames, input_domain?=None) -> id] registers a function node
    whose callable runs the resolver on the child graph; a rename that
    names no data node of the child fails with [UnknownNode]. *)
Definition add_sub_dispatcher (dsp : Dispatcher) (id : option string) (name : string)
           (child : Dispatcher) (input_renames : list (string * node))
           (output_renames : list (string * string)) (w : N)
           (dom : option (raw_inputs -> bool)) : reg_error + (string * Dispatcher) :=
  match unknown_child_id child input_renames output_renames with
  | Some c => inl (UnknownNode c)
  | None =>
      add_function dsp id name
                   (map (fun r => Data (fst r)) input_renames)
                   (map (fun r => Data (snd r)) output_renames)
                   w dom (sub_dispatch child input_renames output_renames)
  end.

(** *** [dispatcher/draw.py]: the graph a plot is drawn from *)

(** The [workflow] argument of [plot_dsp]: a bool, or a workflow graph. *)
Inductive workflow_arg : Type :=
| WBool (b : bool)
| WGraph (g : list event).

(** [if workflow:] -- an empty graph is falsy. *)
Definition truthy (w : workflow_arg) : bool :=
  match w with
  | WBool b => b
  | WGraph [] => false
  | WGraph _ => true
  end.

Inductive drawn_graph : Type :=
| DrawWorkflow (g : list event)
| DrawMap (ds : list dnode) (fs : list fnode).

(** [dsp.default_values] *)
Definition default_values (dsp : Dispatcher) : list (string * pyval) :=
  flat_map (fun d => match default_value d with
                     | Some v => [(data_id d, v)]
                     | None => []
                     end) (data_nodes dsp).

(** The first lines of [plot_dsp] and of [plot_dsp_graphviz]: the pair
    [(g, dfl)]. *)
Definition plot_graph (dsp : Dispatcher) (wf : workflow_arg)
  : drawn_graph * list (string * pyval) :=
  if truthy wf then
    (match wf with
     | WGraph g => DrawWorkflow g
     | WBool _ => DrawWorkflow (workflow dsp)
     end, [])
  else (DrawMap (data_nodes dsp) (fun_nodes dsp), default_values dsp).

End Dsp.

(** ** The cycle model: [cycle()] *)

Module CycleModel.

Import Dsp.

Definition same (k : string) : string * node := (k, Data k).

Definition nedc_inputs : list (string * node) :=
  [("cycle_type", SINK); same "k1"; same "k2"; same "k5"; same "max_gear";
   same "time_sample_frequency"; same "gear_box_type"; same "times"].

Definition wltp_inputs : list (string * node) :=
  [("cycle_type", SINK); same "time_sample_frequency"; same "gear_box_type";
   same "times"; same "velocities"; same "accelerations"; same "motive_powers";
   same "gear_box_ratios"; same "idle_engine_speed"; same "inertial_factor";
   same "downscale_phases"; same "climbing_force"; same "full_load_curve";
   same "downscale_factor"; same "downscale_factor_threshold";
   same "vehicle_mass"; same "driver_mass"; same "road_loads";
   same "engine_max_power"; same "engine_max_speed_at_max_power";
   same "max_velocity"; same "wltp_class"].

Definition cycle_outputs : list (string * string) :=
  [("times", "times"); ("velocities", "velocities"); ("gears", "gears")].

(** [cycle()], over the two nested models [nedc_cycle()] and
    [wltp_cycle()], which are not among the sources. *)
Definition cycle (nedc_cycle wltp_cycle : Dispatcher) : reg_error + Dispatcher :=
  match add_sub_dispatcher empty_dsp None "nedc_cycle" nedc_cycle
                           nedc_inputs cycle_outputs 0 (Some Cycle.is_nedc) with
  | inl e => inl e
  | inr (_, dsp) =>
      match add_sub_dispatcher dsp None "wltp_cycle" wltp_cycle
                               wltp_inputs cycle_outputs 0 (Some Cycle.is_wltp) with
      | inl e => inl e
      | inr (_, dsp') => inr dsp'
      end
  end.

End CycleModel.


(** ** The engine model: [engine()], the full-load and engine-speed part *)

Module EngineModel.

Import Dsp.

Section Engine.

(** The physical functions wired by [engine()] ([compas.functions.physical]),
    which are not among the sources. *)
Variable get_full_load : list pyval -> outcome.
Variable calculate_wheel_powers : list pyval -> outcome.
Variable calculate_wheel_torques : list pyval -> outcome.
Variable calculate_full_load : list pyval -> outcome.
Variable calculate_engine_speeds_out_with_cold_start : list pyval -> outcome.
Variable bypass : list pyval -> outcome.

(** One [engine.add_function(...)] statement on the dispatcher being built. *)
Definition and_function (r : reg_error + Dispatcher) (function_id : option string)
           (name : string) (inputs outputs : list string) (w : N)
           (function : list pyval -> outcome) : reg_error + Dispatcher :=
  match r with
  | inl e => inl e
  | inr dsp =>
      match add_function dsp function_id name (map Data inputs) (map Data outputs)
                         w None function with
      | inl e => inl e
      | inr (_, dsp') => inr dsp'
      end
  end.

(** The [add_function] statements of [engine()] on the full-load curve
    (lines 46 to 82) and on the engine speeds (lines 209 to 221), in the
    order of the source. *)
Definition engine : reg_error + Dispatcher :=
  let e0 := inr empty_dsp in
  let e1 := and_function e0 None "get_full_load"
              ["fuel_type"] ["full_load_curve"] 20 get_full_load in
  let e2 := and_function e1 (Some "calculate_full_load_powers") "calculate_wheel_powers"
              ["full_load_torques"; "full_load_speeds"] ["full_load_powers"] 0
              calculate_wheel_powers in
  let e3 := and_function e2 (Some "calculate_full_load_speeds") "calculate_wheel_torques"
              ["full_load_powers"; "full_load_torques"] ["full_load_speeds"] 0
              calculate_wheel_torques in
  let e4 := and_function e3 None "calculate_full_load"
              ["full_load_speeds"; "full_load_powers"; "idle_engine_speed"]
              ["full_load_curve"; "engine_max_power"; "engine_max_speed_at_max_power"] 0
              calculate_full_load in
  let e5 := and_function e4 None "calculate_full_load"
              ["full_load_speeds"; "full_load_powers"; "idle_engine_speed"]
              ["full_load_curve"; "engine_max_power"; "engine_max_speed_at_max_power"] 0
              calculate_full_load in
  let e6 := and_function e5 None "calculate_engine_speeds_out_with_cold_start"
              ["cold_start_speed_model"; "engine_speeds_out_hot"; "on_engine";
               "engine_coolant_temperatures"] ["engine_speeds_out"] 0
              calculate_engine_speeds_out_with_cold_start in
  and_function e6 None "bypass"
               ["engine_speeds_out_hot"] ["engine_speeds_out"] 50 bypass.

End Engine.

End EngineModel.

(** ** Sample graphs *)

Module DspSamples.

Import Dsp.

Definition plus (k : Z) (args : list pyval) : outcome :=
  match args with
  | [PInt z] => Returned [PInt (z + k)]
  | _ => Raised "TypeError"
  end.

Definition boom (args : list pyval) : outcome := Raised "boom".

Definition a3 : raw_inputs := [("a", PInt 3)].

(** [f1(a) -> b] at weight 0 and [f2(a) -> b] at weight 10. *)
Definition two_producers : Dispatcher :=
  mkDsp [] [mkFun "f1" [Data "a"] [Data "b"] 0 None (plus 1);
            mkFun "f2" [Data "a"] [Data "b"] 10 None (plus 2)] [].

(** The cheaper producer raises. *)
Definition cheap_fails : Dispatcher :=
  mkDsp [] [mkFun "f1" [Data "a"] [Data "b"] 1 None boom;
            mkFun "f2" [Data "a"] [Data "b"] 5 None (plus 2)] [].

(** [f(a) -> b] at weight 10 is requested; [h(a) -> z] at weight 0 is not
    on any path to [b]. *)
Definition side_branch : Dispatcher :=
  mkDsp [] [mkFun "f" [Data "a"] [Data "b"] 10 None (plus 1);
            mkFun "h" [Data "a"] [Data "z"] 0 None (plus 2)] [].

Definition mode_is_A (i : raw_inputs) : bool :=
  match lookup "mode" i with Some v => py_eq_str v "A" | None => false end.

(** [g] is the sole producer of [out], gated on [mode == 'A']. *)
Definition gated : Dispatcher :=
  mkDsp [] [mkFun "g" [Data "a"] [Data "out"] 0 (Some mode_is_A) (plus 1)] [].

(** [x] has the default 100 and no producer. *)
Definition defaulted : Dispatcher :=
  mkDsp [mkData "x" (Some (PInt 100)) false] [] [].

(** A callable that never raises: [n] values, whatever the arguments. *)
Definition gives (n : nat) (args : list pyval) : outcome :=
  Returned (repeat (PInt (Z.of_nat (List.length args))) n).

(** The engine model with callables that never raise. *)
Definition engine_sample : Dispatcher :=
  match EngineModel.engine (gives 1) (gives 1) (gives 1) (gives 3) (gives 1) (gives 1) with
  | inr dsp => dsp
  | inl _ => empty_dsp
  end.

(** Its two producers of [engine_speeds_out], registered at indices 5 and 6. *)
Definition speeds_with_cold_start : fnode :=
  mkFun "calculate_engine_speeds_out_with_cold_start"
        [Data "cold_start_speed_model"; Data "engine_speeds_out_hot";
         Data "on_engine"; Data "engine_coolant_temperatures"]
        [Data "engine_speeds_out"] 0 None (gives 1).

Definition speeds_bypass : fnode :=
  mkFun "bypass" [Data "engine_speeds_out_hot"] [Data "engine_speeds_out"] 50 None
        (gives 1).

(** Measured torques and speeds of the full-load curve. *)
Definition full_load_inputs : raw_inputs :=
  [("full_load_torques", PInt 200); ("full_load_speeds", PInt 3000)].

(** The inputs of both producers of [engine_speeds_out]. *)
Definition engine_speed_inputs : raw_inputs :=
  [("cold_start_speed_model", PInt 1); ("engine_speeds_out_hot", PInt 2);
   ("on_engine", PBool true); ("engine_coolant_temperatures", PInt 90)].

End DspSamples.

(** ** Notions used to state the resolver's properties *)

Module DspInv.

Import Dsp.

(** The workflow event [ev] names the function of index [i]. *)
Definition about (i : nat) (ev : event) : bool :=
  match ev with
  | Settled _ _ (FromFun j) => Nat.eqb j i
  | Settled _ _ _ => false
  | Invoked j _ _ => Nat.eqb j i
  | Failed j _ => Nat.eqb j i
  end.

(** How many invocations of function [i] a workflow records. *)
Definition calls (i : nat) (t : list event) : nat :=
  List.length (filter (fun ev => match ev with
                                 | Invoked j _ _ => Nat.eqb j i
                                 | Failed j _ => Nat.eqb j i
                                 | Settled _ _ _ => false
                                 end) t).

Section Run.

Variable funs : list fnode.
Variable datas : list dnode.
Variable inputs : raw_inputs.
Variable requested : list string.

(** A callable that returns, whatever its arguments, one value per
    declared output. *)
Definition reliable (f : fnode) : Prop :=
  forall args, exists vs,
      callable f args = Returned vs
      /\ List.length vs = List.length (f_outputs f).

(** An eligible producer: its domain predicate accepts the raw inputs,
    its callable is reliable, and it names each required input once. *)
Definition eligible (f : fnode) : Prop :=
  domain_ok inputs f = true /\ reliable f /\ NoDup (eff_inputs f).

(** The data nodes a run can settle: START, the inputs, the defaults,
    and the outputs of eligible producers whose inputs are settleable. *)
Inductive settleable : node -> Prop :=
| settleable_start : settleable START
| settleable_input k v : In (k, v) inputs -> settleable (Data k)
| settleable_default d v :
    In d datas -> default_value d = Some v -> settleable (Data (data_id d))
| settleable_output i f o :
    nth_error funs i = Some f ->
    In o (f_outputs f) -> o <> SINK ->
    eligible f ->
    (forall x, In x (eff_inputs f) -> settleable x) ->
    settleable o.

(** What step 3 does to the record of a consumer [f] of the node [d]
    just settled. *)
Definition relaxed (d : node) (f : fnode) (x : fstate) : fstate :=
  if existsb (node_eqb d) (eff_inputs f) then
    match pend x with
    | 1 =>
        if disc x then mkF 0 true (res x)
        else if domain_ok inputs f then mkF 0 false (res x)
        else mkF 0 true (res x)
    | n => mkF (Nat.pred n) (disc x) (res x)
    end
  else x.

(** [f] becomes ready on the settlement of [d] and offers its outputs. *)
Definition fires (d : node) (f : fnode) (x : fstate) : bool :=
  existsb (node_eqb d) (eff_inputs f)
  && Nat.eqb (pend x) 1 && negb (disc x) && domain_ok inputs f.

(** The entries a function offers when it becomes ready in state [s]. *)
Definition offer (s : state) (j : nat) (f : fnode) : list entry :=
  candidates j f (weight f + max_cost s (eff_inputs f)) s.

(** Step 2 alone: the record and the recorder call, before step 3. *)
Definition noted (d : node) (v : pyval) (c : N) (p : producer) (s : state) : state :=
  mkState (queue s) ((d, mkSrec v c p) :: settled s) (fstates s)
          (flushed s) (Settled d v p :: trace s).

(** One turn of the loop, case by case. *)
Inductive turn (s : state) : state -> Prop :=
| turn_flush :
    queue s = [] -> flushed s = false ->
    turn s (flush datas inputs s)
| turn_skip e q :
    pop_min (queue s) = Some (e, q) ->
    is_settled (e_node e) s = true ->
    turn s (set_queue q s)
| turn_stray e q :
    pop_min (queue s) = Some (e, q) ->
    is_settled (e_node e) s = false ->
    e_val e = None ->
    (forall i, e_prov e = FromFun i -> nth_error funs i = None) ->
    turn s (set_queue q s)
| turn_given e q v :
    pop_min (queue s) = Some (e, q) ->
    is_settled (e_node e) s = false ->
    e_val e = Some v ->
    turn s (settle funs inputs (e_node e) v (e_cost e) (e_prov e) (set_queue q s))
| turn_raise e q i f err s1 :
    pop_min (queue s) = Some (e, q) ->
    is_settled (e_node e) s = false ->
    e_val e = None -> e_prov e = FromFun i -> nth_error funs i = Some f ->
    invoke i f (set_queue q s) = (Raised err, s1) ->
    turn s s1
| turn_produce e q i f vs s1 v :
    pop_min (queue s) = Some (e, q) ->
    is_settled (e_node e) s = false ->
    e_val e = None -> e_prov e = FromFun i -> nth_error funs i = Some f ->
    invoke i f (set_queue q s) = (Returned vs, s1) ->
    pick (e_node e) (f_outputs f) vs = Some v ->
    turn s (settle funs inputs (e_node e) v (e_cost e) (FromFun i) s1)
| turn_short e q i f vs s1 :
    pop_min (queue s) = Some (e, q) ->
    is_settled (e_node e) s = false ->
    e_val e = None -> e_prov e = FromFun i -> nth_error funs i = Some f ->
    invoke i f (set_queue q s) = (Returned vs, s1) ->
    pick (e_node e) (f_outputs f) vs = None ->
    turn s s1.

(** Where a value that no function computed comes from. *)
Definition given (p : producer) (d : node) (v : pyval) : Prop :=
  match p with
  | FromStart => d = START
  | FromInput => exists k, d = Data k /\ In (k, v) inputs
  | FromDefault =>
      exists dn, In dn datas /\ default_value dn = Some v
                 /\ d = Data (data_id dn) /\ is_input inputs (data_id dn) = false
  | FromFun _ => False
  end.

Definition all_settled (s : state) (l : list node) : Prop :=
  forall x, In x l -> is_settled x s = true.

(** A queue entry is a seed, a default, or the offer of a function that
    is ready: in its domain, all its inputs settled, at its cost. *)
Definition entry_ok (s : state) (e : entry) : Prop :=
  match e_prov e with
  | FromFun i =>
      e_val e = None
      /\ exists f, nth_error funs i = Some f
                   /\ In (e_node e) (f_outputs f) /\ e_node e <> SINK
                   /\ domain_ok inputs f = true
                   /\ all_settled s (eff_inputs f)
                   /\ e_cost e = (weight f + max_cost s (eff_inputs f))%N
  | p => exists v, e_val e = Some v /\ given p (e_node e) v /\ e_cost e = 0%N
  end.

Definition srec_ok (s : state) (d : node) (r : srec) : Prop :=
  match s_prov r with
  | FromFun i =>
      exists f vs, nth_error funs i = Some f
                   /\ In d (f_outputs f) /\ d <> SINK
                   /\ domain_ok inputs f = true
                   /\ res (fstates s i) = Some (Returned vs)
                   /\ pick d (f_outputs f) vs = Some (s_val r)
                   /\ all_settled s (eff_inputs f)
                   /\ s_cost r = (weight f + max_cost s (eff_inputs f))%N
  | p => given p d (s_val r) /\ s_cost r = 0%N
  end.

(** The recorded outcome of a function's one invocation. *)
Definition res_ok (s : state) (i : nat) (oc : outcome) : Prop :=
  exists f, nth_error funs i = Some f
            /\ domain_ok inputs f = true
            /\ all_settled s (eff_inputs f)
            /\ match oc with
               | Returned vs =>
                   List.length vs = List.length (f_outputs f)
                   /\ exists args, In (Invoked i args vs) (trace s)
               | Raised err =>
                   disc (fstates s i) = true
                   /\ In (Failed i err) (trace s)
                   /\ ~ reliable f
               end.

Definition event_ok (s : state) (ev : event) : Prop :=
  match ev with
  | Settled d v p =>
      exists r, In (d, r) (settled s) /\ s_val r = v /\ s_prov r = p
  | Invoked i args vs => res (fstates s i) = Some (Returned vs)
  | Failed i err => res (fstates s i) = Some (Raised err)
  end.

(** How many of the inputs of [f] are settled. *)
Definition count_in (st : list (node * srec)) (f : fnode) : nat :=
  List.length (filter (fun p => existsb (node_eqb (fst p)) (eff_inputs f)) st).

(** The facts that hold of every state of a run. *)
Record sound (s : state) : Prop := mkSound {
  sd_once : NoDup (map fst (settled s));
  sd_pend : forall i f, nth_error funs i = Some f ->
      pend (fstates s i) = List.length (eff_inputs f) - count_in (settled s) f;
  sd_queue : forall e, In e (queue s) -> entry_ok s e;
  sd_settled : forall d r, In (d, r) (settled s) -> srec_ok s d r;
  sd_res : forall i oc, res (fstates s i) = Some oc -> res_ok s i oc;
  sd_disc : forall i, disc (fstates s i) = true ->
      exists f, nth_error funs i = Some f
                /\ (domain_ok inputs f = false
                    \/ exists err, res (fstates s i) = Some (Raised err));
  sd_trace : forall ev, In ev (trace s) -> event_ok s ev
}.

(** Nothing recorded is ever taken back. *)
Definition grows (s s' : state) : Prop :=
  (forall x r, find_settled x (settled s) = Some r ->
               find_settled x (settled s') = Some r)
  /\ (forall d r, In (d, r) (settled s) -> In (d, r) (settled s'))
  /\ (forall i oc, res (fstates s i) = Some oc -> res (fstates s' i) = Some oc)
  /\ (forall i, disc (fstates s i) = true -> disc (fstates s' i) = true)
  /\ (forall ev, In ev (trace s) -> In ev (trace s')).

(** A function whose domain predicate rejects the raw inputs is discarded
    once its counter has run out. *)
Definition gated_out (s : state) : Prop :=
  forall i f, nth_error funs i = Some f -> domain_ok inputs f = false ->
              pend (fstates s i) = 0 -> disc (fstates s i) = true.

(** The data id [k] has no source but the function of index [i]. *)
Definition sole_source (i : nat) (k : string) : Prop :=
  is_input inputs k = false
  /\ (forall dn, In dn datas -> data_id dn = k -> default_value dn = None)
  /\ (forall j g, nth_error funs j = Some g -> In (Data k) (f_outputs g) -> j = i).

(** A trace (newest event first) in which a function is only invoked in
    the turn that settles one of its outputs through it, or fails. *)
Inductive lazy_trace : list event -> Prop :=
| lazy_nil : lazy_trace []
| lazy_settled d v p t : lazy_trace t -> lazy_trace (Settled d v p :: t)
| lazy_failed i err t : lazy_trace t -> lazy_trace (Failed i err :: t)
| lazy_invoked i f args vs o v t :
    nth_error funs i = Some f -> In o (f_outputs f) ->
    lazy_trace t ->
    lazy_trace (Settled o v (FromFun i) :: Invoked i args vs :: t).

Definition lazy_run (s : state) : Prop :=
  lazy_trace (trace s)
  /\ forall i, calls i (trace s) = match res (fstates s i) with Some _ => 1 | None => 0 end.

(** The node [d] is settled, or a value for it waits in the queue. *)
Definition awaited (s : state) (d : node) : Prop :=
  is_settled d s = true
  \/ exists e, In e (queue s) /\ e_node e = d /\ e_val e <> None.

(** The output [o] is settled, or the offer of function [i] for it waits
    in the queue. *)
Definition offered (s : state) (i : nat) (o : node) : Prop :=
  is_settled o s = true
  \/ exists e, In e (queue s) /\ e_node e = o /\ e_prov e = FromFun i.

(** Nothing that can be settled is lost on the way. *)
Record live (s : state) : Prop := mkLive {
  lv_start : awaited s START;
  lv_input : forall k v, In (k, v) inputs -> awaited s (Data k);
  lv_default : flushed s = true ->
      forall dn v, In dn datas -> default_value dn = Some v ->
                   is_input inputs (data_id dn) = true
                   \/ awaited s (Data (data_id dn));
  lv_ready : forall i f, nth_error funs i = Some f ->
      pend (fstates s i) = 0 -> domain_ok inputs f = true -> reliable f ->
      forall o, In o (f_outputs f) -> o <> SINK -> offered s i o
}.

(** No default value is used: every data node that has one is an input. *)
Definition defaults_unused : Prop :=
  forall dn v, In dn datas -> default_value dn = Some v ->
               is_input inputs (data_id dn) = true.

(** Costs are settled in non-decreasing order: nothing queued is cheaper
    than anything settled. *)
Definition ordered (s : state) : Prop :=
  forall e d r, In e (queue s) -> In (d, r) (settled s) -> (s_cost r <= e_cost e)%N.

(** No settled cost is beaten by an eligible producer that is ready. *)
Definition unbeaten (s : state) : Prop :=
  forall o r i f,
    In (o, r) (settled s) ->
    nth_error funs i = Some f -> In o (f_outputs f) -> eligible f ->
    all_settled s (eff_inputs f) ->
    (s_cost r <= weight f + max_cost s (eff_inputs f))%N.

(** The states a run goes through. *)
Inductive reach : state -> Prop :=
| reach_init : reach (init funs inputs)
| reach_step s s' :
    reach s -> step funs datas inputs requested s = Some s' -> reach s'.

(** The entries a function may still push: none once it has been ready. *)
Definition term (f : fnode) (x : fstate) : nat :=
  if Nat.eqb (pend x) 0 then 0 else List.length (f_outputs f).

(** Entries still to come from the functions not yet ready. *)
Fixpoint unready (st : nat -> fstate) (i : nat) (l : list fnode) : nat :=
  match l with
  | [] => 0
  | f :: rest =>
      term f (st i) + unready st (S i) rest
  end.

(** A bound on the turns left. *)
Definition turns_left (s : state) : nat :=
  List.length (queue s) + unready (fstates s) 0 funs
  + (if flushed s then 0 else S (List.length datas)).

End Run.

Arguments lv_start {funs datas inputs s}.
Arguments lv_input {funs datas inputs s}.
Arguments lv_default {funs datas inputs s}.
Arguments lv_ready {funs datas inputs s}.
Arguments sd_once {funs datas inputs s}.
Arguments sd_pend {funs datas inputs s}.
Arguments sd_queue {funs datas inputs s}.
Arguments sd_settled {funs datas inputs s}.
Arguments sd_res {funs datas inputs s}.
Arguments sd_disc {funs datas inputs s}.
Arguments sd_trace {funs datas inputs s}.

End DspInv.

(** ** [dispatcher/draw.py]: node labels *)

Module Draw.

(** The character class [[^(_ )]] of [node_label_regex]: any character but
    an opening parenthesis, an underscore, a space and a closing
    parenthesis. *)
Definition plain (c : ascii) : bool :=
  negb (Ascii.eqb c "("%char || Ascii.eqb c "_"%char
        || Ascii.eqb c " "%char || Ascii.eqb c ")"%char).

(** [node_label_regex.subn(under_rpl, s)]: one pass over [s], left to right,
    over the matches of [(^|[^(_ )])(_)[^(_ )]] that do not overlap; each
    match has its underscore replaced by a space ([under_rpl]).  [at_start]
    tells whether the scan stands at the start of the whole string, where
    [^] matches.  The result is the new string and the number of
    substitutions. *)
Fixpoint subn (at_start : bool) (s : string) {struct s} : string * nat :=
  match s with
  | EmptyString => (EmptyString, 0)
  | String c0 s1 =>
      match s1 with
      | EmptyString => (String c0 EmptyString, 0)
      | String c1 s2 =>
          if at_start && Ascii.eqb c0 "_"%char && plain c1 then
            let (r, n) := subn false s2 in
            (String " "%char (String c1 r), S n)
          else
            match s2 with
            | String c2 s3 =>
                if plain c0 && Ascii.eqb c1 "_"%char && plain c2 then
                  let (r, n) := subn false s3 in
                  (String c0 (String " "%char (String c2 r)), S n)
                else
                  let (r, n) := subn false s1 in (String c0 r, n)
            | EmptyString =>
                let (r, n) := subn false s1 in (String c0 r, n)
            end
      end
  end.

(** [s, n = subn(s); while n: s, n = subn(s)]: passes are made until one
    substitutes nothing.  Every pass but the last removes an underscore, so
    the fuel, the length of [s], is never used up. *)
Fixpoint passes (fuel : nat) (s : string) : string :=
  let (s', n) := subn true s in
  match n with
  | O => s'
  | S _ =>
      match fuel with
      | O => s'
      | S fuel' => passes fuel' s'
      end
  end.

Definition replace_under_score (s : string) : string :=
  passes (String.length s) s.

(** The label in closed form: an underscore becomes a space exactly when it
    is the first character or follows a plain one, and a plain character
    follows it.  [prev] tells whether the scan is at the start or just after
    a plain character. *)
Fixpoint spaced (prev : bool) (s : string) : string :=
  match s with
  | EmptyString => EmptyString
  | String c rest =>
      let next_plain := match rest with
                        | String c1 _ => plain c1
                        | EmptyString => false
                        end in
      String (if Ascii.eqb c "_"%char && prev && next_plain then " "%char else c)
             (spaced (plain c) rest)
  end.

Fixpoint underscores (s : string) : nat :=
  match s with
  | EmptyString => 0
  | String c rest => (if Ascii.eqb c "_"%char then 1 else 0) + underscores rest
  end.

(** Whether [s] opens with a plain character. *)
Definition head_plain (s : string) : bool :=
  match s with
  | String c _ => plain c
  | EmptyString => false
  end.

(** Whether [s] opens with a match of the first alternative, [^_] then a
    plain character, were the scan allowed to anchor there. *)
Definition opens_match (s : string) : bool :=
  match s with
  | String c0 (String c1 _) => Ascii.eqb c0 "_"%char && plain c1
  | _ => false
  end.

End Draw.

(** ** Python collections used by the commands *)

Module PyColl.

(** [IndexedSet.add]: an item already held is not added again. *)
Definition iset_add (acc : list string) (x : string) : list string :=
  if existsb (String.eqb x) acc then acc else (acc ++ [x])%list.

(** [list(iset(l))]: the items of [l] in the order of their first
    occurrence. *)
Definition iset (l : list string) : list string := fold_left iset_add l [].

Section OrderedDict.

Variable V : Type.

(** [d[k] = v]: a key already held keeps its place and takes the new
    value; a new key goes to the end. *)
Fixpoint od_set (d : list (string * V)) (k : string) (v : V) : list (string * V) :=
  match d with
  | [] => [(k, v)]
  | (k', v') :: rest =>
      if String.eqb k k' then (k', v) :: rest else (k', v') :: od_set rest k v
  end.

(** [OrderedDict(pairs)], and a dict comprehension. *)
Definition od_of_pairs (pairs : list (string * V)) : list (string * V) :=
  fold_left (fun d kv => od_set d (fst kv) (snd kv)) pairs [].

(** [d.get(k)] *)
Definition od_get (d : list (string * V)) (k : string) : option V :=
  option_map snd (find (fun kv => String.eqb k (fst kv)) d).

(** [d1.update(d2)] *)
Definition od_update (d1 d2 : list (string * V)) : list (string * V) :=
  fold_left (fun d kv => od_set d (fst kv) (snd kv)) d2 d1.

End OrderedDict.

Arguments od_set {V}.
Arguments od_of_pairs {V}.
Arguments od_get {V}.
Arguments od_update {V}.

End PyColl.

(** ** [co2mpas/sampling/report.py]: reading what the generator did *)

Module ReportView.

Import Report.

Section View.

Variable DataFrame : Type.
Variable convpath : string -> string.
Variable extract_vfid_from_input : string -> exn + vfid.
Variable extract_dice_report_from_output : string -> exn + (vfid * DataFrame).

(** The path and the kind of a yielded tuple. *)
Definition tuple_key (t : rtuple DataFrame) : string * string := fst t.

(** The first two components of the tuples of the files [l] of one kind. *)
Definition kinds_of (kind : string) (l : list string) : list (string * string) :=
  map (fun f => (convpath f, kind)) l.

(** The id of a file, as the generator reads it: from the input sheet for
    an input file ([inl]), from the dice report for an output file
    ([inr]). *)
Definition holds_id (v : vfid) (file : string + string) : Prop :=
  match file with
  | inl f => extract_vfid_from_input (convpath f) = inr v
  | inr f => exists df, extract_dice_report_from_output (convpath f) = inr (v, df)
  end.

(** The input files, then the output files: the order they are read in. *)
Definition io_files (iofiles : PFiles) : list (string + string) :=
  (map inl (inp iofiles) ++ map inr (out iofiles))%list.

End View.

Arguments tuple_key {DataFrame}.
Arguments holds_id {DataFrame}.

End ReportView.

(** ** [co2mpas/sampling/report.py]: the report as a dict, and [ReportCmd] *)

Module ReportCmd.

Import Report PyColl.

Section Convert.

Variable DataFrame : Type.
(** A cell of the dice report. *)
Variable Cell : Type.
(** [osp.basename] *)
Variable basename : string -> string.
(** [[(k, list(v)) for k, v in report.T.items()]] *)
Variable frame_items : DataFrame -> list (string * list Cell).

(** The ['report'] entry: the data frame of an output file turned into
    an ordered dict of lists; the ordered dict of an input file as it is
    (it passes [assert isinstance(report, dict)]); [None]. *)
Inductive yamlable : Type :=
| FromFrame (items : list (string * list Cell))
| FromDict (file_vfid : vfid)
| NoneReport.

Record tuple_dict : Type := mkTupleDict {
  td_file : string;
  td_iokind : string;
  td_report : yamlable
}.

Definition report_tuple_2_dict (t : rtuple DataFrame) : tuple_dict :=
  let '(fpath, iokind, report) := t in
  mkTupleDict (basename fpath) iokind
    match report with
    | DiceReport df => FromFrame (frame_items df)
    | InputReport v => FromDict v
    | NoReport => NoneReport
    end.

Variable convpath : string -> string.
Variable extract_vfid_from_input : string -> exn + vfid.
Variable extract_dice_report_from_output : string -> exn + (vfid * DataFrame).

(** [get_dice_report]: the ordered dict is built while the generator is
    drained, so an exception of the generator leaves no report. *)
Definition get_dice_report (force : bool) (iofiles : PFiles) (expected_vfid : vfid)
  : exn + list (string * tuple_dict) :=
  let tuples := yield_report_tuples_from_iofiles convpath extract_vfid_from_input
                  extract_dice_report_from_output force iofiles expected_vfid in
  match raised tuples with
  | Some e => inl e
  | None =>
      inr (od_of_pairs (map (fun file_tuple =>
                               (fst (fst file_tuple), report_tuple_2_dict file_tuple))
                            (yielded tuples)))
  end.

(** *** [ReportCmd.run] *)

(** [self.name] *)
Variable name : string.
(** [%d] and [%r] of the messages. *)
Variable show_nat : nat -> string.
Variable repr_args : list string -> string.
(** [self.projects_db.current_project()] and its [list_pfiles('out',
    _as_index_paths=True)], which may raise; [str(project)]. *)
Variable current_project_pfiles : exn + PFiles.
Variable project_str : string.
(** [not pfiles] *)
Variable falsy : PFiles -> bool.
(** [PFiles.parse_io_args] on the arguments, which may raise. *)
Variable parse_io_args : list string -> exn + PFiles.
(** [yaml.dump({fpath: drep}, indent=2)] *)
Variable yaml_dump : string -> tuple_dict -> string.

Inductive run_exn : Type :=
| Raised (e : exn)
| ValueError (msg : string).

(** What draining the generator [run] shows: the lines yielded and the
    exception that ended it, if any. *)
Record run_out : Type := mkRunOut {
  lines : list string;
  run_raised : option run_exn
}.

Definition _build_io_files_from_project : exn + PFiles :=
  match current_project_pfiles with
  | inl e => inl e
  | inr pfiles =>
      if falsy pfiles then
        inl (CmdException ("Current " ++ project_str
                             ++ " contains no input/output files!"))
      else inr pfiles
  end.

Definition _build_io_files_from_args (args : list string) : exn + PFiles :=
  parse_io_args args.

(** [for vfid, fpath, _, _ in tuples: yield '- %s: %s' % (fpath, vfid)]:
    the generator yields 3-tuples, so that binding the first one to the
    four names raises [ValueError] before the body is reached. *)
Definition vfid_lines (tuples : drained DataFrame) : run_out :=
  match yielded tuples with
  | [] => mkRunOut [] (option_map Raised (raised tuples))
  | _ :: _ =>
      mkRunOut [] (Some (ValueError "not enough values to unpack (expected 4, got 3)"))
  end.

(** [for rtuple in tuples: ... yield yaml.dump({fpath: drep}, indent=2)] *)
Definition yaml_lines (tuples : drained DataFrame) : run_out :=
  mkRunOut (map (fun rtuple => yaml_dump (fst (fst rtuple)) (report_tuple_2_dict rtuple))
                (yielded tuples))
           (option_map Raised (raised tuples)).

(** [run], drained.  [project] and [vfids_only] are the command's
    traits, [report_force] is [self.report.force] before the call. *)
Definition run (project vfids_only report_force : bool) (args : list string) : run_out :=
  let nargs := List.length args in
  let pfiles :=
    if project then
      if Nat.ltb 0 nargs then
        inl (CmdException ("Cmd '" ++ name ++ " --project' takes no arguments, received "
                             ++ show_nat nargs ++ ": " ++ repr_args args ++ "!"))
      else _build_io_files_from_project
    else
      if Nat.ltb nargs 1 then
        inl (CmdException ("Cmd '" ++ name
                             ++ "' takes at least one filepath as argument, received "
                             ++ show_nat nargs ++ ": " ++ repr_args args ++ "!"))
      else _build_io_files_from_args (iset args) in
  match pfiles with
  | inl e => mkRunOut [] (Some (Raised e))
  | inr pfiles =>
      if vfids_only then
        vfid_lines (yield_report_tuples_from_iofiles convpath extract_vfid_from_input
                      extract_dice_report_from_output true pfiles None)
      else
        yaml_lines (yield_report_tuples_from_iofiles convpath extract_vfid_from_input
                      extract_dice_report_from_output report_force pfiles None)
  end.

End Convert.

Arguments FromFrame {Cell}.
Arguments FromDict {Cell}.
Arguments NoneReport {Cell}.
Arguments mkTupleDict {Cell}.
Arguments td_file {Cell}.
Arguments td_iokind {Cell}.
Arguments td_report {Cell}.
Arguments report_tuple_2_dict {DataFrame Cell}.
Arguments get_dice_report {DataFrame Cell}.
Arguments vfid_lines {DataFrame}.
Arguments yaml_lines {DataFrame Cell}.
Arguments run {DataFrame Cell}.

End ReportCmd.

(** ** [co2mpas/sampling/baseapp.py]: configuration files *)

Module BaseApp.

Import PyColl.

Definition APPNAME : string := "co2dice".

(** [default_config_fname()] *)
Definition default_config_fname : string := APPNAME ++ "_config".

(** [name.lower()], on the letters [A] to [Z]. *)
Definition lower_char (c : ascii) : ascii :=
  let n := nat_of_ascii c in
  if Nat.leb 65 n && Nat.leb n 90 then ascii_of_nat (n + 32) else c.

Fixpoint lower (s : string) : string :=
  match s with
  | EmptyString => EmptyString
  | String c rest => String (lower_char c) (lower rest)
  end.

(** [s.endswith(suffix)] *)
Definition endswith (s suffix : string) : bool :=
  let n := String.length s in
  let m := String.length suffix in
  Nat.leb m n && String.eqb (String.substring (n - m) m s) suffix.

Section Names.

(** [pndlu.camel_to_cmd_name] *)
Variable camel_to_cmd_name : string -> string.

(** [class2cmd_name(cls)], on [cls.__name__]. *)
Definition class2cmd_name (name : string) : string :=
  let name :=
    if endswith (lower name) "cmd" && Nat.ltb 3 (String.length name)
    then String.substring 0 (String.length name - 3) name
    else name in
  camel_to_cmd_name name.

(** A command class: its name and its short help. *)
Definition sub_cmds (Cls : Type) : Type := list (string * (Cls * string)).

(** [build_sub_cmds] on the classes given; [cls_name] is [__name__] and
    [short_help] is [cmd_class_short_help]. *)
Definition build_sub_cmds {Cls : Type} (cls_name : Cls -> string)
           (short_help : Cls -> string) (subapp_classes : list Cls) : sub_cmds Cls :=
  od_of_pairs (map (fun sa => (class2cmd_name (cls_name sa), (sa, short_help sa)))
                   subapp_classes).

End Names.

Section Files.

(** [pndlu.convpath], [pndlu.ensure_file_ext], [osp.join], [osp.splitext],
    [osp.isdir], [osp.isfile] and [path.split(os.pathsep)]; the folder
    [_mydir] of the module. *)
Variable convpath : string -> string.
Variable ensure_file_ext : string -> string -> string.
Variable join : string -> string -> string.
Variable splitext : string -> string * string.
Variable isdir : string -> bool.
Variable isfile : string -> bool.
Variable split_pathsep : string -> list string.
Variable _mydir : string.

Definition default_config_dir : string := convpath ("~/." ++ APPNAME).

Definition default_config_fpaths : list string :=
  [join default_config_dir default_config_fname;
   join (convpath _mydir) default_config_fname].

Definition default_persist_fpath : string :=
  join default_config_dir (APPNAME ++ "_runtime").

(** The closure [try_json_and_py] of [_derive_config_fpaths]: the list
    [new_paths] it appends to is passed in and returned, with [found]. *)
Definition try_json_and_py (new_paths : list string) (basepath : string)
  : list string * bool :=
  fold_left (fun (acc : list string * bool) ext =>
               let f := ensure_file_ext basepath ext in
               if isfile f then ((fst acc ++ [f])%list, true) else acc)
            [".py"; ".json"] (new_paths, false).

(** The body of [for p in path.split(os.pathsep)]. *)
Definition derive_step (new_paths : list string) (p : string) : list string :=
  let p := convpath p in
  if isdir p then fst (try_json_and_py new_paths (join p default_config_fname))
  else
    let (new_paths', found) := try_json_and_py new_paths p in
    if negb found then fst (try_json_and_py new_paths' (fst (splitext p)))
    else new_paths'.

Definition _derive_config_fpaths (path : string) : list string :=
  fold_left derive_step (split_pathsep path) [].

(** [self.config_paths or env_paths or default_config_fpaths()], where
    [env_paths = env and [env]]: [None], an empty list and an empty
    string are falsy. *)
Definition config_paths_or (config_paths : option (list string)) (env : option string)
  : list string :=
  match config_paths with
  | Some (cf :: rest) => cf :: rest
  | _ =>
      match env with
      | Some (String c e) => [String c e]
      | _ => default_config_fpaths
      end
  end.

(** [_collect_static_fpaths]; [env] is [os.environ.get(CONFIG_VAR_NAME)]. *)
Definition _collect_static_fpaths (config_paths : option (list string))
           (env : option string) : list string :=
  iset (flat_map _derive_config_fpaths (config_paths_or config_paths env)).

(** *** Reading the files *)

(** [trtc.Config], with [Config()], [merge] and its truth value. *)
Variable Config : Type.
Variable empty_config : Config.
Variable merge : Config -> Config -> Config.
Variable nonempty : Config -> bool.

Inductive load_result : Type :=
| Loaded (c : Config)
| ConfigFileNotFound
| LoadFailed (ex : string).

(** [trtc.PyFileConfigLoader(cfpath, ...).load_config()] and its JSON
    twin; [json.load] on the persist file, where [ConfigFileNotFound]
    stands for [FileNotFoundError]. *)
Variable py_loader : string -> load_result.
Variable json_loader : string -> load_result.
Variable read_json : string -> load_result.

Inductive app_exn : Type :=
| AssertionError (msg : string)
| LoaderError (ex : string).

(** [_read_config_from_json_or_py]; [raise_errors] is
    [self.raise_config_file_errors].  The log lines are left out: they
    change neither what is returned nor [loaded_config_files]. *)
Definition _read_config_from_json_or_py (raise_errors : bool) (cfpath : string)
  : app_exn + option Config :=
  let ext := lower (snd (splitext cfpath)) in
  let loader :=
    if String.eqb ext ".py" then Some py_loader
    else if String.eqb ext ".json" then Some json_loader
    else None in
  match loader with
  | None => inl (AssertionError cfpath)
  | Some loader =>
      match loader cfpath with
      | Loaded c => inr (Some c)
      | ConfigFileNotFound => inr None
      | LoadFailed ex => if raise_errors then inl (LoaderError ex) else inr None
      end
  end.

(** [if config:] on what the reader returned. *)
Definition loaded_nonempty (config : option Config) : bool :=
  match config with
  | Some c => nonempty c
  | None => false
  end.

(** The loop of [_read_config_from_static_files] over
    [config_paths[::-1]]: [files] is [self.loaded_config_files], returned
    as it stands when the loop ends or an exception leaves it. *)
Fixpoint static_loop (raise_errors : bool) (paths : list string)
         (files : list string) (new_config : Config)
  : list string * (app_exn + Config) :=
  match paths with
  | [] => (files, inr new_config)
  | cfpath :: rest =>
      match _read_config_from_json_or_py raise_errors cfpath with
      | inl e => (files, inl e)
      | inr config =>
          match config with
          | Some c =>
              if nonempty c then
                static_loop raise_errors rest (files ++ [cfpath])%list (merge new_config c)
              else static_loop raise_errors rest files new_config
          | None => static_loop raise_errors rest files new_config
          end
      end
  end.

Definition _read_config_from_static_files (raise_errors : bool)
           (config_paths : option (list string)) (env : option string)
           (files : list string) : list string * (app_exn + Config) :=
  static_loop raise_errors (rev (_collect_static_fpaths config_paths env))
              files empty_config.

(** The class attributes [_pconfig] and [_pconfig_orig] of
    [PeristentMixin]. *)
Record pstore : Type := mkPstore {
  _pconfig : Config;
  _pconfig_orig : Config
}.

(** [load_pconfig(fpath)]: the store, the path with its extension and
    the config read, [None] when the file is not there. *)
Definition load_pconfig (st : pstore) (fpath : string)
  : app_exn + (pstore * (string * option Config)) :=
  let fpath := ensure_file_ext fpath ".json" in
  match read_json fpath with
  | ConfigFileNotFound => inr (st, (fpath, None))
  | LoadFailed ex => inl (LoaderError ex)
  | Loaded cfg => inr (mkPstore cfg cfg, (fpath, Some cfg))
  end.

(** [self.persist_path or os.environ.get(PERSIST_VAR_NAME) or
    default_persist_fpath()] *)
Definition persist_path_or (persist_path env : option string) : string :=
  match persist_path with
  | Some (String c p) => String c p
  | _ =>
      match env with
      | Some (String c e) => String c e
      | _ => default_persist_fpath
      end
  end.

(** [_read_config_from_persist_file] *)
Definition _read_config_from_persist_file (raise_errors : bool)
           (persist_path env : option string) (st : pstore) (files : list string)
  : pstore * list string * (app_exn + option Config) :=
  let persist_path := convpath (persist_path_or persist_path env) in
  match load_pconfig st persist_path with
  | inl ex => (st, files, if raise_errors then inl ex else inr None)
  | inr (st', (persist_path, config)) =>
      if negb (loaded_nonempty config) then (st', files, inr None)
      else (st', (files ++ [persist_path])%list, inr config)
  end.

(** [load_configurables_from_files]: the store, [loaded_config_files]
    and the pair returned, or the exception that got out. *)
Definition load_configurables_from_files (raise_errors : bool)
           (config_paths : option (list string)) (config_env : option string)
           (persist_path persist_env : option string) (st : pstore)
  : pstore * list string * (app_exn + (Config * option Config)) :=
  match _read_config_from_static_files raise_errors config_paths config_env [] with
  | (files, inl e) => (st, rev files, inl e)
  | (files, inr static_config) =>
      match _read_config_from_persist_file raise_errors persist_path persist_env
                                           st files with
      | (st', files', inl e) => (st', rev files', inl e)
      | (st', files', inr persist_config) =>
          (st', rev files', inr (static_config, persist_config))
      end
  end.

(** *** Writing the default config *)

(** [%r] of a path. *)
Variable repr_str : string -> string.

Inductive write_exn : Type :=
| CmdException (msg : string).

(** What [write_default_config] goes on to do once it has settled the
    file: it makes the folder of [config_file] and writes the generated
    text into the file; [is_overwrite] tells which of the two log lines
    it prints. *)
Inductive write_action : Type :=
| WriteConfig (config_file : string) (is_overwrite : bool).

(** [write_default_config(config_file, force)], up to the write. *)
Definition write_default_config (config_file : option string) (force : bool)
  : write_exn + write_action :=
  let config_file :=
    match config_file with
    | Some (String c rest) =>
        let config_file := convpath (String c rest) in
        if isdir config_file then join config_file default_config_fname
        else config_file
    | _ => hd EmptyString default_config_fpaths
    end in
  let config_file := ensure_file_ext config_file ".py" in
  let is_overwrite := isfile config_file in
  if is_overwrite && negb force then
    inl (CmdException ("Config-file " ++ repr_str config_file
                         ++ " already exists!" ++ String (ascii_of_nat 10) EmptyString
                         ++ "  Specify `--force` to overwrite."))
  else inr (WriteConfig config_file is_overwrite).

(** *** Reading what was loaded *)

(** Whether the file [cfpath] is read without an exception into a config
    that is true. *)
Definition reads_nonempty (raise_errors : bool) (cfpath : string) : bool :=
  match _read_config_from_json_or_py raise_errors cfpath with
  | inr config => loaded_nonempty config
  | inl _ => false
  end.

(** The configs of the files of [paths] that are read so. *)
Definition configs_read (raise_errors : bool) (paths : list string) : list Config :=
  flat_map (fun cfpath =>
              match _read_config_from_json_or_py raise_errors cfpath with
              | inr (Some c) => if nonempty c then [c] else []
              | _ => []
              end) paths.

(** The value of a parameter [k] in the first config of [configs] that
    sets it; [lookup] reads a parameter of a config. *)
Fixpoint first_defined {Key Val : Type} (lookup : Config -> Key -> option Val)
         (configs : list Config) (k : Key) : option Val :=
  match configs with
  | [] => None
  | c :: rest =>
      match lookup c k with
      | Some v => Some v
      | None => first_defined lookup rest k
      end
  end.

(** A path the search for config files may return: an existing file,
    named by [ensure_file_ext] for one of the two extensions. *)
Definition found_file (f : string) : Prop :=
  isfile f = true
  /\ exists basepath, f = ensure_file_ext basepath ".py"
                      \/ f = ensure_file_ext basepath ".json".

End Files.

Arguments _read_config_from_json_or_py _ {Config}.
Arguments reads_nonempty _ {Config}.
Arguments configs_read _ {Config}.
Arguments first_defined {Config Key Val}.
Arguments static_loop _ {Config}.
Arguments _read_config_from_static_files _ _ _ _ _ _ _ _ {Config}.
Arguments load_pconfig _ {Config}.
Arguments _read_config_from_persist_file _ _ _ {Config}.
Arguments load_configurables_from_files _ _ _ _ _ _ _ _ {Config}.
Arguments Loaded {Config}.
Arguments ConfigFileNotFound {Config}.
Arguments LoadFailed {Config}.
Arguments mkPstore {Config}.

End BaseApp.

(** ** [co2mpas/sampling/cfgcmd.py]: the [config] sub-commands *)

Module CfgCmd.

Import BaseApp.

Inductive paths_exn : Type :=
| CmdException (msg : string)
| ValueError
| IndexError.

(** What draining the generator that [PathsCmd.run] returns shows. *)
Record listing : Type := mkListing {
  printed : list string;
  failed : option paths_exn
}.

Section Paths.

(** [osp.sep]; [self.name], [%d] and [%r] of the message. *)
Variable sep : string.
Variable name : string.
Variable show_nat : nat -> string.
Variable repr_args : list string -> string.

(** [path[-1]] *)
Fixpoint last_char (path : string) : option string :=
  match path with
  | EmptyString => None
  | String c EmptyString => Some (String c EmptyString)
  | String _ rest => last_char rest
  end.

(** [format_tuple(path, files)] *)
Definition format_tuple (path files : string) : paths_exn + string :=
  match last_char path with
  | None => inl IndexError
  | Some c =>
      let endpath := if negb (String.eqb c sep) then sep else "" in
      inr (path ++ endpath ++ ": " ++ files)
  end.

(** [p, f = item] for an item that is a string: its characters are what
    is bound, so that it must hold exactly two. *)
Definition unpack_pair (item : string) : option (string * string) :=
  match item with
  | String p (String f EmptyString) => Some (String p EmptyString, String f EmptyString)
  | _ => None
  end.

(** [(format_tuple(p, f) for p, f in self.loaded_config_files)],
    drained. *)
Fixpoint paths_lines (loaded_config_files : list string) : listing :=
  match loaded_config_files with
  | [] => mkListing [] None
  | item :: rest =>
      match unpack_pair item with
      | None => mkListing [] (Some ValueError)
      | Some (p, f) =>
          match format_tuple p f with
          | inl e => mkListing [] (Some e)
          | inr line =>
              let r := paths_lines rest in
              mkListing (line :: printed r) (failed r)
          end
      end
  end.

(** The line [format_tuple] gives for an item of two characters. *)
Definition line_of (item line : string) : Prop :=
  exists p f,
    item = String p (String f EmptyString)
    /\ line = String p EmptyString
              ++ (if negb (String.eqb (String p EmptyString) sep) then sep else "")
              ++ ": " ++ String f EmptyString.

(** [PathsCmd.run]: the exception raised by the call, or the generator
    it returns. *)
Definition paths_run (args : list string) (loaded_config_files : list string)
  : paths_exn + listing :=
  if Nat.ltb 0 (List.length args) then
    inl (CmdException ("Cmd '" ++ name ++ "' takes no arguments, received "
                         ++ show_nat (List.length args) ++ ": "
                         ++ repr_args args ++ "!"))
  else inr (paths_lines loaded_config_files).

End Paths.

Section Show.

Variable Config : Type.
Variable merge : Config -> Config -> Config.
Variable nonempty : Config -> bool.

(** [ShowCmd.initialize], after [parse_command_line] has set
    [self.cli_config] and [load_configurables_from_files] has returned
    [(static_config, persist_config)]: the value of [_loaded_config]. *)
Definition show_loaded_config (cli_config static_config : Config)
           (persist_config : option Config) : Config :=
  let static_config :=
    match persist_config with
    | Some p => if nonempty p then merge static_config p else static_config
    | None => static_config
    end in
  merge static_config cli_config.

End Show.

Arguments show_loaded_config {Config}.

End CfgCmd.

(** Sample files for the config commands: [a.py] sets one parameter,
    [b.py] sets it otherwise and a second one, [b.json] holds an empty
    config, and there is no persist file. *)

Module CfgSamples.

Import BaseApp.

Definition config : Type := list (string * string).

Definition sample_merge (a b : config) : config := (b ++ a)%list.

Definition sample_nonempty (c : config) : bool :=
  match c with
  | [] => false
  | _ :: _ => true
  end.

Definition sample_ensure_file_ext (fname ext : string) : string :=
  if endswith (lower fname) ext then fname else fname ++ ext.

Definition sample_join (a b : string) : string := a ++ "/" ++ b.

Definition sample_splitext (p : string) : string * string :=
  let n := String.length p in
  if endswith p ".json" then (String.substring 0 (n - 5) p, ".json")
  else if endswith p ".py" then (String.substring 0 (n - 3) p, ".py")
  else (p, "").

Definition sample_isfile (f : string) : bool :=
  String.eqb f "a.py" || String.eqb f "b.py" || String.eqb f "b.json".

Definition sample_py_loader (f : string) : load_result config :=
  if String.eqb f "a.py" then Loaded [("Spec.force", "True")]
  else Loaded [("Spec.force", "False"); ("Spec.verbose", "1")].

Definition sample_json_loader (f : string) : load_result config := Loaded [].

Definition sample_read_json (f : string) : load_result config := ConfigFileNotFound.

(** [--config-paths=a --config-paths=b] *)
Definition sample_load
  : pstore config * list string * (app_exn + (config * option config)) :=
  load_configurables_from_files (fun p => p) sample_ensure_file_ext sample_join
    sample_splitext (fun _ => false) sample_isfile (fun p => [p]) "."
    [] sample_merge sample_nonempty sample_py_loader sample_json_loader
    sample_read_json false (Some ["a"; "b"]) None None None (mkPstore [] []).

End CfgSamples.

(** ** [co2mpas/sampling/baseapp.py]: the chain of commands *)

Module CmdChain.

Import PyColl.

Section Inherit.

(** What a flag stands for. *)
Variable Flag : Type.

(** A command: its class, by name, its traits [conf_classes],
    [cmd_aliases] and [cmd_flags], and its [parent]. *)
#[warnings="-register-all"] Inductive cmd : Type :=
| mkCmd (cls : string) (conf_classes : list string)
        (cmd_aliases : list (string * string)) (cmd_flags : list (string * Flag))
        (parent : option cmd).

Definition cls (c : cmd) : string :=
  match c with mkCmd x _ _ _ _ => x end.
Definition conf_classes (c : cmd) : list string :=
  match c with mkCmd _ x _ _ _ => x end.
Definition cmd_aliases (c : cmd) : list (string * string) :=
  match c with mkCmd _ _ x _ _ => x end.
Definition cmd_flags (c : cmd) : list (string * Flag) :=
  match c with mkCmd _ _ _ x _ => x end.
Definition parent (c : cmd) : option cmd :=
  match c with mkCmd _ _ _ _ x => x end.

(** [while pcl: cmd_chain.append(pcl); pcl = pcl.parent] *)
Fixpoint chain_from (pcl : cmd) : list cmd :=
  match pcl with
  | mkCmd _ _ _ _ p =>
      pcl :: match p with
             | Some q => chain_from q
             | None => []
             end
  end.

(** [my_cmd_chain] *)
Definition my_cmd_chain (self : cmd) (subapp : option cmd) : list cmd :=
  chain_from match subapp with
             | Some s => s
             | None => self
             end.

(** [dtz.merge(dicts)]: the dicts are merged into a new one in turn. *)
Definition dtz_merge {V : Type} (dicts : list (list (string * V))) : list (string * V) :=
  fold_left od_update dicts [].

(** [_inherit_parent_cmd]: [aliases] and [flags] are [self.aliases] and
    [self.flags] before the call; the result is [self.classes] and the
    two dicts after it. *)
Definition _inherit_parent_cmd (self : cmd) (subapp : option cmd)
           (aliases : list (string * string)) (flags : list (string * Flag))
  : list string * list (string * string) * list (string * Flag) :=
  let '(cmd_chain, conf, al, fl) :=
    match parent self with
    | Some _ =>
        let cmd_chain := my_cmd_chain self subapp in
        (cmd_chain, List.concat (map conf_classes cmd_chain),
         dtz_merge (map cmd_aliases (rev cmd_chain)),
         dtz_merge (map cmd_flags (rev cmd_chain)))
    | None => ([self], conf_classes self, cmd_aliases self, cmd_flags self)
    end in
  (iset (map cls cmd_chain ++ conf)%list, od_update aliases al, od_update flags fl).

End Inherit.

(** The value of the key [k] in the first dict of [dicts] that holds it. *)
Fixpoint first_set {V : Type} (dicts : list (list (string * V))) (k : string)
  : option V :=
  match dicts with
  | [] => None
  | d :: rest =>
      match od_get d k with
      | Some v => Some v
      | None => first_set rest k
      end
  end.

Arguments mkCmd {Flag}.
Arguments cls {Flag}.
Arguments conf_classes {Flag}.
Arguments cmd_aliases {Flag}.
Arguments cmd_flags {Flag}.
Arguments parent {Flag}.
Arguments chain_from {Flag}.
Arguments my_cmd_chain {Flag}.
Arguments _inherit_parent_cmd {Flag}.

(** A [report] command under the main command: both set the alias
    [project], the main command also sets [config-paths]. *)
Definition main_cmd : cmd unit :=
  mkCmd "MainCmd" ["Spec"] [("config-paths", "Cmd.config_paths"); ("project", "Main.project")]
        [] None.

Definition report_cmd : cmd unit :=
  mkCmd "ReportCmd" ["Report"; "Spec"] [("project", "ReportCmd.project")] []
        (Some main_cmd).

End CmdChain.
(** * Properties *)

(** ** The cycle model *)

Module CycleFacts.

Import Cycle.

Lemma py_eq_str_nedc_wltp (v : pyval) :
  py_eq_str v "NEDC" = true -> py_eq_str v "WLTP" = false.
Proof.
  destruct v as [| b | z | s]; simpl; try discriminate.
  intro H. apply String.eqb_eq in H. subst s. reflexivity.
Qed.

Lemma is_nedc_not_wltp (kw : kwargs) : is_nedc kw = true -> is_wltp kw = false.
Proof.
  induction kw as [| [k v] rest IH]; simpl; [discriminate |].
  destruct (is_cycle_type_key k); [apply py_eq_str_nedc_wltp | exact IH].
Qed.

(** C9.  The two branch predicates are mutually exclusive: for every
    [kwargs] mapping, at most one of [is_nedc(kwargs)] and
    [is_wltp(kwargs)] is [True]. *)
Theorem is_nedc_is_wltp_exclusive :
  forall kw : kwargs, is_nedc kw && is_wltp kw = false.
Proof.
  induction kw as [| [k v] rest IH]; simpl.
  - reflexivity.
  - destruct (is_cycle_type_key k).
    + destruct (py_eq_str v "NEDC") eqn:E; simpl.
      * now apply py_eq_str_nedc_wltp.
      * reflexivity.
    + exact IH.
Qed.

End CycleFacts.

(** ** The dice report *)

Module ReportFacts.

Import Report ReportSamples.

Section Generator.

Variable DataFrame : Type.
Variable convpath : string -> string.
Variable extract_vfid_from_input : string -> exn + vfid.
Variable extract_dice_report_from_output : string -> exn + (vfid * DataFrame).

Lemma vfid_eqb_refl (v : vfid) : vfid_eqb v v = true.
Proof. destruct v; simpl; [apply String.eqb_refl | reflexivity]. Qed.

Lemma first_known_snoc (seen : list vfid) (v : vfid) :
  first_known (seen ++ [v]) =
  match first_known seen with Some r => Some r | None => v end.
Proof.
  induction seen as [| [x |] seen IH]; simpl.
  - now destruct v.
  - reflexivity.
  - exact IH.
Qed.

(** The cell of the closure always holds the first known id. *)
Lemma check_by_first_known force seen fpath v :
  check_vfid_missmatch force (first_known seen) fpath v =
  match compare_with_first_known force seen fpath v with
  | inl e => inl e
  | inr w => inr (first_known (seen ++ [v]), w)
  end.
Proof.
  unfold check_vfid_missmatch, compare_with_first_known.
  rewrite first_known_snoc.
  destruct (first_known seen) as [r |]; [| reflexivity].
  destruct (vfid_eqb (Some r) v); simpl; [reflexivity |].
  now destruct force.
Qed.

Lemma loop_inp_by_first_known force l : forall seen,
  loop_inp (DataFrame := DataFrame) convpath extract_vfid_from_input force
           (first_known seen) l =
  cell_of DataFrame (ref_inp convpath extract_vfid_from_input force seen l).
Proof.
  induction l as [| fpath rest IH]; intro seen; simpl.
  - reflexivity.
  - destruct (extract_vfid_from_input (convpath fpath)) as [e | v];
      [reflexivity |].
    rewrite check_by_first_known.
    destruct (compare_with_first_known force seen (convpath fpath) v) as [e | w];
      [reflexivity |].
    rewrite IH. reflexivity.
Qed.

Lemma loop_out_by_first_known force l : forall seen,
  loop_out convpath extract_dice_report_from_output force (first_known seen) l =
  cell_of DataFrame (ref_out convpath extract_dice_report_from_output force seen l).
Proof.
  induction l as [| fpath rest IH]; intro seen; simpl.
  - reflexivity.
  - destruct (extract_dice_report_from_output (convpath fpath)) as [e | [v df]];
      [reflexivity |].
    rewrite check_by_first_known.
    destruct (compare_with_first_known force seen (convpath fpath) v) as [e | w];
      [reflexivity |].
    rewrite IH. reflexivity.
Qed.

(** C10 (amended).  The generator ignores its [expected_vfid] argument:
    any two calls differing only in it drain to the same tuples,
    warnings and exception; each file's id is compared with the first
    id extracted so far that is not [None], never with a value the
    caller supplied. *)
Theorem expected_vfid_ignored :
  forall (force : bool) (iofiles : PFiles),
    (forall e1 e2 : vfid,
        yield_report_tuples_from_iofiles convpath extract_vfid_from_input
          extract_dice_report_from_output force iofiles e1 =
        yield_report_tuples_from_iofiles convpath extract_vfid_from_input
          extract_dice_report_from_output force iofiles e2)
    /\ (forall e : vfid,
           yield_report_tuples_from_iofiles convpath extract_vfid_from_input
             extract_dice_report_from_output force iofiles e =
           report_tuples_by_first_known convpath extract_vfid_from_input
             extract_dice_report_from_output force iofiles).
Proof.
  intros force iofiles. split; [reflexivity |].
  intro e. unfold yield_report_tuples_from_iofiles, report_tuples_by_first_known.
  change (@None string) with (first_known []) at 1.
  rewrite loop_inp_by_first_known.
  destruct (ref_inp convpath extract_vfid_from_input force [] (inp iofiles))
    as [d1 [seen1 |]] eqn:E1; simpl; [| reflexivity].
  rewrite loop_out_by_first_known.
  destruct (ref_out convpath extract_dice_report_from_output force seen1 (out iofiles))
    as [d2 [seen2 |]]; reflexivity.
Qed.

End Generator.

(** C10, as stated, fails: the first file processed holds no id, the
    second holds ['A'] and passes the check although it differs from the
    first file's; the third is compared with the second file's id. *)
Lemma first_file_is_not_the_reference :
  let r := yield_report_tuples_from_iofiles (fun p => p) no_input sheet_of false
             (mkPFiles [] ["o1.xlsx"; "o2.xlsx"; "o3.xlsx"] []) None in
  sheet_of "o1.xlsx" = inr (None, tt)
  /\ yielded r = [("o1.xlsx", "out", DiceReport tt); ("o2.xlsx", "out", DiceReport tt)]
  /\ raised r = Some (CmdException
       "Mismatch `vehicle_family_id` between file('o3.xlsx'): 'B' and the rest's `A`!").
Proof. repeat split. Qed.

End ReportFacts.

(** ** The resolver: queue and termination *)

Module DspFacts.

Import Dsp.
Local Open Scope list_scope.

Lemma node_eqb_eq (a b : node) : node_eqb a b = true <-> a = b.
Proof.
  destruct a, b; simpl; split; intro H; try discriminate; try reflexivity.
  - apply String.eqb_eq in H. now subst.
  - injection H as ->. apply String.eqb_refl.
Qed.

Lemma node_eqb_refl (a : node) : node_eqb a a = true.
Proof. now apply node_eqb_eq. Qed.

Lemma node_eqb_neq (a b : node) : node_eqb a b = false <-> a <> b.
Proof.
  split.
  - intros H E. apply node_eqb_eq in E. congruence.
  - intro H. destruct (node_eqb a b) eqn:E; [| reflexivity].
    apply node_eqb_eq in E. contradiction.
Qed.

(** *** The priority queue *)

Lemma pop_min_length q e q' :
  pop_min q = Some (e, q') -> List.length q = S (List.length q').
Proof.
  revert e q'. induction q as [| x q IH]; intros e q' H; simpl in H.
  - discriminate.
  - destruct (pop_min q) as [[m r] |] eqn:E.
    + destruct (entry_ltb m x); injection H as <- <-; simpl.
      * f_equal. now apply (IH m r).
      * reflexivity.
    + injection H as <- <-. destruct q; [reflexivity |].
      simpl in E. destruct (pop_min q) as [[m r] |];
        [destruct (entry_ltb m e) |]; discriminate.
Qed.

Lemma pop_min_none q : pop_min q = None -> q = [].
Proof.
  destruct q as [| x q]; [reflexivity |]. simpl.
  destruct (pop_min q) as [[m r] |]; [destruct (entry_ltb m x) |]; discriminate.
Qed.

(** The queue is the popped entry plus the rest. *)
Lemma pop_min_in q e q' :
  pop_min q = Some (e, q') -> forall x, In x q <-> x = e \/ In x q'.
Proof.
  revert e q'. induction q as [| y q IH]; intros e q' H x; simpl in H.
  - discriminate.
  - destruct (pop_min q) as [[m r] |] eqn:E.
    + specialize (IH m r eq_refl).
      destruct (entry_ltb m y); injection H as <- <-; simpl.
      * rewrite IH. intuition congruence.
      * intuition congruence.
    + apply pop_min_none in E. subst q. injection H as <- <-. simpl.
      intuition congruence.
Qed.

Lemma entry_ltb_trans a b c :
  entry_ltb a b = true -> entry_ltb b c = true -> entry_ltb a c = true.
Proof.
  unfold entry_ltb. intros H1 H2.
  repeat (rewrite ?orb_true_iff, ?andb_true_iff, ?N.ltb_lt, ?N.eqb_eq,
          ?Nat.ltb_lt, ?Nat.eqb_eq in * ).
  lia.
Qed.

Lemma entry_ltb_total a b c :
  entry_ltb a b = false -> entry_ltb b c = false -> entry_ltb a c = false.
Proof.
  unfold entry_ltb. intros H1 H2.
  repeat (rewrite ?orb_false_iff, ?andb_false_iff, ?N.ltb_ge, ?N.eqb_neq,
          ?Nat.ltb_ge, ?Nat.eqb_neq in * ).
  lia.
Qed.

(** Nothing in the queue is strictly before the popped entry. *)
Lemma pop_min_least q e q' :
  pop_min q = Some (e, q') -> forall x, In x q -> entry_ltb x e = false.
Proof.
  revert e q'. induction q as [| y q IH]; intros e q' H x Hx; simpl in H.
  - discriminate.
  - destruct (pop_min q) as [[m r] |] eqn:E.
    + specialize (IH m r eq_refl).
      destruct (entry_ltb m y) eqn:L; injection H as <- <-.
      * destruct Hx as [<- | Hx]; [| now apply IH].
        destruct (entry_ltb y m) eqn:L'; [| reflexivity].
        unfold entry_ltb in L, L'.
        repeat (rewrite ?orb_true_iff, ?andb_true_iff, ?N.ltb_lt, ?N.eqb_eq,
                ?Nat.ltb_lt, ?Nat.eqb_eq in * ).
        lia.
      * destruct Hx as [<- | Hx].
        -- unfold entry_ltb.
           repeat (rewrite ?orb_false_iff, ?andb_false_iff, ?N.ltb_ge, ?N.eqb_neq,
                   ?Nat.ltb_ge, ?Nat.eqb_neq in * ).
           lia.
        -- apply (entry_ltb_total x m y); [now apply IH | exact L].
    + apply pop_min_none in E. subst q. injection H as <- <-.
      destruct Hx as [<- | []].
      unfold entry_ltb.
      repeat (rewrite ?orb_false_iff, ?andb_false_iff, ?N.ltb_ge, ?N.eqb_neq,
              ?Nat.ltb_ge, ?Nat.eqb_neq in * ).
      lia.
Qed.

Lemma entry_ltb_cost x e : entry_ltb x e = false -> (e_cost e <= e_cost x)%N.
Proof.
  unfold entry_ltb. intro H.
  repeat (rewrite ?orb_false_iff, ?andb_false_iff, ?N.ltb_ge, ?N.eqb_neq in * ).
  lia.
Qed.

(** *** Termination *)

Import DspInv.

Section Termination.

Variable funs : list fnode.
Variable datas : list dnode.
Variable inputs : raw_inputs.
Variable requested : list string.

Local Abbreviation step := (step funs datas inputs requested).
Local Abbreviation run := (run funs datas inputs requested).
Local Abbreviation settle := (settle funs inputs).
Local Abbreviation relax_one := (relax_one inputs).
Local Abbreviation relax_from := (relax_from inputs).
Local Abbreviation process := (process funs inputs).
Local Abbreviation turns_left := (turns_left funs datas).

Lemma unready_same_pend st st' l : forall i,
  (forall j, pend (st' j) = pend (st j)) ->
  unready st' i l = unready st i l.
Proof.
  induction l as [| f l IH]; intros i H; simpl; [reflexivity |].
  unfold term. now rewrite H, IH.
Qed.

Lemma unready_set_out st x l : forall i0 i,
  i < i0 ->
  unready (fun j => if Nat.eqb j i then x else st j) i0 l = unready st i0 l.
Proof.
  induction l as [| f l IH]; intros i0 i H; simpl; [reflexivity |].
  destruct (Nat.eqb_spec i0 i); [lia |]. rewrite IH by lia. reflexivity.
Qed.

Lemma unready_set st x l : forall i0 k f,
  nth_error l k = Some f ->
  unready (fun j => if Nat.eqb j (i0 + k) then x else st j) i0 l
  + term f (st (i0 + k))
  = unready st i0 l + term f x.
Proof.
  induction l as [| g l IH]; intros i0 k f H.
  - destruct k; discriminate.
  - destruct k as [| k]; simpl in H.
    + injection H as ->. simpl. rewrite Nat.add_0_r, Nat.eqb_refl.
      rewrite unready_set_out by lia. unfold term. lia.
    + simpl. destruct (Nat.eqb_spec i0 (i0 + S k)); [lia |].
      specialize (IH (S i0) k f H).
      replace (S i0 + k) with (i0 + S k) in IH by lia. lia.
Qed.

Lemma turns_left_set_f i f x s :
  nth_error funs i = Some f ->
  turns_left (set_f i x s) + term f (fstates s i) = turns_left s + term f x.
Proof.
  intro H. unfold turns_left, set_f; simpl.
  pose proof (unready_set (fstates s) x funs 0 i f H) as E. simpl in E. lia.
Qed.

Lemma relax_one_turns d i f s :
  nth_error funs i = Some f ->
  turns_left (relax_one d i f s) <= turns_left s.
Proof.
  intro H. unfold relax_one.
  destruct (existsb (node_eqb d) (eff_inputs f)); [| lia].
  destruct (pend (fstates s i)) as [| [| n]] eqn:P; simpl Nat.pred.
  - pose proof (turns_left_set_f i f (mkF 0 (disc (fstates s i)) (res (fstates s i))) s H) as E.
    unfold term in E; simpl in E. rewrite P in E. simpl in E. lia.
  - assert (T : term f (fstates s i) = List.length (f_outputs f))
      by (unfold term; now rewrite P).
    destruct (disc (fstates s i)).
    + pose proof (turns_left_set_f i f (mkF 0 true (res (fstates s i))) s H) as E.
      unfold term at 2 in E; simpl in E. lia.
    + destruct (domain_ok inputs f).
      * pose proof (turns_left_set_f i f (mkF 0 false (res (fstates s i))) s H) as E.
        unfold term at 2 in E; simpl in E.
        unfold turns_left, push in *; simpl in *.
        rewrite length_app. unfold candidates. rewrite length_map.
        pose proof (filter_length_le
                      (wanted s (weight f + max_cost s (eff_inputs f)))
                      (f_outputs f)).
        lia.
      * pose proof (turns_left_set_f i f (mkF 0 true (res (fstates s i))) s H) as E.
        unfold term at 2 in E; simpl in E. lia.
  - pose proof (turns_left_set_f i f (mkF (S n) (disc (fstates s i)) (res (fstates s i))) s H) as E.
    unfold term in E; simpl in E. rewrite P in E. simpl in E. lia.
Qed.

(** A property carried along the walk over the consumers. *)
Lemma relax_from_walk (P : nat -> state -> Prop) d :
  (forall i f s, nth_error funs i = Some f -> P i s -> P (S i) (relax_one d i f s)) ->
  forall s, P 0 s -> P (List.length funs) (relax_from d 0 funs s).
Proof.
  intros Hone.
  assert (G : forall rest i s,
             (forall k f, nth_error rest k = Some f -> nth_error funs (i + k) = Some f) ->
             P i s -> P (i + List.length rest) (relax_from d i rest s)).
  { induction rest as [| f rest IH]; intros i s Hidx Hp; simpl.
    - now rewrite Nat.add_0_r.
    - replace (i + S (List.length rest)) with (S i + List.length rest) by lia.
      apply IH.
      + intros k g Hk. replace (S i + k) with (i + S k) by lia.
        now apply Hidx.
      + apply Hone; [| exact Hp].
        specialize (Hidx 0 f eq_refl). now rewrite Nat.add_0_r in Hidx. }
  intros s Hp. apply (G funs 0 s); [intros k f Hk; exact Hk | exact Hp].
Qed.

Lemma relax_from_keeps (P : state -> Prop) d :
  (forall i f s, nth_error funs i = Some f -> P s -> P (relax_one d i f s)) ->
  forall s, P s -> P (relax_from d 0 funs s).
Proof.
  intros Hone s Hp.
  apply (relax_from_walk (fun _ => P) d); [| exact Hp].
  intros i f s0. apply Hone.
Qed.

Lemma settle_turns d v c p s : turns_left (settle d v c p s) <= turns_left s.
Proof.
  unfold settle.
  apply (relax_from_keeps (fun s' => turns_left s' <= turns_left s)).
  - intros i f s0 Hi Hs0. pose proof (relax_one_turns d i f s0 Hi). lia.
  - unfold turns_left. simpl. lia.
Qed.

Lemma invoke_turns i f s :
  turns_left (snd (invoke i f s)) = turns_left s.
Proof.
  unfold invoke.
  destruct (res (fstates s i)); [reflexivity |].
  destruct (arg_values s (f_inputs f)) as [args |];
    [destruct (call f args) |];
    unfold turns_left; simpl; f_equal; f_equal;
      apply unready_same_pend; intro j;
        destruct (Nat.eqb j i) eqn:E; try reflexivity;
          apply Nat.eqb_eq in E; now subst.
Qed.

Lemma process_turns e s : turns_left (process e s) <= turns_left s.
Proof.
  unfold process.
  destruct (is_settled (e_node e) s); [lia |].
  destruct (e_val e) as [v |]; [apply settle_turns |].
  destruct (e_prov e) as [| | | i]; try lia.
  destruct (nth_error funs i) as [f |]; [| lia].
  pose proof (invoke_turns i f s) as E.
  destruct (invoke i f s) as [[vs | err] s1]; simpl in E; [| lia].
  destruct (pick (e_node e) (f_outputs f) vs) as [v |]; [| lia].
  pose proof (settle_turns (e_node e) v (e_cost e) (FromFun i) s1). lia.
Qed.

Lemma default_entries_length s :
  List.length (default_entries datas inputs s) <= List.length datas.
Proof.
  unfold default_entries.
  induction datas as [| d ds IH]; simpl; [lia |].
  rewrite length_app.
  destruct (default_value d); simpl; [| lia].
  destruct (is_input inputs (data_id d) || is_settled (Data (data_id d)) s);
    simpl; lia.
Qed.

(** Every turn of the loop uses up one of the turns left. *)
Lemma step_turns s s' : step s = Some s' -> turns_left s' < turns_left s.
Proof.
  unfold step. destruct (requested_done requested s); [discriminate |].
  destruct (pop_min (queue s)) as [[e q] |] eqn:E.
  - intro H. injection H as <-.
    pose proof (process_turns e (set_queue q s)).
    apply pop_min_length in E.
    unfold turns_left in *. simpl in *. lia.
  - destruct (flushed s) eqn:F; [discriminate |].
    intro H. injection H as <-.
    apply pop_min_none in E.
    pose proof (default_entries_length s).
    unfold turns_left, flush. simpl. rewrite E, F. simpl. lia.
Qed.

Lemma run_enough n : forall s,
  turns_left s <= n -> exists s', run n s = Some s'.
Proof.
  induction n as [| n IH]; intros s H; simpl.
  - destruct (step s) as [s' |] eqn:E; [| now exists s].
    apply step_turns in E. lia.
  - destruct (step s) as [s' |] eqn:E; [| now exists s].
    apply IH. apply step_turns in E. lia.
Qed.

Lemma unready_init l : forall i st, unready st i l <= outputs_total l.
Proof.
  induction l as [| f l IH]; intros i st; simpl; [lia |].
  specialize (IH (S i) st). unfold term.
  destruct (Nat.eqb (pend (st i)) 0); lia.
Qed.

(** The run always comes to an end within its fuel. *)
Lemma resolve_total :
  exists s, resolve funs datas inputs requested = Some s.
Proof.
  unfold resolve. apply run_enough.
  unfold turns_left, fuel_bound, init. simpl. rewrite length_map.
  pose proof (unready_init funs 0
                (fun i => match nth_error funs i with
                          | Some f => mkF (List.length (eff_inputs f)) false None
                          | None => mkF 0 false None
                          end)).
  lia.
Qed.

Lemma run_reach n : forall s s',
  reach funs datas inputs requested s -> run n s = Some s' ->
  reach funs datas inputs requested s' /\ step s' = None.
Proof.
  induction n as [| n IH]; intros s s' R H; simpl in H.
  - destruct (step s) eqn:E; [discriminate |]. injection H as <-. now split.
  - destruct (step s) as [s1 |] eqn:E.
    + apply (IH s1); [| exact H]. now apply reach_step with s.
    + injection H as <-. now split.
Qed.

Lemma resolve_reach s :
  resolve funs datas inputs requested = Some s ->
  reach funs datas inputs requested s /\ step s = None.
Proof. apply run_reach. constructor. Qed.

End Termination.

(** *** What a turn of the loop does to the state *)

Section Frames.

Variable funs : list fnode.
Variable datas : list dnode.
Variable inputs : raw_inputs.
Variable requested : list string.

Local Abbreviation settle := (settle funs inputs).
Local Abbreviation relax_one := (relax_one inputs).
Local Abbreviation relax_from := (relax_from inputs).
Local Abbreviation relaxed := (relaxed inputs).
Local Abbreviation fires := (fires inputs).

Lemma relax_one_frame d i f s :
  settled (relax_one d i f s) = settled s
  /\ trace (relax_one d i f s) = trace s
  /\ flushed (relax_one d i f s) = flushed s
  /\ fstates (relax_one d i f s) i = relaxed d f (fstates s i)
  /\ (forall j, j <> i -> fstates (relax_one d i f s) j = fstates s j)
  /\ queue (relax_one d i f s) =
     queue s ++ (if fires d f (fstates s i) then offer s i f else []).
Proof.
  unfold Dsp.relax_one, DspInv.relaxed, DspInv.fires, DspInv.offer.
  destruct (existsb (node_eqb d) (eff_inputs f)); simpl.
  2: { rewrite app_nil_r. repeat split; auto. }
  assert (U : forall x j, j <> i ->
                fstates (set_f i x s) j = fstates s j).
  { intros x j Hj. simpl. destruct (Nat.eqb_spec j i); congruence. }
  assert (V : forall x, fstates (set_f i x s) i = x).
  { intros x. simpl. now rewrite Nat.eqb_refl. }
  destruct (pend (fstates s i)) as [| [| n]]; simpl.
  - rewrite Nat.eqb_refl, app_nil_r. repeat split; auto; intros j Hj; destruct (Nat.eqb_spec j i); congruence.
  - destruct (disc (fstates s i)); simpl.
    + rewrite Nat.eqb_refl, app_nil_r. repeat split; auto; intros j Hj; destruct (Nat.eqb_spec j i); congruence.
    + destruct (domain_ok inputs f); simpl.
      * rewrite Nat.eqb_refl. repeat split; auto; intros j Hj; destruct (Nat.eqb_spec j i); congruence.
      * rewrite Nat.eqb_refl, app_nil_r. repeat split; auto; intros j Hj; destruct (Nat.eqb_spec j i); congruence.
  - rewrite Nat.eqb_refl, app_nil_r. repeat split; auto; intros j Hj; destruct (Nat.eqb_spec j i); congruence.
Qed.

Lemma offer_same_settled s1 s0 j f :
  settled s1 = settled s0 -> offer s1 j f = offer s0 j f.
Proof.
  intro H. unfold offer, candidates, wanted, max_cost, cost_of.
  now rewrite H.
Qed.

(** The state after a settlement, field by field. *)
Lemma settle_frame d v c p s :
  settled (settle d v c p s) = (d, mkSrec v c p) :: settled s
  /\ trace (settle d v c p s) = Settled d v p :: trace s
  /\ flushed (settle d v c p s) = flushed s
  /\ (forall j f, nth_error funs j = Some f ->
                  fstates (settle d v c p s) j = relaxed d f (fstates s j))
  /\ (forall j, nth_error funs j = None ->
                fstates (settle d v c p s) j = fstates s j)
  /\ (forall e, In e (queue (settle d v c p s)) <->
                In e (queue s)
                \/ exists j f, nth_error funs j = Some f
                               /\ fires d f (fstates s j) = true
                               /\ In e (offer (noted d v c p s) j f)).
Proof.
  set (s0 := noted d v c p s).
  pose (P := fun (i : nat) (s1 : state) =>
    settled s1 = settled s0 /\ trace s1 = trace s0 /\ flushed s1 = flushed s0
    /\ (forall j f, j < i -> nth_error funs j = Some f ->
                    fstates s1 j = relaxed d f (fstates s0 j))
    /\ (forall j, i <= j -> fstates s1 j = fstates s0 j)
    /\ (forall e, In e (queue s1) <->
                  In e (queue s0)
                  \/ exists j f, j < i /\ nth_error funs j = Some f
                                 /\ fires d f (fstates s0 j) = true
                                 /\ In e (offer s0 j f))).
  assert (W : P (List.length funs) (settle d v c p s)).
  { unfold Dsp.settle. fold (noted d v c p s). fold s0.
    apply (relax_from_walk funs inputs P d).
    - intros i f s1 Hi (H1 & H2 & H3 & H4 & H5 & H6).
      destruct (relax_one_frame d i f s1) as (F1 & F2 & F3 & F4 & F5 & F6).
      unfold P. repeat split.
      + congruence.
      + congruence.
      + congruence.
      + intros j g Hj Hg. destruct (Nat.eq_dec j i) as [-> | Hne].
        * rewrite F4, H5 by lia. congruence.
        * rewrite F5 by exact Hne. apply H4; [lia | exact Hg].
      + intros j Hj. rewrite F5 by lia. apply H5. lia.
      + rewrite F6. rewrite in_app_iff, H6. intros [[Hq | Hq] | Hq].
        * now left.
        * right. destruct Hq as (j & g & Hj & Hq). exists j, g.
          split; [lia | exact Hq].
        * rewrite H5 in Hq by lia.
          destruct (fires d f (fstates s0 i)) eqn:Ff; [| destruct Hq].
          right. exists i, f. rewrite (offer_same_settled s1 s0 i f H1) in Hq.
          repeat split; auto.
      + rewrite F6. rewrite in_app_iff, H6. intros [Hq | Hq].
        * left. now left.
        * destruct Hq as (j & g & Hj & Hg & Hf & Hin).
          destruct (Nat.eq_dec j i) as [-> | Hne].
          -- right. rewrite H5 by lia.
             assert (g = f) by congruence. subst g.
             rewrite Hf. now rewrite (offer_same_settled s1 s0 i f H1).
          -- left. right. exists j, g. repeat split; auto. lia.
    - unfold P. repeat split; auto; try (intros; lia).
      intros [Hq | (j & g & Hj & _)]; [exact Hq | lia]. }
  destruct W as (H1 & H2 & H3 & H4 & H5 & H6).
  repeat split.
  - exact H1.
  - exact H2.
  - exact H3.
  - intros j f Hj. apply H4; [| exact Hj].
    apply nth_error_Some. congruence.
  - intros j Hj. apply H5. now apply nth_error_None.
  - rewrite H6. intros [Hq | (j & g & _ & Hq)]; [now left |].
    right. now exists j, g.
  - rewrite H6. intros [Hq | (j & g & Hg & Hq)]; [now left |].
    right. exists j, g. repeat split; try tauto.
    apply nth_error_Some. congruence.
Qed.

(** The state after an invocation, field by field. *)
Lemma invoke_frame i f s oc s1 :
  invoke i f s = (oc, s1) ->
  settled s1 = settled s /\ queue s1 = queue s /\ flushed s1 = flushed s
  /\ (forall j, j <> i -> fstates s1 j = fstates s j)
  /\ pend (fstates s1 i) = pend (fstates s i)
  /\ res (fstates s1 i) = Some oc
  /\ ((res (fstates s i) = Some oc /\ s1 = s)
      \/ (res (fstates s i) = None
          /\ match oc with
             | Returned vs =>
                 exists args, arg_values s (f_inputs f) = Some args
                              /\ call f args = Returned vs
                              /\ trace s1 = Invoked i args vs :: trace s
                              /\ disc (fstates s1 i) = disc (fstates s i)
             | Raised err =>
                 trace s1 = Failed i err :: trace s
                 /\ disc (fstates s1 i) = true
                 /\ (arg_values s (f_inputs f) = None
                     \/ exists args, arg_values s (f_inputs f) = Some args
                                     /\ call f args = Raised err)
             end)).
Proof.
  unfold invoke.
  destruct (res (fstates s i)) as [oc0 |] eqn:R.
  - intro H. injection H as <- <-. repeat split; auto.
  - destruct (arg_values s (f_inputs f)) as [args |] eqn:A;
      [destruct (call f args) as [vs | err] eqn:C |];
      intro H; injection H as <- <-;
      (refine (conj eq_refl (conj eq_refl (conj eq_refl (conj _ (conj _ (conj _ _)))))));
      try (intros j Hj; simpl; destruct (Nat.eqb_spec j i); congruence);
      try (simpl; rewrite Nat.eqb_refl; reflexivity);
      right; (split; [reflexivity |]); simpl; rewrite ?Nat.eqb_refl; simpl.
    + exists args. auto.
    + repeat split; auto. right. exists args. auto.
    + repeat split; auto.
Qed.

Lemma step_turn s s' :
  step funs datas inputs requested s = Some s' -> turn funs datas inputs s s'.
Proof.
  unfold step. destruct (requested_done requested s); [discriminate |].
  destruct (pop_min (queue s)) as [[e q] |] eqn:E.
  - intro H. injection H as <-. unfold process.
    change (is_settled (e_node e) (set_queue q s)) with (is_settled (e_node e) s).
    destruct (is_settled (e_node e) s) eqn:S; [eapply turn_skip; eauto |].
    destruct (e_val e) as [v |] eqn:V; [eapply turn_given; eauto |].
    destruct (e_prov e) as [| | | i] eqn:Pv;
      try (eapply turn_stray; eauto; intros; congruence).
    destruct (nth_error funs i) as [f |] eqn:F.
    + destruct (invoke i f (set_queue q s)) as [[vs | err] s1] eqn:I.
      * destruct (pick (e_node e) (f_outputs f) vs) as [v |] eqn:K.
        -- eapply turn_produce; eauto.
        -- eapply turn_short; eauto.
      * eapply turn_raise; eauto.
    + eapply turn_stray; eauto. intros j Hj. congruence.
  - destruct (flushed s) eqn:Fl; [discriminate |].
    intro H. injection H as <-. apply pop_min_none in E. now apply turn_flush.
Qed.

(** Proofs about every state of a run go by the turns of the loop. *)
Lemma reach_turns (P : state -> Prop) :
  P (init funs inputs) ->
  (forall s s', reach funs datas inputs requested s -> P s ->
                turn funs datas inputs s s' -> P s') ->
  forall s, reach funs datas inputs requested s -> P s.
Proof.
  intros H0 Hs s R. induction R as [| s s' R IH St]; [exact H0 |].
  apply (Hs s s' R IH). now apply step_turn.
Qed.

End Frames.

(** *** The settled map *)

Lemma find_settled_cons x d r st :
  find_settled x ((d, r) :: st) = if node_eqb x d then Some r else find_settled x st.
Proof. unfold find_settled. simpl. now destruct (node_eqb x d). Qed.

Lemma find_settled_in x r st : find_settled x st = Some r -> In (x, r) st.
Proof.
  unfold find_settled. destruct (find _ st) as [[y r'] |] eqn:E; [| discriminate].
  intro H. injection H as <-. apply find_some in E. destruct E as [Hin Heq].
  simpl in Heq. apply node_eqb_eq in Heq. now subst.
Qed.

Lemma find_settled_none x st : find_settled x st = None -> ~ In x (map fst st).
Proof.
  unfold find_settled. destruct (find _ st) as [p |] eqn:E; [discriminate |].
  intros _ Hin. apply in_map_iff in Hin. destruct Hin as ([y r] & Hy & Hin).
  simpl in Hy. subst y.
  pose proof (find_none _ _ E _ Hin) as N. simpl in N.
  now rewrite node_eqb_refl in N.
Qed.

Lemma find_settled_some x st : In x (map fst st) -> find_settled x st <> None.
Proof. intros Hin E. now apply find_settled_none in E. Qed.

Lemma in_find_settled x r st :
  NoDup (map fst st) -> In (x, r) st -> find_settled x st = Some r.
Proof.
  induction st as [| [y r'] st IH]; intros N Hin; [destruct Hin |].
  rewrite find_settled_cons. simpl in N. inversion N as [| ? ? Hy N']; subst.
  destruct Hin as [E | Hin].
  - injection E as -> ->. now rewrite node_eqb_refl.
  - destruct (node_eqb x y) eqn:Q.
    + apply node_eqb_eq in Q. subst y. exfalso. apply Hy.
      apply in_map_iff. now exists (x, r).
    + now apply IH.
Qed.

Lemma is_settled_true x s :
  is_settled x s = true <-> exists r, find_settled x (settled s) = Some r.
Proof.
  unfold is_settled. destruct (find_settled x (settled s)) as [r |].
  - split; [now exists r | reflexivity].
  - split; [discriminate | intros (r & H); discriminate].
Qed.

Lemma is_settled_false x s :
  is_settled x s = false <-> find_settled x (settled s) = None.
Proof.
  unfold is_settled. destruct (find_settled x (settled s)); split; congruence.
Qed.

Lemma max_cost_same s s' l :
  (forall x, In x l -> find_settled x (settled s') = find_settled x (settled s)) ->
  max_cost s' l = max_cost s l.
Proof.
  induction l as [| x l IH]; intro H; simpl; [reflexivity |].
  rewrite IH by (intros y Hy; apply H; now right).
  unfold cost_of. rewrite (H x) by now left. reflexivity.
Qed.

(** A function whose counter ran out has every input settled. *)
Lemma counted_all_in (st : list (node * srec)) l :
  NoDup (map fst st) ->
  List.length l <= List.length (filter (fun p => existsb (node_eqb (fst p)) l) st) ->
  forall x, In x l -> In x (map fst st).
Proof.
  intros N Hlen x Hx.
  set (K := map fst (filter (fun p => existsb (node_eqb (fst p)) l) st)).
  assert (NK : NoDup K).
  { unfold K. clear Hlen. induction st as [| [y r] st IH]; simpl; [constructor |].
    simpl in N. inversion N as [| ? ? Hy N']; subst.
    destruct (existsb (node_eqb y) l); simpl; [| now apply IH].
    constructor; [| now apply IH].
    intro Hin. apply Hy. apply in_map_iff in Hin.
    destruct Hin as (p & Hp & Hin). apply filter_In in Hin.
    apply in_map_iff. exists p. tauto. }
  assert (IK : incl K l).
  { intros y Hy. unfold K in Hy. apply in_map_iff in Hy.
    destruct Hy as (p & Hp & Hin). apply filter_In in Hin.
    destruct Hin as [_ Hex]. apply existsb_exists in Hex.
    destruct Hex as (z & Hz & Heq). apply node_eqb_eq in Heq. congruence. }
  assert (LK : List.length l <= List.length K)
    by (unfold K; now rewrite length_map).
  pose proof (NoDup_length_incl NK LK IK x Hx) as Hin.
  unfold K in Hin. apply in_map_iff in Hin. destruct Hin as (p & Hp & Hin).
  apply filter_In in Hin. apply in_map_iff. exists p. tauto.
Qed.

(** *** Soundness of the run *)

Section Soundness.

Variable funs : list fnode.
Variable datas : list dnode.
Variable inputs : raw_inputs.
Variable requested : list string.

Local Abbreviation settle := (settle funs inputs).
Local Abbreviation relaxed := (relaxed inputs).
Local Abbreviation fires := (fires inputs).
Local Abbreviation sound := (sound funs datas inputs).
Local Abbreviation entry_ok := (entry_ok funs datas inputs).
Local Abbreviation srec_ok := (srec_ok funs datas inputs).
Local Abbreviation res_ok := (res_ok funs inputs).
Local Abbreviation given := (given datas inputs).

Lemma grows_refl s : grows s s.
Proof. unfold grows. auto. Qed.

Lemma grows_trans s1 s2 s3 : grows s1 s2 -> grows s2 s3 -> grows s1 s3.
Proof.
  intros (A1 & A2 & A3 & A4 & A5) (B1 & B2 & B3 & B4 & B5).
  unfold grows. repeat split; auto.
Qed.

Lemma relaxed_res d f x : res (relaxed d f x) = res x.
Proof.
  unfold DspInv.relaxed. destruct (existsb (node_eqb d) (eff_inputs f)); [| reflexivity].
  destruct (pend x) as [| [| n]]; try reflexivity.
  destruct (disc x); [reflexivity |]. now destruct (domain_ok inputs f).
Qed.

Lemma relaxed_pend d f x :
  pend (relaxed d f x) =
  if existsb (node_eqb d) (eff_inputs f) then Nat.pred (pend x) else pend x.
Proof.
  unfold DspInv.relaxed. destruct (existsb (node_eqb d) (eff_inputs f)); [| reflexivity].
  destruct (pend x) as [| [| n]]; try reflexivity.
  destruct (disc x); [reflexivity |]. now destruct (domain_ok inputs f).
Qed.

Lemma relaxed_disc d f x :
  disc (relaxed d f x) = true ->
  disc x = true \/ domain_ok inputs f = false.
Proof.
  unfold DspInv.relaxed. destruct (existsb (node_eqb d) (eff_inputs f)); [| auto].
  destruct (pend x) as [| [| n]]; simpl; auto.
  destruct (disc x); [auto |]. destruct (domain_ok inputs f); simpl; auto.
Qed.

Lemma relaxed_disc_keeps d f x : disc x = true -> disc (relaxed d f x) = true.
Proof.
  intro H. unfold DspInv.relaxed.
  destruct (existsb (node_eqb d) (eff_inputs f)); [| exact H].
  destruct (pend x) as [| [| n]]; simpl; auto.
  now rewrite H.
Qed.

Lemma settle_res d v c p s i : res (fstates (settle d v c p s) i) = res (fstates s i).
Proof.
  destruct (settle_frame funs inputs d v c p s) as (_ & _ & _ & F4 & F5 & _).
  destruct (nth_error funs i) as [f |] eqn:E.
  - rewrite (F4 i f E). apply relaxed_res.
  - now rewrite (F5 i E).
Qed.

Lemma settle_grows d v c p s :
  is_settled d s = false -> grows s (settle d v c p s).
Proof.
  intro U. apply is_settled_false in U.
  destruct (settle_frame funs inputs d v c p s) as (F1 & F2 & _ & F4 & F5 & _).
  unfold grows. repeat split.
  - intros x r H. rewrite F1, find_settled_cons.
    destruct (node_eqb x d) eqn:Q; [| exact H].
    apply node_eqb_eq in Q. congruence.
  - intros x r H. rewrite F1. now right.
  - intros i oc H. now rewrite settle_res.
  - intros i H. destruct (nth_error funs i) as [f |] eqn:E.
    + rewrite (F4 i f E). now apply relaxed_disc_keeps.
    + now rewrite (F5 i E).
  - intros ev H. rewrite F2. now right.
Qed.

Lemma invoke_grows {i f s oc s1} : invoke i f s = (oc, s1) -> grows s s1.
Proof.
  intro H. destruct (invoke_frame i f s oc s1 H) as (F1 & _ & _ & F4 & _ & F6 & F7).
  unfold grows. repeat split.
  - intros x r Hx. now rewrite F1.
  - intros x r Hx. now rewrite F1.
  - intros j oc' Hj. destruct (Nat.eq_dec j i) as [-> | Hne].
    + destruct F7 as [[_ ->] | [N _]]; [exact Hj | congruence].
    + now rewrite F4.
  - intros j Hj. destruct (Nat.eq_dec j i) as [-> | Hne].
    + destruct F7 as [[_ ->] | [_ F7]]; [exact Hj |].
      destruct oc as [vs | err].
      * destruct F7 as (args & _ & _ & _ & D). now rewrite D.
      * tauto.
    + now rewrite F4.
  - intros ev Hev. destruct F7 as [[_ ->] | [_ F7]]; [exact Hev |].
    destruct oc as [vs | err].
    + destruct F7 as (args & _ & _ & T & _). rewrite T. now right.
    + destruct F7 as (T & _). rewrite T. now right.
Qed.

Lemma all_settled_grows {s s' l} : grows s s' -> all_settled s l -> all_settled s' l.
Proof.
  intros (G1 & _) H x Hx. specialize (H x Hx).
  apply is_settled_true in H. destruct H as (r & H).
  apply is_settled_true. exists r. now apply G1.
Qed.

Lemma max_cost_grows {s s' l} :
  grows s s' -> all_settled s l -> max_cost s' l = max_cost s l.
Proof.
  intros (G1 & _) H. apply max_cost_same. intros x Hx.
  specialize (H x Hx). apply is_settled_true in H. destruct H as (r & H).
  rewrite H. now apply G1.
Qed.

Lemma entry_ok_grows {s s' e} : grows s s' -> entry_ok s e -> entry_ok s' e.
Proof.
  intros G. unfold DspInv.entry_ok. destruct (e_prov e); auto.
  intros (V & f & H1 & H2 & H3 & H4 & H5 & H6). split; [exact V |].
  exists f. repeat split; auto.
  - now apply (all_settled_grows G).
  - now rewrite (max_cost_grows G H5).
Qed.

Lemma srec_ok_grows {s s' d r} : grows s s' -> srec_ok s d r -> srec_ok s' d r.
Proof.
  intros G. unfold DspInv.srec_ok. destruct (s_prov r); auto.
  intros (f & vs & H1 & H2 & H3 & H4 & H5 & H6 & H7 & H8).
  exists f, vs. repeat split; auto.
  - now apply G.
  - now apply (all_settled_grows G).
  - now rewrite (max_cost_grows G H7).
Qed.

Lemma res_ok_grows {s s' i oc} : grows s s' -> res_ok s i oc -> res_ok s' i oc.
Proof.
  intros G (f & H1 & H2 & H3 & H4). exists f. repeat split; auto.
  - now apply (all_settled_grows G).
  - destruct oc as [vs | err].
    + destruct H4 as (L & args & T). split; [exact L |]. exists args. now apply G.
    + destruct H4 as (D & T & R). repeat split; auto; now apply G.
Qed.

Lemma event_ok_grows {s s' ev} : grows s s' -> event_ok s ev -> event_ok s' ev.
Proof.
  intros G. destruct ev as [d v p | i args vs | i err]; simpl.
  - intros (r & H1 & H2 & H3). exists r. repeat split; auto. now apply G.
  - apply G.
  - apply G.
Qed.

Lemma sound_subqueue s q :
  sound s -> (forall e, In e q -> In e (queue s)) -> sound (set_queue q s).
Proof.
  intros [H1 H2 H3 H4 H5 H6 H7] Hq. constructor; auto.
  intros e He. apply (H3 e). now apply Hq.
Qed.

Lemma sound_flush s : sound s -> sound (flush datas inputs s).
Proof.
  intros [H1 H2 H3 H4 H5 H6 H7]. constructor; auto.
  intros e He. unfold flush in He. simpl in He. apply in_app_iff in He.
  destruct He as [He | He]; [now apply (H3 e) |].
  unfold default_entries in He. apply in_flat_map in He.
  destruct He as (dn & Hdn & He).
  destruct (default_value dn) as [v |] eqn:Dv; [| destruct He].
  destruct (is_input inputs (data_id dn)) eqn:Ii; simpl in He; [destruct He |].
  destruct (is_settled (Data (data_id dn)) s); simpl in He; [destruct He |].
  destruct He as [<- | []]. unfold DspInv.entry_ok. simpl.
  exists v. repeat split. exists dn. auto.
Qed.

Lemma sound_init : sound (init funs inputs).
Proof.
  constructor; simpl.
  - constructor.
  - intros i f H. rewrite H. simpl. unfold count_in. simpl. lia.
  - intros e [<- | He].
    + unfold DspInv.entry_ok. simpl. exists PNone. auto.
    + apply in_map_iff in He. destruct He as ([k v] & <- & Hin).
      unfold DspInv.entry_ok. simpl. exists v. repeat split. now exists k.
  - intros d r [].
  - intros i oc H. destruct (nth_error funs i); discriminate.
  - intros i H. destruct (nth_error funs i); discriminate.
  - intros ev [].
Qed.

Lemma arg_values_some s l :
  all_settled s l -> exists args, arg_values s l = Some args.
Proof.
  induction l as [| x l IH]; intro H; simpl; [now exists [] |].
  destruct IH as (args & ->); [intros y Hy; apply H; now right |].
  specialize (H x (or_introl eq_refl)). apply is_settled_true in H.
  destruct H as (r & ->). now exists (s_val r :: args).
Qed.

Lemma inputs_in_eff f x : In x (f_inputs f) -> In x (eff_inputs f).
Proof. unfold eff_inputs. destruct (f_inputs f); [intros [] | auto]. Qed.

Lemma call_length f args vs :
  call f args = Returned vs -> List.length vs = List.length (f_outputs f).
Proof.
  unfold call. destruct (callable f args) as [ws | err]; [| discriminate].
  destruct (Nat.eqb_spec (List.length ws) (List.length (f_outputs f)));
    [| discriminate].
  intro H. injection H as <-. assumption.
Qed.

Lemma call_reliable f args : reliable f -> exists vs, call f args = Returned vs.
Proof.
  intro R. destruct (R args) as (vs & C & L). exists vs.
  unfold call. rewrite C, L. now rewrite Nat.eqb_refl.
Qed.

Lemma sound_invoke s i f oc s1 :
  sound s -> nth_error funs i = Some f -> domain_ok inputs f = true ->
  all_settled s (eff_inputs f) ->
  invoke i f s = (oc, s1) -> sound s1.
Proof.
  intros Hs Hf Hd Ha Hi.
  pose proof (invoke_grows Hi) as G.
  destruct (invoke_frame i f s oc s1 Hi) as (F1 & F2 & F3 & F4 & F5 & F6 & F7).
  destruct F7 as [[_ ->] | [N F7]]; [exact Hs |].
  destruct Hs as [H1 H2 H3 H4 H5 H6 H7].
  assert (Rk : res_ok s1 i oc).
  { exists f. repeat split; auto.
    - now apply (all_settled_grows G).
    - destruct oc as [vs | err].
      + destruct F7 as (args & _ & C & T & _). split.
        * now apply call_length with args.
        * exists args. rewrite T. now left.
      + destruct F7 as (T & D & C). repeat split; auto.
        * rewrite T. now left.
        * intro R. destruct C as [C | (args & _ & C)].
          -- destruct (arg_values_some s (f_inputs f)) as (args & A);
               [| congruence].
             intros x Hx. apply Ha. now apply inputs_in_eff.
          -- destruct (call_reliable f args R) as (vs & C'). congruence. }
  constructor.
  - now rewrite F1.
  - intros j g Hg. rewrite F1. destruct (Nat.eq_dec j i) as [-> | Hne].
    + rewrite F5. now apply H2.
    + rewrite F4 by exact Hne. now apply H2.
  - intros e He. rewrite F2 in He. apply (entry_ok_grows G). now apply H3.
  - intros d r Hr. rewrite F1 in Hr. apply (srec_ok_grows G). now apply H4.
  - intros j oc' Hj. destruct (Nat.eq_dec j i) as [-> | Hne].
    + assert (oc' = oc) by congruence. subst oc'. exact Rk.
    + rewrite F4 in Hj by exact Hne. apply (res_ok_grows G). now apply H5.
  - intros j Hj. destruct (Nat.eq_dec j i) as [-> | Hne].
    + exists f. split; [exact Hf |]. destruct oc as [vs | err].
      * destruct F7 as (args & _ & _ & _ & D). rewrite D in Hj.
        destruct (H6 i Hj) as (f' & Hf' & [Hdom | (err & Hr)]).
        -- left. congruence.
        -- congruence.
      * right. now exists err.
    + rewrite F4 in Hj by exact Hne.
      destruct (H6 j Hj) as (g & Hg & [Hdom | (err & Hr)]); exists g.
      * split; [exact Hg | now left].
      * split; [exact Hg |]. right. exists err. now apply G.
  - intros ev Hev.
    assert (Hnew : forall ev', trace s1 = ev' :: trace s ->
                               event_ok s1 ev' -> event_ok s1 ev).
    { intros ev' T Hok. rewrite T in Hev. destruct Hev as [<- | Hev];
        [exact Hok |]. apply (event_ok_grows G). now apply H7. }
    destruct oc as [vs | err].
    + destruct F7 as (args & _ & _ & T & _). apply (Hnew _ T). exact F6.
    + destruct F7 as (T & _). apply (Hnew _ T). exact F6.
Qed.

Lemma fires_true d f x :
  fires d f x = true ->
  existsb (node_eqb d) (eff_inputs f) = true /\ pend x = 1
  /\ disc x = false /\ domain_ok inputs f = true.
Proof.
  unfold DspInv.fires. rewrite !andb_true_iff, negb_true_iff, Nat.eqb_eq. tauto.
Qed.

Lemma in_offer e s j f :
  In e (offer s j f) ->
  e_prov e = FromFun j /\ e_val e = None
  /\ e_cost e = (weight f + max_cost s (eff_inputs f))%N
  /\ In (e_node e) (f_outputs f) /\ e_node e <> SINK
  /\ wanted s (e_cost e) (e_node e) = true.
Proof.
  unfold offer, candidates. intro H. apply in_map_iff in H.
  destruct H as (o & <- & Ho). apply filter_In in Ho. destruct Ho as [Ho W].
  simpl. repeat split; auto. intros ->. discriminate.
Qed.

Lemma count_in_cons d r st f :
  count_in ((d, r) :: st) f =
  (if existsb (node_eqb d) (eff_inputs f) then 1 else 0) + count_in st f.
Proof.
  unfold count_in. simpl. now destruct (existsb (node_eqb d) (eff_inputs f)).
Qed.

Lemma sound_settle s d v c p :
  sound s -> is_settled d s = false -> srec_ok s d (mkSrec v c p) ->
  sound (settle d v c p s).
Proof.
  intros Hs U Hr.
  pose proof (settle_grows d v c p s U) as G.
  destruct (settle_frame funs inputs d v c p s) as (F1 & F2 & F3 & F4 & F5 & F6).
  destruct Hs as [H1 H2 H3 H4 H5 H6 H7].
  assert (N : NoDup (map fst (settled (settle d v c p s)))).
  { rewrite F1. simpl. constructor; [| exact H1].
    apply find_settled_none. now apply is_settled_false. }
  constructor.
  - exact N.
  - intros j g Hg. rewrite (F4 j g Hg), relaxed_pend, F1, count_in_cons.
    rewrite (H2 j g Hg).
    destruct (existsb (node_eqb d) (eff_inputs g)); lia.
  - intros e He. apply F6 in He. destruct He as [He | (j & g & Hg & Hf & He)].
    + apply (entry_ok_grows G). now apply H3.
    + apply fires_true in Hf. destruct Hf as (Hc & Hp & _ & Hd).
      apply in_offer in He. destruct He as (E1 & E2 & E3 & E4 & E5 & _).
      unfold DspInv.entry_ok. rewrite E1. split; [exact E2 |].
      exists g. repeat split; auto.
      * intros x Hx. apply is_settled_true.
        destruct (find_settled x (settled (settle d v c p s))) as [r |] eqn:Q;
          [now exists r |].
        exfalso. revert Q. apply find_settled_some.
        apply (counted_all_in _ (eff_inputs g) N); [| exact Hx].
        fold (count_in (settled (settle d v c p s)) g).
        rewrite F1, count_in_cons, Hc.
        specialize (H2 j g Hg). lia.
      * rewrite E3. f_equal. apply max_cost_same. intros x _. now rewrite F1.
  - intros x r Hx. rewrite F1 in Hx. destruct Hx as [E | Hx].
    + injection E as <- <-. now apply (srec_ok_grows G).
    + apply (srec_ok_grows G). now apply H4.
  - intros j oc Hj. rewrite settle_res in Hj. apply (res_ok_grows G). now apply H5.
  - intros j Hj.
    assert (Old : disc (fstates s j) = true ->
                  exists f, nth_error funs j = Some f
                            /\ (domain_ok inputs f = false
                                \/ exists err, res (fstates (settle d v c p s) j)
                                               = Some (Raised err))).
    { intro D. destruct (H6 j D) as (g & Hg & [Hd | (err & Hres)]); exists g.
      - split; [exact Hg | now left].
      - split; [exact Hg |]. right. exists err. now apply G. }
    destruct (nth_error funs j) as [g |] eqn:Hg.
    + rewrite (F4 j g Hg) in Hj. apply relaxed_disc in Hj.
      destruct Hj as [D | Hd]; [now apply Old |].
      exists g. split; [reflexivity | now left].
    + rewrite (F5 j Hg) in Hj. now apply Old.
  - intros ev Hev. rewrite F2 in Hev. destruct Hev as [<- | Hev].
    + simpl. exists (mkSrec v c p). rewrite F1. repeat split. now left.
    + apply (event_ok_grows G). now apply H7.
Qed.

Lemma popped_in {s e q} : pop_min (queue s) = Some (e, q) -> In e (queue s).
Proof. intro H. apply (pop_min_in _ _ _ H). now left. Qed.

Lemma rest_in {s e q} :
  pop_min (queue s) = Some (e, q) -> forall x, In x q -> In x (queue s).
Proof. intros H x Hx. apply (pop_min_in _ _ _ H). now right. Qed.

(** What the popped offer of a function says once the rest of the queue
    is put back. *)
Lemma popped_offer {s e q i f} :
  sound s -> pop_min (queue s) = Some (e, q) ->
  e_prov e = FromFun i -> nth_error funs i = Some f ->
  In (e_node e) (f_outputs f) /\ e_node e <> SINK
  /\ domain_ok inputs f = true
  /\ all_settled (set_queue q s) (eff_inputs f)
  /\ e_cost e = (weight f + max_cost (set_queue q s) (eff_inputs f))%N.
Proof.
  intros Hs Hp He Hf.
  pose proof (sd_queue Hs e (popped_in Hp)) as Ok.
  unfold DspInv.entry_ok in Ok. rewrite He in Ok.
  destruct Ok as (_ & g & Hg & Ok).
  assert (g = f) by congruence. subst g. exact Ok.
Qed.

Lemma sound_turn s s' : sound s -> turn funs datas inputs s s' -> sound s'.
Proof.
  intros Hs T.
  destruct T as [Q Fl | e q P S | e q P S V N | e q v P S V
                 | e q i f err s1 P S V Pv F I
                 | e q i f vs s1 v P S V Pv F I K
                 | e q i f vs s1 P S V Pv F I K].
  - now apply sound_flush.
  - apply sound_subqueue; [exact Hs | exact (rest_in P)].
  - apply sound_subqueue; [exact Hs | exact (rest_in P)].
  - apply sound_settle.
    + apply sound_subqueue; [exact Hs | exact (rest_in P)].
    + exact S.
    + pose proof (sd_queue Hs e (popped_in P)) as Ok.
      unfold DspInv.entry_ok in Ok. unfold DspInv.srec_ok. simpl.
      destruct (e_prov e).
      * destruct Ok as (v' & V' & Ok). assert (v' = v) by congruence. now subst.
      * destruct Ok as (v' & V' & Ok). assert (v' = v) by congruence. now subst.
      * destruct Ok as (v' & V' & Ok). assert (v' = v) by congruence. now subst.
      * destruct Ok as (V' & _). congruence.
  - destruct (popped_offer Hs P Pv F) as (_ & _ & Hd & Ha & _).
    apply (sound_invoke (set_queue q s) i f (Raised err) s1);
      auto.
    apply sound_subqueue; [exact Hs | exact (rest_in P)].
  - destruct (popped_offer Hs P Pv F) as (Ho & Hk & Hd & Ha & Hc).
    assert (S1 : sound s1).
    { apply (sound_invoke (set_queue q s) i f (Returned vs) s1);
        auto.
      apply sound_subqueue; [exact Hs | exact (rest_in P)]. }
    pose proof (invoke_grows I) as G.
    destruct (invoke_frame i f (set_queue q s) (Returned vs) s1 I)
      as (F1 & _ & _ & _ & _ & F6 & _).
    apply sound_settle; [exact S1 | |].
    + unfold is_settled in *. now rewrite F1.
    + unfold DspInv.srec_ok. simpl. exists f, vs. repeat split; auto.
      * now apply (all_settled_grows G).
      * now rewrite (max_cost_grows G Ha).
  - destruct (popped_offer Hs P Pv F) as (_ & _ & Hd & Ha & _).
    apply (sound_invoke (set_queue q s) i f (Returned vs) s1);
      auto.
    apply sound_subqueue; [exact Hs | exact (rest_in P)].
Qed.

(** Every state of a run is sound. *)
Lemma sound_reach s : reach funs datas inputs requested s -> sound s.
Proof.
  apply reach_turns.
  - apply sound_init.
  - intros s0 s' _ Hs T. now apply sound_turn with s0.
Qed.

End Soundness.

(** *** Domain gating *)

Section Gating.

Variable funs : list fnode.
Variable datas : list dnode.
Variable inputs : raw_inputs.
Variable requested : list string.

Lemma eff_inputs_length f : 0 < List.length (eff_inputs f).
Proof. unfold eff_inputs. destruct (f_inputs f); simpl; lia. Qed.

Lemma gated_out_reach s :
  reach funs datas inputs requested s -> gated_out funs inputs s.
Proof.
  apply reach_turns.
  - intros i f Hf _ Hp. simpl in Hp. rewrite Hf in Hp. simpl in Hp.
    pose proof (eff_inputs_length f). lia.
  - intros s0 s' _ IH T.
    assert (St : forall d v c p s1,
               gated_out funs inputs s1 ->
               gated_out funs inputs (settle funs inputs d v c p s1)).
    { intros d v c p s1 H1 i f Hf Hd Hp.
      destruct (settle_frame funs inputs d v c p s1) as (_ & _ & _ & F4 & _).
      rewrite (F4 i f Hf) in *. specialize (H1 i f Hf Hd).
      unfold relaxed in *.
      destruct (existsb (node_eqb d) (eff_inputs f)); [| now apply H1].
      destruct (pend (fstates s1 i)) as [| [| n]]; simpl in *.
      - now apply H1.
      - destruct (disc (fstates s1 i)); [reflexivity |]. now rewrite Hd.
      - discriminate. }
    assert (Iv : forall i f s1 oc s2,
               invoke i f s1 = (oc, s2) ->
               gated_out funs inputs s1 -> gated_out funs inputs s2).
    { intros i f s1 oc s2 I H1 j g Hg Hd Hp.
      destruct (invoke_frame i f s1 oc s2 I) as (_ & _ & _ & F4 & F5 & _).
      destruct (invoke_grows I) as (_ & _ & _ & G4 & _).
      apply G4. apply (H1 j g Hg Hd).
      destruct (Nat.eq_dec j i) as [-> | Hne]; [now rewrite <- F5 |].
      now rewrite <- F4. }
    destruct T; auto.
    + now apply (Iv i f (set_queue q s0) (Raised err) s1).
    + apply St. now apply (Iv i f (set_queue q s0) (Returned vs) s1).
    + now apply (Iv i f (set_queue q s0) (Returned vs) s1).
Qed.

End Gating.

(** *** Lazy invocation *)

Section Laziness.

Variable funs : list fnode.
Variable datas : list dnode.
Variable inputs : raw_inputs.
Variable requested : list string.

Lemma pick_some o outs : forall vs,
  In o outs -> List.length vs = List.length outs ->
  exists v, pick o outs vs = Some v.
Proof.
  induction outs as [| x outs IH]; intros vs Hin Hl; [destruct Hin |].
  destruct vs as [| v vs]; [discriminate |]. simpl.
  destruct (node_eqb o x) eqn:E; [now exists v |].
  apply IH; [| simpl in Hl; lia].
  destruct Hin as [-> | Hin]; [| exact Hin]. now rewrite node_eqb_refl in E.
Qed.

(** A value returned by an invocation always has a slot for the output
    that was popped. *)
Lemma invoke_returns_enough s i f vs s1 o :
  sound funs datas inputs s -> nth_error funs i = Some f ->
  invoke i f s = (Returned vs, s1) -> In o (f_outputs f) ->
  exists v, pick o (f_outputs f) vs = Some v.
Proof.
  intros Hs Hf I Ho. apply pick_some; [exact Ho |].
  destruct (invoke_frame i f s (Returned vs) s1 I) as (_ & _ & _ & _ & _ & _ & F7).
  destruct F7 as [[E _] | [_ (args & _ & C & _)]].
  - destruct (sd_res Hs i _ E) as (g & Hg & _ & _ & L & _).
    assert (g = f) by congruence. now subst.
  - now apply call_length with args.
Qed.

Lemma calls_settled i d v p t : calls i (Settled d v p :: t) = calls i t.
Proof. reflexivity. Qed.

Lemma invoke_lazy {i f s oc s1} :
  invoke i f s = (oc, s1) ->
  (forall j, calls j (trace s) = match res (fstates s j) with Some _ => 1 | None => 0 end) ->
  (forall j, calls j (trace s1) = match res (fstates s1 j) with Some _ => 1 | None => 0 end)
  /\ (trace s1 = trace s
      \/ (exists err, oc = Raised err /\ trace s1 = Failed i err :: trace s)
      \/ (exists args vs, oc = Returned vs /\ trace s1 = Invoked i args vs :: trace s)).
Proof.
  intros I H.
  destruct (invoke_frame i f s oc s1 I) as (_ & _ & _ & F4 & _ & F6 & F7).
  destruct F7 as [[_ ->] | [N F7]]; [split; [exact H | now left] |].
  assert (K : forall ev, trace s1 = ev :: trace s ->
                         (forall j, calls j [ev] = if Nat.eqb j i then 1 else 0) ->
                         forall j, calls j (trace s1)
                                   = match res (fstates s1 j) with Some _ => 1 | None => 0 end).
  { intros ev T Hev j. rewrite T. unfold calls in *. simpl.
    specialize (Hev j). simpl in Hev. specialize (H j).
    destruct (Nat.eqb_spec j i) as [-> | Hne].
    - rewrite F6. rewrite N in H.
      destruct (match ev with
                | Settled _ _ _ => false
                | Invoked j _ _ | Failed j _ => Nat.eqb j i
                end); simpl in *; lia.
    - rewrite (F4 j Hne).
      destruct (match ev with
                | Settled _ _ _ => false
                | Invoked j0 _ _ | Failed j0 _ => Nat.eqb j0 j
                end); simpl in *; [lia | exact H]. }
  destruct oc as [vs | err].
  - destruct F7 as (args & _ & _ & T & _). split.
    + apply (K _ T). intro j. unfold calls. simpl. rewrite Nat.eqb_sym.
      now destruct (Nat.eqb j i).
    + right. right. now exists args, vs.
  - destruct F7 as (T & _). split.
    + apply (K _ T). intro j. unfold calls. simpl. rewrite Nat.eqb_sym.
      now destruct (Nat.eqb j i).
    + right. left. now exists err.
Qed.

Lemma lazy_run_reach s :
  reach funs datas inputs requested s -> lazy_run funs s.
Proof.
  apply reach_turns.
  - split; [constructor | intro i; simpl; now destruct (nth_error funs i)].
  - intros s0 s' Re [L C] T.
    pose proof (sound_reach funs datas inputs requested s0 Re) as Hs.
    assert (St : forall d v c p s1,
               trace (settle funs inputs d v c p s1) = Settled d v p :: trace s1
               /\ forall j, res (fstates (settle funs inputs d v c p s1) j)
                            = res (fstates s1 j)).
    { intros d v c p s1. split; [| intro j; apply settle_res].
      now destruct (settle_frame funs inputs d v c p s1) as (_ & F2 & _). }
    destruct T as [Q Fl | e q P S | e q P S V N | e q v P S V
                   | e q i f err s1 P S V Pv F I
                   | e q i f vs s1 v P S V Pv F I K
                   | e q i f vs s1 P S V Pv F I K].
    + split; assumption.
    + split; assumption.
    + split; assumption.
    + destruct (St (e_node e) v (e_cost e) (e_prov e) (set_queue q s0)) as [T R].
      split.
      * rewrite T. now constructor.
      * intro j. rewrite T, R. apply C.
    + destruct (invoke_lazy I C) as [C1 [T | [(err' & _ & T) | (args & vs & E & _)]]].
      * split; [now rewrite T | exact C1].
      * split; [rewrite T; now constructor | exact C1].
      * discriminate.
    + destruct (popped_offer _ _ _ Hs P Pv F) as (Ho & _).
      destruct (St (e_node e) v (e_cost e) (FromFun i) s1) as [T R].
      destruct (invoke_lazy I C) as [C1 [T1 | [(err' & E & _) | (args & vs' & E & T1)]]].
      * split.
        -- rewrite T, T1. now constructor.
        -- intro j. rewrite T, R. apply C1.
      * discriminate.
      * injection E as <-. split.
        -- rewrite T, T1. now apply lazy_invoked with f.
        -- intro j. rewrite T, R. apply C1.
    + exfalso. destruct (popped_offer _ _ _ Hs P Pv F) as (Ho & _).
      assert (Sq : sound funs datas inputs (set_queue q s0))
        by (apply sound_subqueue; [exact Hs | exact (rest_in P)]).
      destruct (invoke_returns_enough (set_queue q s0) i f vs s1 (e_node e) Sq F I Ho)
        as (v & Hv).
      congruence.
Qed.

(** An invocation is recorded only by the turn that pops an offer of the
    function for an output not yet settled. *)
Lemma invocation_turn s s' i :
  reach funs datas inputs requested s ->
  step funs datas inputs requested s = Some s' ->
  calls i (trace s') <> calls i (trace s) ->
  exists e q f,
    pop_min (queue s) = Some (e, q) /\ e_prov e = FromFun i
    /\ nth_error funs i = Some f /\ In (e_node e) (f_outputs f)
    /\ is_settled (e_node e) s = false.
Proof.
  intros Re St Hc.
  pose proof (sound_reach funs datas inputs requested s Re) as Hs.
  destruct (lazy_run_reach s Re) as [_ C].
  assert (Tr : forall d v c p s1,
             trace (settle funs inputs d v c p s1) = Settled d v p :: trace s1).
  { intros d v c p s1.
    now destruct (settle_frame funs inputs d v c p s1) as (_ & F2 & _). }
  assert (Iv : forall j f s1 oc s2,
             invoke j f s1 = (oc, s2) ->
             calls i (trace s2) <> calls i (trace s1) -> j = i).
  { intros j f s1 oc s2 I Hne.
    destruct (invoke_frame j f s1 oc s2 I) as (_ & _ & _ & _ & _ & _ & F7).
    destruct F7 as [[_ ->] | [_ F7]]; [congruence |].
    destruct (Nat.eq_dec j i) as [E | E]; [exact E | exfalso].
    apply Nat.eqb_neq in E. apply Hne.
    destruct oc as [vs | err].
    - destruct F7 as (args & _ & _ & T & _). rewrite T. unfold calls. simpl.
      now rewrite E.
    - destruct F7 as (T & _). rewrite T. unfold calls. simpl. now rewrite E. }
  apply step_turn in St.
  destruct St as [Q Fl | e q P S | e q P S V N | e q v P S V
                 | e q j f err s1 P S V Pv F I
                 | e q j f vs s1 v P S V Pv F I K
                 | e q j f vs s1 P S V Pv F I K];
    try (exfalso; apply Hc; reflexivity).
  - exfalso. apply Hc. now rewrite Tr.
  - assert (j = i) by (apply (Iv j f _ _ _ I); exact Hc). subst j.
    destruct (popped_offer _ _ _ Hs P Pv F) as (Ho & _).
    exists e, q, f. auto.
  - rewrite Tr, calls_settled in Hc.
    assert (j = i) by (apply (Iv j f _ _ _ I); exact Hc). subst j.
    destruct (popped_offer _ _ _ Hs P Pv F) as (Ho & _).
    exists e, q, f. auto.
  - assert (j = i) by (apply (Iv j f _ _ _ I); exact Hc). subst j.
    destruct (popped_offer _ _ _ Hs P Pv F) as (Ho & _).
    exists e, q, f. auto.
Qed.

Lemma calls_rev i t : calls i (rev t) = calls i t.
Proof.
  unfold calls. induction t as [| ev t IH]; [reflexivity |].
  simpl. rewrite filter_app, length_app, IH. simpl.
  destruct (match ev with
            | Settled _ _ _ => false
            | Invoked j _ _ | Failed j _ => Nat.eqb j i
            end); simpl; lia.
Qed.

(** In a lazy trace the event just after an invocation (just before it in
    the newest-first list) settles an output of the function through it. *)
Lemma lazy_trace_next t :
  lazy_trace funs t ->
  forall a b i args vs,
    t = a ++ Invoked i args vs :: b ->
    exists a' f o v,
      a = a' ++ [Settled o v (FromFun i)]
      /\ nth_error funs i = Some f /\ In o (f_outputs f).
Proof.
  induction 1 as [| d v p t L IH | j err t L IH | j f args0 vs0 o v t Hf Ho L IH];
    intros a b i args vs E.
  - destruct a; discriminate.
  - destruct a as [| x a]; [discriminate |]. injection E as <- E.
    destruct (IH a b i args vs E) as (a' & f & o & v' & -> & H).
    exists (Settled d v p :: a'), f, o, v'. now split.
  - destruct a as [| x a]; [discriminate |]. injection E as <- E.
    destruct (IH a b i args vs E) as (a' & f & o & v' & -> & H).
    exists (Failed j err :: a'), f, o, v'. now split.
  - destruct a as [| x [| y a]]; [discriminate | |].
    + injection E as <- <- <- <- <-. exists [], f, o, v. now split.
    + injection E as <- <- E.
      destruct (IH a b i args vs E) as (a' & g & o' & v' & -> & H).
      exists (Settled o v (FromFun j) :: Invoked j args0 vs0 :: a'), g, o', v'.
      now split.
Qed.

End Laziness.

(** *** Nothing settleable is lost *)

Section Liveness.

Variable funs : list fnode.
Variable datas : list dnode.
Variable inputs : raw_inputs.
Variable requested : list string.

Local Abbreviation sound := (sound funs datas inputs).
Local Abbreviation turn := (turn funs datas inputs).
Local Abbreviation settle := (settle funs inputs).

Lemma set_queue_grows q s : grows s (set_queue q s).
Proof. unfold grows. simpl. auto. Qed.

Lemma turn_grows s s' : turn s s' -> grows s s'.
Proof.
  intro T.
  destruct T as [Q Fl | e q P S | e q P S V N | e q v P S V
                 | e q i f err s1 P S V Pv F I
                 | e q i f vs s1 v P S V Pv F I K
                 | e q i f vs s1 P S V Pv F I K].
  - unfold grows. simpl. auto.
  - apply set_queue_grows.
  - apply set_queue_grows.
  - apply grows_trans with (set_queue q s); [apply set_queue_grows |].
    now apply settle_grows.
  - apply grows_trans with (set_queue q s); [apply set_queue_grows |].
    exact (invoke_grows I).
  - apply grows_trans with (set_queue q s); [apply set_queue_grows |].
    apply grows_trans with s1; [exact (invoke_grows I) |].
    apply settle_grows.
    destruct (invoke_frame i f _ _ _ I) as (F1 & _).
    unfold is_settled in *. now rewrite F1.
  - apply grows_trans with (set_queue q s); [apply set_queue_grows |].
    exact (invoke_grows I).
Qed.

Lemma settle_queue_keeps d v c p s x :
  In x (queue s) -> In x (queue (settle d v c p s)).
Proof.
  intro H. destruct (settle_frame funs inputs d v c p s) as (_ & _ & _ & _ & _ & F6).
  apply F6. now left.
Qed.

Lemma settle_settles d v c p s : is_settled d (settle d v c p s) = true.
Proof.
  destruct (settle_frame funs inputs d v c p s) as (F1 & _).
  unfold is_settled. rewrite F1, find_settled_cons. now rewrite node_eqb_refl.
Qed.

(** Whatever was queued is still queued after the turn, but for the
    popped entry. *)
Lemma turn_keeps_queue s s' :
  turn s s' ->
  forall x, In x (queue s) ->
            In x (queue s') \/ exists q, pop_min (queue s) = Some (x, q).
Proof.
  intros T x Hx.
  assert (Pop : forall e q, pop_min (queue s) = Some (e, q) ->
                            In x q \/ exists q', pop_min (queue s) = Some (x, q')).
  { intros e q P. apply (pop_min_in _ _ _ P) in Hx.
    destruct Hx as [-> | Hx]; [right; now exists q | now left]. }
  destruct T as [Q Fl | e q P S | e q P S V N | e q v P S V
                 | e q i f err s1 P S V Pv F I
                 | e q i f vs s1 v P S V Pv F I K
                 | e q i f vs s1 P S V Pv F I K].
  - left. unfold flush. simpl. apply in_or_app. now left.
  - destruct (Pop e q P) as [H | H]; [now left | now right].
  - destruct (Pop e q P) as [H | H]; [now left | now right].
  - destruct (Pop e q P) as [H | H]; [left | now right].
    now apply settle_queue_keeps.
  - destruct (Pop e q P) as [H | H]; [left | now right].
    destruct (invoke_frame i f _ _ _ I) as (_ & F2 & _). now rewrite F2.
  - destruct (Pop e q P) as [H | H]; [left | now right].
    apply settle_queue_keeps.
    destruct (invoke_frame i f _ _ _ I) as (_ & F2 & _). now rewrite F2.
  - destruct (Pop e q P) as [H | H]; [left | now right].
    destruct (invoke_frame i f _ _ _ I) as (_ & F2 & _). now rewrite F2.
Qed.

(** The popped entry is settled by the turn, unless it is the offer of a
    function whose invocation raised. *)
Lemma turn_popped s s' e q :
  sound s -> turn s s' -> pop_min (queue s) = Some (e, q) ->
  is_settled (e_node e) s' = true
  \/ (e_val e = None
      /\ exists i err, e_prov e = FromFun i
                       /\ res (fstates s' i) = Some (Raised err)).
Proof.
  intros Hs T P0.
  pose proof (sd_queue Hs e (popped_in P0)) as Ok.
  destruct T as [Q Fl | e' q' P S | e' q' P S V N | e' q' v P S V
                 | e' q' i f err s1 P S V Pv F I
                 | e' q' i f vs s1 v P S V Pv F I K
                 | e' q' i f vs s1 P S V Pv F I K];
    try (assert (e' = e) by congruence; subst e').
  - rewrite Q in P0. discriminate.
  - now left.
  - exfalso. unfold entry_ok in Ok. destruct (e_prov e) as [| | | i] eqn:Pv.
    + destruct Ok as (v & Hv & _). congruence.
    + destruct Ok as (v & Hv & _). congruence.
    + destruct Ok as (v & Hv & _). congruence.
    + destruct Ok as (_ & f & Hf & _). specialize (N i eq_refl). congruence.
  - left. apply settle_settles.
  - right. split; [exact V |]. exists i, err. split; [exact Pv |].
    now destruct (invoke_frame i f _ _ _ I) as (_ & _ & _ & _ & _ & F6 & _).
  - left. apply settle_settles.
  - exfalso. destruct (popped_offer _ _ _ Hs P Pv F) as (Ho & _).
    assert (Sq : sound (set_queue q' s))
      by (apply sound_subqueue; [exact Hs | exact (rest_in P)]).
    destruct (invoke_returns_enough _ _ _ (set_queue q' s) i f vs s1 (e_node e) Sq F I Ho)
      as (v & Hv).
    congruence.
Qed.

Lemma settle_ready s1 d v c p i f :
  sound s1 -> nth_error funs i = Some f ->
  pend (fstates (settle d v c p s1) i) = 0 ->
  domain_ok inputs f = true -> reliable f ->
  pend (fstates s1 i) = 0
  \/ forall o, In o (f_outputs f) -> o <> SINK -> offered (settle d v c p s1) i o.
Proof.
  intros Hs Hf Hp Hd Hr.
  destruct (settle_frame funs inputs d v c p s1) as (F1 & _ & _ & F4 & _ & F6).
  rewrite (F4 i f Hf), relaxed_pend in Hp.
  destruct (existsb (node_eqb d) (eff_inputs f)) eqn:Hc; [| now left].
  destruct (pend (fstates s1 i)) as [| [| n]] eqn:Pn; [now left | | discriminate].
  right. intros o Ho Hk.
  assert (Dc : disc (fstates s1 i) = false).
  { destruct (disc (fstates s1 i)) eqn:Dc; [| reflexivity]. exfalso.
    destruct (sd_disc Hs i Dc) as (g & Hg & [Hdg | (err & Hres)]).
    - congruence.
    - destruct (sd_res Hs i _ Hres) as (g' & Hg' & _ & _ & _ & _ & Hnr).
      apply Hnr. congruence. }
  assert (Fi : fires inputs d f (fstates s1 i) = true).
  { unfold fires. now rewrite Hc, Pn, Dc, Hd. }
  set (s0 := noted d v c p s1) in *.
  set (c' := (weight f + max_cost s0 (eff_inputs f))%N).
  destruct (wanted s0 c' o) eqn:W.
  - right. exists (mkEntry c' o (FromFun i) None). repeat split.
    apply F6. right. exists i, f. repeat split; auto.
    unfold offer, candidates. apply in_map_iff. exists o. split; [reflexivity |].
    apply filter_In. now split.
  - left. unfold wanted in W. apply is_settled_true. rewrite F1.
    change ((d, mkSrec v c p) :: settled s1) with (settled s0).
    destruct o; try congruence;
      (destruct (find_settled _ (settled s0)) as [r |]; [now exists r | discriminate]).
Qed.

Lemma turn_ready s s' i f :
  sound s -> turn s s' -> nth_error funs i = Some f ->
  pend (fstates s' i) = 0 -> domain_ok inputs f = true -> reliable f ->
  pend (fstates s i) = 0
  \/ forall o, In o (f_outputs f) -> o <> SINK -> offered s' i o.
Proof.
  intros Hs T Hf Hp Hd Hr.
  assert (Iv : forall j g s1 oc s2, invoke j g s1 = (oc, s2) ->
                                    pend (fstates s2 i) = pend (fstates s1 i)).
  { intros j g s1 oc s2 I.
    destruct (invoke_frame j g s1 oc s2 I) as (_ & _ & _ & F4 & F5 & _).
    destruct (Nat.eq_dec i j) as [-> | Hne]; [exact F5 | now rewrite F4]. }
  destruct T as [Q Fl | e q P S | e q P S V N | e q v P S V
                 | e q j g err s1 P S V Pv F I
                 | e q j g vs s1 v P S V Pv F I K
                 | e q j g vs s1 P S V Pv F I K];
    try (left; exact Hp).
  - apply (settle_ready (set_queue q s)); auto.
    apply sound_subqueue; [exact Hs | exact (rest_in P)].
  - left. pose proof (Iv j g _ _ _ I) as E. simpl in E. congruence.
  - destruct (popped_offer _ _ _ Hs P Pv F) as (_ & _ & Hdg & Ha & _).
    assert (S1 : sound s1).
    { apply (sound_invoke funs datas inputs (set_queue q s) j g (Returned vs) s1); auto.
      apply sound_subqueue; [exact Hs | exact (rest_in P)]. }
    destruct (settle_ready s1 (e_node e) v (e_cost e) (FromFun j) i f S1 Hf Hp Hd Hr)
      as [H | H]; [left | now right].
    pose proof (Iv j g _ _ _ I) as E. simpl in E. congruence.
  - left. pose proof (Iv j g _ _ _ I) as E. simpl in E. congruence.
Qed.

Lemma turn_flushed s s' :
  turn s s' -> flushed s' = flushed s \/ s' = flush datas inputs s.
Proof.
  intro T.
  assert (St : forall d v c p s1, flushed (settle d v c p s1) = flushed s1).
  { intros d v c p s1.
    now destruct (settle_frame funs inputs d v c p s1) as (_ & _ & F3 & _). }
  assert (Iv : forall j g s1 oc s2, invoke j g s1 = (oc, s2) ->
                                    flushed s2 = flushed s1).
  { intros j g s1 oc s2 I.
    now destruct (invoke_frame j g s1 oc s2 I) as (_ & _ & F3 & _). }
  destruct T as [Q Fl | e q P S | e q P S V N | e q v P S V
                 | e q j g err s1 P S V Pv F I
                 | e q j g vs s1 v P S V Pv F I K
                 | e q j g vs s1 P S V Pv F I K];
    try (left; reflexivity).
  - now right.
  - left. now rewrite St.
  - left. now rewrite (Iv j g _ _ _ I).
  - left. now rewrite St, (Iv j g _ _ _ I).
  - left. now rewrite (Iv j g _ _ _ I).
Qed.

Lemma awaited_turn s s' d :
  sound s -> turn s s' -> awaited s d -> awaited s' d.
Proof.
  intros Hs T [H | (e & He & Hn & Hv)].
  - left. apply is_settled_true in H. destruct H as (r & H).
    apply is_settled_true. exists r. now apply (turn_grows s s' T).
  - destruct (turn_keeps_queue s s' T e He) as [H | (q & P)].
    + right. now exists e.
    + left. destruct (turn_popped s s' e q Hs T P) as [H | (V & _)];
        [congruence | contradiction].
Qed.

Lemma offered_turn s s' i f o :
  sound s -> sound s' -> turn s s' ->
  nth_error funs i = Some f -> reliable f ->
  offered s i o -> offered s' i o.
Proof.
  intros Hs Hs' T Hf Hr [H | (e & He & Hn & Hp)].
  - left. apply is_settled_true in H. destruct H as (r & H).
    apply is_settled_true. exists r. now apply (turn_grows s s' T).
  - destruct (turn_keeps_queue s s' T e He) as [H | (q & P)].
    + right. now exists e.
    + left. destruct (turn_popped s s' e q Hs T P) as [H | (_ & j & err & Pj & Hres)];
        [congruence | exfalso].
      assert (j = i) by congruence. subst j.
      destruct (sd_res Hs' i _ Hres) as (g & Hg & _ & _ & _ & _ & Hnr).
      apply Hnr. congruence.
Qed.

Lemma live_init : live funs datas inputs (init funs inputs).
Proof.
  constructor.
  - right. exists (mkEntry 0 START FromStart (Some PNone)). simpl.
    repeat split; [now left | discriminate].
  - intros k v Hin. right. exists (mkEntry 0 (Data k) FromInput (Some v)). simpl.
    repeat split; [| discriminate]. right.
    apply in_map_iff. now exists (k, v).
  - discriminate.
  - intros i f Hf Hp. simpl in Hp. rewrite Hf in Hp. simpl in Hp.
    pose proof (eff_inputs_length f). lia.
Qed.

Lemma live_turn s s' :
  sound s -> sound s' -> turn s s' ->
  live funs datas inputs s -> live funs datas inputs s'.
Proof.
  intros Hs Hs' T [L1 L2 L3 L4]. constructor.
  - now apply (awaited_turn s s').
  - intros k v Hin. apply (awaited_turn s s'); auto. now apply L2 with v.
  - intros Fl dn v Hdn Hv.
    destruct (turn_flushed s s' T) as [E | ->].
    + rewrite E in Fl. destruct (L3 Fl dn v Hdn Hv) as [H | H]; [now left | right].
      now apply (awaited_turn s s').
    + destruct (is_input inputs (data_id dn)) eqn:Ii; [now left | right].
      destruct (is_settled (Data (data_id dn)) s) eqn:Se; [now left |].
      right. exists (mkEntry 0 (Data (data_id dn)) FromDefault (Some v)).
      repeat split; [| discriminate].
      unfold flush. simpl. apply in_or_app. right.
      unfold default_entries. apply in_flat_map. exists dn. split; [exact Hdn |].
      rewrite Hv, Ii, Se. simpl. now left.
  - intros i f Hf Hp Hd Hr o Ho Hk.
    destruct (turn_ready s s' i f Hs T Hf Hp Hd Hr) as [H | H].
    + apply (offered_turn s s' i f o); auto. now apply L4 with f.
    + now apply H.
Qed.

Lemma live_reach s :
  reach funs datas inputs requested s -> live funs datas inputs s.
Proof.
  intro Re. induction Re as [| s s' Re IH St].
  - apply live_init.
  - apply (live_turn s s'); auto.
    + now apply sound_reach with requested.
    + apply sound_reach with requested. now apply reach_step with s.
    + now apply step_turn with requested.
Qed.

Lemma counted_ge (st : list (node * srec)) f :
  NoDup (eff_inputs f) ->
  (forall x, In x (eff_inputs f) -> find_settled x st <> None) ->
  List.length (eff_inputs f) <= count_in st f.
Proof.
  intros N H. unfold count_in.
  rewrite <- (length_map fst (filter _ st)).
  apply NoDup_incl_length; [exact N |].
  intros x Hx. specialize (H x Hx).
  destruct (find_settled x st) as [r |] eqn:E; [| congruence].
  apply find_settled_in in E. apply in_map_iff. exists (x, r).
  split; [reflexivity |]. apply filter_In. split; [exact E |].
  simpl. apply existsb_exists. exists x. split; [exact Hx | apply node_eqb_refl].
Qed.

(** Once the queue is exhausted and the defaults were offered, everything
    settleable is settled. *)
Lemma settleable_settled s :
  sound s -> live funs datas inputs s ->
  queue s = [] -> flushed s = true ->
  forall d, settleable funs datas inputs d -> is_settled d s = true.
Proof.
  intros Hs [L1 L2 L3 L4] Q Fl.
  assert (Aw : forall d, awaited s d -> is_settled d s = true).
  { intros d [H | (e & He & _)]; [exact H |]. rewrite Q in He. destruct He. }
  induction 1 as [| k v Hin | dn v Hdn Hv | i f o Hf Ho Hk (Hd & Hr & Hn) Hall IH].
  - now apply Aw.
  - apply Aw. now apply L2 with v.
  - destruct (L3 Fl dn v Hdn Hv) as [H | H]; [| now apply Aw].
    unfold is_input in H. apply existsb_exists in H.
    destruct H as ([k v'] & Hin & E). simpl in E. apply String.eqb_eq in E. subst k.
    apply Aw. now apply L2 with v'.
  - assert (Hp : pend (fstates s i) = 0).
    { rewrite (sd_pend Hs i f Hf).
      assert (List.length (eff_inputs f) <= count_in (settled s) f); [| lia].
      apply counted_ge; [exact Hn |].
      intros x Hx E. specialize (IH x Hx). apply is_settled_false in E. congruence. }
    destruct (L4 i f Hf Hp Hd Hr o Ho Hk) as [H | (e & He & _)]; [exact H |].
    rewrite Q in He. destruct He.
Qed.

End Liveness.

(** *** Costs *)

Section Costs.

Variable funs : list fnode.
Variable datas : list dnode.
Variable inputs : raw_inputs.
Variable requested : list string.

Hypothesis no_defaults : defaults_unused datas inputs.

Local Abbreviation sound := (sound funs datas inputs).
Local Abbreviation turn := (turn funs datas inputs).
Local Abbreviation settle := (settle funs inputs).

Lemma default_entries_none s : default_entries datas inputs s = [].
Proof.
  unfold default_entries.
  assert (G : forall l, (forall dn, In dn l -> In dn datas) ->
                        flat_map (fun d =>
                          match default_value d with
                          | Some v =>
                              if is_input inputs (data_id d) || is_settled (Data (data_id d)) s
                              then []
                              else [mkEntry 0 (Data (data_id d)) FromDefault (Some v)]
                          | None => []
                          end) l = []).
  { induction l as [| dn l IH]; intro H; [reflexivity |]. simpl.
    rewrite IH by (intros x Hx; apply H; now right).
    destruct (default_value dn) as [v |] eqn:Dv; [| reflexivity].
    rewrite (no_defaults dn v (H dn (or_introl eq_refl)) Dv). reflexivity. }
  apply G. auto.
Qed.

Lemma cost_le_max s d l : In d l -> (cost_of s d <= max_cost s l)%N.
Proof.
  induction l as [| x l IH]; [intros [] |]. intros [-> | H]; simpl.
  - lia.
  - specialize (IH H). lia.
Qed.

Lemma settle_cost d v c p s : cost_of (settle d v c p s) d = c.
Proof.
  destruct (settle_frame funs inputs d v c p s) as (F1 & _).
  unfold cost_of. rewrite F1, find_settled_cons. now rewrite node_eqb_refl.
Qed.

Lemma existsb_node_in d l : existsb (node_eqb d) l = true -> In d l.
Proof.
  intro H. apply existsb_exists in H. destruct H as (x & Hx & E).
  apply node_eqb_eq in E. now subst.
Qed.

(** Settling the popped cost keeps the order. *)
Lemma ordered_settle s1 d v c p :
  (forall e, In e (queue s1) -> (c <= e_cost e)%N) ->
  (forall x r, In (x, r) (settled s1) -> (s_cost r <= c)%N) ->
  ordered s1 -> ordered (settle d v c p s1).
Proof.
  intros Hq Hr Ho e x r He Hx.
  destruct (settle_frame funs inputs d v c p s1) as (F1 & _ & _ & _ & _ & F6).
  assert (Hc : (s_cost r <= c)%N).
  { rewrite F1 in Hx. destruct Hx as [E | Hx]; [| now apply (Hr x r)].
    injection E as <- <-. simpl. lia. }
  apply F6 in He. destruct He as [He | (j & g & Hg & Hf & He)].
  - specialize (Hq e He). lia.
  - apply fires_true in Hf. destruct Hf as (Hcons & _).
    apply in_offer in He. destruct He as (_ & _ & E3 & _).
    rewrite E3.
    assert ((c <= max_cost (noted d v c p s1) (eff_inputs g))%N); [| lia].
    apply existsb_node_in in Hcons.
    pose proof (cost_le_max (noted d v c p s1) d (eff_inputs g) Hcons) as M.
    unfold cost_of in M at 1. simpl in M. rewrite find_settled_cons, node_eqb_refl in M.
    exact M.
Qed.

Lemma popped_least s e q x :
  pop_min (queue s) = Some (e, q) -> In x (queue s) -> (e_cost e <= e_cost x)%N.
Proof.
  intros P Hx. apply entry_ltb_cost. now apply (pop_min_least _ _ _ P).
Qed.

Lemma ordered_turn s s' : ordered s -> turn s s' -> ordered s'.
Proof.
  intros Ho T.
  assert (Sub : forall q, (forall x, In x q -> In x (queue s)) ->
                          ordered (set_queue q s)).
  { intros q Hq e d r He Hd. apply (Ho e d r); [now apply Hq | exact Hd]. }
  assert (Iv : forall i f s0 oc s1, invoke i f s0 = (oc, s1) ->
                                    ordered s0 -> ordered s1).
  { intros i f s0 oc s1 I H0 e d r He Hd.
    destruct (invoke_frame i f s0 oc s1 I) as (F1 & F2 & _).
    rewrite F2 in He. rewrite F1 in Hd. now apply (H0 e d r). }
  destruct T as [Q Fl | e q P S | e q P S V N | e q v P S V
                 | e q i f err s1 P S V Pv F I
                 | e q i f vs s1 v P S V Pv F I K
                 | e q i f vs s1 P S V Pv F I K].
  - intros e d r He Hd. unfold flush in He. simpl in He.
    rewrite default_entries_none, app_nil_r in He. now apply (Ho e d r).
  - apply Sub. exact (rest_in P).
  - apply Sub. exact (rest_in P).
  - apply ordered_settle.
    + intros x Hx. apply (popped_least s e q x P). exact (rest_in P x Hx).
    + intros x r Hx. apply (Ho e x r); [exact (popped_in P) | exact Hx].
    + apply Sub. exact (rest_in P).
  - apply (Iv i f _ _ _ I). apply Sub. exact (rest_in P).
  - destruct (invoke_frame i f _ _ _ I) as (F1 & F2 & _).
    apply ordered_settle.
    + intros x Hx. rewrite F2 in Hx. apply (popped_least s e q x P).
      exact (rest_in P x Hx).
    + intros x r Hx. rewrite F1 in Hx.
      apply (Ho e x r); [exact (popped_in P) | exact Hx].
    + apply (Iv i f _ _ _ I). apply Sub. exact (rest_in P).
  - apply (Iv i f _ _ _ I). apply Sub. exact (rest_in P).
Qed.

Lemma ordered_reach s : reach funs datas inputs requested s -> ordered s.
Proof.
  apply reach_turns.
  - intros e d r _ [].
  - intros s0 s' _ Ho T. now apply ordered_turn with s0.
Qed.

Lemma entry_not_sink s e : entry_ok funs datas inputs s e -> e_node e <> SINK.
Proof.
  unfold entry_ok. destruct (e_prov e).
  - intros (v & _ & H & _). simpl in H. congruence.
  - intros (v & _ & (k & H & _) & _). congruence.
  - intros (v & _ & (dn & _ & _ & H & _) & _). congruence.
  - intros (_ & f & _ & _ & H & _). exact H.
Qed.

Lemma unbeaten_same_settled s s' :
  settled s' = settled s -> unbeaten funs inputs s -> unbeaten funs inputs s'.
Proof.
  intros E H o r i f Hin Hf Ho He Ha.
  assert (Ha' : all_settled s (eff_inputs f)).
  { intros x Hx. specialize (Ha x Hx). unfold is_settled in *. now rewrite <- E. }
  rewrite E in Hin. specialize (H o r i f Hin Hf Ho He Ha').
  rewrite (max_cost_same s s' (eff_inputs f)); [exact H |].
  intros x _. now rewrite E.
Qed.

(** Settling the popped entry leaves every settled cost unbeaten. *)
Lemma unbeaten_settle s s1 e q v p :
  sound s -> live funs datas inputs s -> ordered s -> unbeaten funs inputs s ->
  pop_min (queue s) = Some (e, q) -> is_settled (e_node e) s = false ->
  settled s1 = settled s ->
  unbeaten funs inputs (settle (e_node e) v (e_cost e) p s1).
Proof.
  intros Hs Hl Ho Hu P U E.
  set (d := e_node e) in *. set (c := e_cost e) in *.
  set (s' := settle d v c p s1).
  destruct (settle_frame funs inputs d v c p s1) as (F1 & _).
  fold s' in F1. rewrite E in F1.
  assert (Old : forall x r, In (x, r) (settled s) -> (s_cost r <= c)%N).
  { intros x r Hx. apply (Ho e x r); [exact (popped_in P) | exact Hx]. }
  assert (Any : forall x r, In (x, r) (settled s') -> (s_cost r <= c)%N).
  { intros x r Hx. rewrite F1 in Hx. destruct Hx as [Q | Hx]; [| now apply (Old x r)].
    injection Q as <- <-. simpl. lia. }
  intros o r i f Hin Hf Hout He Ha.
  destruct (existsb (node_eqb d) (eff_inputs f)) eqn:Hc.
  - apply existsb_node_in in Hc.
    pose proof (cost_le_max s' d (eff_inputs f) Hc) as M.
    unfold s' in M at 1. rewrite settle_cost in M.
    specialize (Any o r Hin). lia.
  - assert (Ne : forall x, In x (eff_inputs f) -> node_eqb x d = false).
    { intros x Hx. destruct (node_eqb x d) eqn:Q; [| reflexivity].
      apply node_eqb_eq in Q. subst x.
      assert (existsb (node_eqb d) (eff_inputs f) = true); [| congruence].
      apply existsb_exists. exists d. split; [exact Hx | apply node_eqb_refl]. }
    assert (Same : forall x, In x (eff_inputs f) ->
                             find_settled x (settled s') = find_settled x (settled s)).
    { intros x Hx. rewrite F1, find_settled_cons. now rewrite (Ne x Hx). }
    assert (Ha' : all_settled s (eff_inputs f)).
    { intros x Hx. specialize (Ha x Hx). unfold is_settled in *.
      now rewrite <- (Same x Hx). }
    rewrite (max_cost_same s s' (eff_inputs f) Same).
    rewrite F1 in Hin. destruct Hin as [Q | Hin].
    + injection Q as <- <-. simpl.
      assert (Hp : pend (fstates s i) = 0).
      { rewrite (sd_pend Hs i f Hf).
        assert (List.length (eff_inputs f) <= count_in (settled s) f); [| lia].
        apply counted_ge; [apply He |].
        intros x Hx Q. specialize (Ha' x Hx). apply is_settled_false in Q. congruence. }
      destruct He as (Hd & Hr & Hn).
      assert (Hk : d <> SINK)
        by (apply (entry_not_sink s e); exact (sd_queue Hs e (popped_in P))).
      destruct (lv_ready Hl i f Hf Hp Hd Hr d Hout Hk) as [H | (e0 & He0 & Hn0 & Hp0)].
      * exfalso. clear - U H. unfold d in *. congruence.
      * pose proof (sd_queue Hs e0 He0) as Ok. unfold entry_ok in Ok.
        rewrite Hp0 in Ok. destruct Ok as (_ & g & Hg & _ & _ & _ & _ & Hcost).
        assert (g = f) by congruence. subst g.
        rewrite <- Hcost. apply (popped_least s e q e0 P He0).
    + now apply (Hu o r i f).
Qed.

Lemma unbeaten_turn s s' :
  sound s -> live funs datas inputs s -> ordered s ->
  unbeaten funs inputs s -> turn s s' -> unbeaten funs inputs s'.
Proof.
  intros Hs Hl Ho Hu T.
  destruct T as [Q Fl | e q P S | e q P S V N | e q v P S V
                 | e q i f err s1 P S V Pv F I
                 | e q i f vs s1 v P S V Pv F I K
                 | e q i f vs s1 P S V Pv F I K].
  - now apply (unbeaten_same_settled s).
  - now apply (unbeaten_same_settled s).
  - now apply (unbeaten_same_settled s).
  - now apply (unbeaten_settle s (set_queue q s) e q).
  - apply (unbeaten_same_settled s); [| exact Hu].
    now destruct (invoke_frame i f _ _ _ I) as (F1 & _).
  - apply (unbeaten_settle s s1 e q); auto.
    now destruct (invoke_frame i f _ _ _ I) as (F1 & _).
  - apply (unbeaten_same_settled s); [| exact Hu].
    now destruct (invoke_frame i f _ _ _ I) as (F1 & _).
Qed.

Lemma unbeaten_reach s :
  reach funs datas inputs requested s -> unbeaten funs inputs s.
Proof.
  intro Re. induction Re as [| s s' Re IH St].
  - intros o r i f [].
  - apply (unbeaten_turn s s'); auto.
    + now apply sound_reach with requested.
    + now apply live_reach with requested.
    + now apply ordered_reach.
    + now apply step_turn with requested.
Qed.

End Costs.

(** *** The result of [dispatch] *)

Lemma find_settled_rev x st :
  NoDup (map fst st) -> find_settled x (rev st) = find_settled x st.
Proof.
  intro N.
  assert (N' : NoDup (map fst (rev st))) by (rewrite map_rev; now apply NoDup_rev).
  destruct (find_settled x st) as [r |] eqn:E.
  - apply in_find_settled; [exact N' |]. apply -> in_rev.
    now apply find_settled_in.
  - destruct (find_settled x (rev st)) as [r |] eqn:E'; [| reflexivity].
    apply find_settled_in in E'. apply in_rev in E'.
    apply find_settled_none in E. exfalso. apply E.
    apply in_map_iff. now exists (x, r).
Qed.

Lemma lookup_flat (k : string) (st : list (node * srec)) :
  lookup k (flat_map (fun p => match fst p with
                               | Data k' => [(k', s_val (snd p))]
                               | _ => []
                               end) st)
  = option_map s_val (find_settled (Data k) st).
Proof.
  induction st as [| [d r] st IH]; [reflexivity |].
  rewrite find_settled_cons. simpl.
  destruct d as [| | k']; simpl; try exact IH.
  unfold lookup in *. simpl.
  destruct (String.eqb k k'); [reflexivity | exact IH].
Qed.

(** [solution] holds exactly the settled data ids, with their values. *)
Lemma lookup_solution s k :
  NoDup (map fst (settled s)) ->
  lookup k (solution_of s) = option_map s_val (find_settled (Data k) (settled s)).
Proof.
  intro N. unfold solution_of. rewrite lookup_flat. now rewrite find_settled_rev.
Qed.

(** Every call of [dispatch] is a finished run of the resolver. *)
Lemma dispatch_run dsp inputs outputs :
  exists s,
    resolve (fun_nodes dsp) (data_nodes dsp) inputs outputs = Some s
    /\ dispatch dsp inputs outputs =
       ((rev (trace s), solution_of s),
        mkDsp (data_nodes dsp) (fun_nodes dsp) (rev (trace s)))
    /\ sound (fun_nodes dsp) (data_nodes dsp) inputs s
    /\ step (fun_nodes dsp) (data_nodes dsp) inputs outputs s = None
  /\ reach (fun_nodes dsp) (data_nodes dsp) inputs outputs s.
Proof.
  destruct (resolve_total (fun_nodes dsp) (data_nodes dsp) inputs outputs) as (s & R).
  exists s. split; [exact R |]. split.
  - unfold dispatch. now rewrite R.
  - destruct (resolve_reach _ _ _ _ s R) as [Re St].
    split; [now apply sound_reach with outputs | split; [exact St | exact Re]].
Qed.

End DspFacts.

(** ** The dispatcher: results, ownership, determinism *)

Module DispatchFacts.

Import Dsp DspInv DspFacts DspSamples.
Local Open Scope list_scope.

(** The examples of the specification (section 8) on the model. *)
Lemma spec_example_default :
  snd (fst (dispatch defaulted [] ["x"%string])) = [("x"%string, PInt 100)].
Proof. vm_compute. reflexivity. Qed.

Lemma spec_example_domain :
  lookup "out"%string
         (snd (fst (dispatch gated [("mode"%string, PStr "B"); ("a"%string, PInt 1)]
                             ["out"%string]))) = None.
Proof. vm_compute. reflexivity. Qed.

Lemma spec_example_weights :
  snd (fst (dispatch two_producers a3 ["b"%string]))
  = [("a"%string, PInt 3); ("b"%string, PInt 4)]
  /\ calls 1 (fst (fst (dispatch two_producers a3 ["b"%string]))) = 0.
Proof. vm_compute. split; reflexivity. Qed.







Lemma is_input_in inputs k v : In (k, v) inputs -> is_input inputs k = true.
Proof.
  intro H. unfold is_input. apply existsb_exists. exists (k, v).
  split; [exact H | apply String.eqb_refl].
Qed.

(** C5.  A function whose [input_domain] predicate returns false on the raw
    inputs of the call never appears in the workflow; it is discarded as
    soon as its inputs are all settled, and stays so; and each of its
    outputs that has no other source (no input, no default, no other
    producer) is absent from the solution. *)
Theorem domain_gating :
  forall dsp inputs outputs i f p,
    nth_error (fun_nodes dsp) i = Some f ->
    input_domain f = Some p ->
    p inputs = false ->
    (forall ev, In ev (fst (fst (dispatch dsp inputs outputs))) -> about i ev = false)
    /\ (forall k, In (Data k) (f_outputs f) ->
                  sole_source (fun_nodes dsp) (data_nodes dsp) inputs i k ->
                  lookup k (snd (fst (dispatch dsp inputs outputs))) = None)
    /\ (exists s, resolve (fun_nodes dsp) (data_nodes dsp) inputs outputs = Some s
                  /\ (pend (fstates s i) = 0 -> disc (fstates s i) = true)).
Proof.
  intros dsp inputs outputs i f p Hf Hp Hfalse.
  destruct (dispatch_run dsp inputs outputs) as (s & R & D & Hs & _ & Re).
  assert (Hd : domain_ok inputs f = false) by (unfold domain_ok; now rewrite Hp).
  assert (NoRec : forall d r, In (d, r) (settled s) -> s_prov r <> FromFun i).
  { intros d r Hin E. pose proof (sd_settled Hs d r Hin) as Ok.
    unfold srec_ok in Ok. rewrite E in Ok.
    destruct Ok as (g & vs & Hg & _ & _ & Hdg & _). congruence. }
  assert (NoRes : res (fstates s i) = None).
  { destruct (res (fstates s i)) as [oc |] eqn:E; [| reflexivity].
    destruct (sd_res Hs i oc E) as (g & Hg & Hdg & _). congruence. }
  rewrite D. simpl. repeat split.
  - intros ev Hev. apply in_rev in Hev. pose proof (sd_trace Hs ev Hev) as Ok.
    destruct ev as [d v pr | j args vs | j err]; simpl in *.
    + destruct pr as [| | | j]; try reflexivity.
      apply Nat.eqb_neq. intros ->. destruct Ok as (r & Hin & _ & E).
      now apply (NoRec d r Hin).
    + apply Nat.eqb_neq. intros ->. congruence.
    + apply Nat.eqb_neq. intros ->. congruence.
  - intros k Hk (S1 & S2 & S3). rewrite (lookup_solution s k (sd_once Hs)).
    destruct (find_settled (Data k) (settled s)) as [r |] eqn:E; [| reflexivity].
    exfalso. apply find_settled_in in E.
    pose proof (sd_settled Hs _ r E) as Ok. unfold srec_ok in Ok.
    destruct (s_prov r) as [| | | j] eqn:Pr.
    + destruct Ok as [Ok _]. discriminate.
    + destruct Ok as [(k' & Hk' & Hin) _]. injection Hk' as <-.
      apply is_input_in in Hin. congruence.
    + destruct Ok as [(dn & Hdn & Hv & Hk' & _) _]. injection Hk' as ->.
      specialize (S2 dn Hdn eq_refl). congruence.
    + destruct Ok as (g & vs & Hg & Ho & _).
      assert (j = i) by (apply (S3 j g Hg Ho)). subst j.
      now apply (NoRec _ r E).
  - exists s. split; [exact R |].
    apply (gated_out_reach _ _ _ _ s Re i f Hf Hd).
Qed.

Lemma domain_gating_witness :
  (forall ev, In ev (fst (fst (dispatch gated [("mode"%string, PStr "B"); ("a"%string, PInt 1)]
                                        ["out"%string]))) ->
              about 0 ev = false)
  /\ (forall k, In (Data k) [Data "out"] ->
                sole_source (fun_nodes gated) (data_nodes gated)
                            [("mode"%string, PStr "B"); ("a"%string, PInt 1)] 0 k ->
                lookup k (snd (fst (dispatch gated [("mode"%string, PStr "B");
                                                    ("a"%string, PInt 1)]
                                             ["out"%string]))) = None)
  /\ (exists s, resolve (fun_nodes gated) (data_nodes gated)
                        [("mode"%string, PStr "B"); ("a"%string, PInt 1)]
                        ["out"%string] = Some s
                /\ (pend (fstates s 0) = 0 -> disc (fstates s 0) = true)).
Proof.
  apply (domain_gating gated [("mode"%string, PStr "B"); ("a"%string, PInt 1)]
                       ["out"%string] 0
                       (mkFun "g" [Data "a"] [Data "out"] 0 (Some mode_is_A) (plus 1))
                       mode_is_A).
  - reflexivity.
  - reflexivity.
  - reflexivity.
Defined.


(** The cheaper producer of [b] raises: the run goes on, the failure is in
    the workflow, and [b] is settled by the other producer. *)
Lemma failed_producer_is_replaced :
  fst (dispatch cheap_fails a3 ["b"%string]) =
  ([Settled START PNone FromStart;
    Settled (Data "a") (PInt 3) FromInput;
    Failed 0 "boom";
    Invoked 1 [PInt 3] [PInt 5];
    Settled (Data "b") (PInt 5) (FromFun 1)],
   [("a"%string, PInt 3); ("b"%string, PInt 5)]).
Proof. vm_compute. reflexivity. Qed.



Lemma finished_run funs datas inputs requested s :
  step funs datas inputs requested s = None ->
  (forall k, In k requested -> is_settled (Data k) s = true)
  \/ (queue s = [] /\ flushed s = true).
Proof.
  unfold step. destruct (requested_done requested s) eqn:Rd.
  - intros _. left. unfold requested_done in Rd.
    destruct requested as [| k0 rest]; [discriminate |].
    intros k Hk. rewrite forallb_forall in Rd. now apply Rd.
  - destruct (pop_min (queue s)) as [[e q] |] eqn:P; [discriminate |].
    destruct (flushed s); [| discriminate].
    intros _. right. split; [now apply pop_min_none | reflexivity].
Qed.


Lemma gives_reliable n f :
  callable f = gives n -> List.length (f_outputs f) = n -> reliable f.
Proof.
  intros E L args. exists (repeat (PInt (Z.of_nat (List.length args))) n).
  rewrite E. split; [reflexivity |]. now rewrite repeat_length.
Qed.

(** Whatever the physical functions are, the statements of [engine()] are
    all accepted: the two full-load functions that feed each other, and the
    second registration of [calculate_full_load], under a new id. *)
Lemma engine_registers f1 f2 f3 f4 f5 f6 :
  exists dsp,
    EngineModel.engine f1 f2 f3 f4 f5 f6 = inr dsp
    /\ map fun_id (fun_nodes dsp) =
       ["get_full_load"; "calculate_full_load_powers"; "calculate_full_load_speeds";
        "calculate_full_load"; "calculate_full_load'";
        "calculate_engine_speeds_out_with_cold_start"; "bypass"]%string.
Proof. eexists. split; reflexivity. Qed.


(** In the workflow an invocation is followed at once by the settlement of
    an output of the function, through it. *)
Lemma workflow_next dsp inputs outputs s pre post i args vs :
  reach (fun_nodes dsp) (data_nodes dsp) inputs outputs s ->
  rev (trace s) = pre ++ Invoked i args vs :: post ->
  exists f o v post',
    nth_error (fun_nodes dsp) i = Some f /\ In o (f_outputs f)
    /\ post = Settled o v (FromFun i) :: post'.
Proof.
  intros Re E. destruct (lazy_run_reach _ _ _ _ s Re) as [L _].
  assert (E' : trace s = rev post ++ Invoked i args vs :: rev pre).
  { rewrite <- (rev_involutive (trace s)), E, rev_app_distr. simpl.
    now rewrite <- app_assoc. }
  destruct (lazy_trace_next _ _ L _ _ _ _ _ E') as (a' & f & o & v & Ea & Hf & Ho).
  exists f, o, v, (rev a'). repeat split; auto.
  rewrite <- (rev_involutive post), Ea, rev_app_distr. reflexivity.
Qed.




(** In the cycle model the NEDC and the WLTP sub-models are never both
    eligible in a run: their function nodes carry [is_nedc] and [is_wltp]. *)
Lemma cycle_branches_exclusive nedc_cycle wltp_cycle dsp inputs :
  CycleModel.cycle nedc_cycle wltp_cycle = inr dsp ->
  exists f_nedc f_wltp,
    fun_nodes dsp = [f_nedc; f_wltp]
    /\ input_domain f_nedc = Some Cycle.is_nedc
    /\ input_domain f_wltp = Some Cycle.is_wltp
    /\ domain_ok inputs f_nedc && domain_ok inputs f_wltp = false.
Proof.
  unfold CycleModel.cycle, add_sub_dispatcher.
  destruct (unknown_child_id nedc_cycle _ _); [discriminate |].
  unfold add_function at 1. cbv iota beta. simpl fun_nodes.
  destruct (unknown_child_id wltp_cycle _ _); [discriminate |].
  unfold add_function. intro H. injection H as <-. simpl.
  eexists. eexists. split; [reflexivity |]. split; [reflexivity |].
  split; [reflexivity |]. unfold domain_ok. simpl.
  destruct (Cycle.is_nedc inputs) eqn:E; [| reflexivity].
  now apply CycleFacts.is_nedc_not_wltp.
Qed.

End DispatchFacts.

(** ** The cycle model: which key decides *)

Module CycleKeys.

Import Cycle.

Lemma prefix_app (p q : string) : String.prefix p (p ++ q) = true.
Proof.
  induction p as [| c p IH]; simpl.
  - now destruct q.
  - destruct (Ascii.ascii_dec c c); [exact IH | congruence].
Qed.

Lemma str_contains_prefix (sub s : string) :
  String.prefix sub s = true -> str_contains sub s = true.
Proof. intro H. destruct s; cbn [str_contains]; now rewrite H. Qed.

Lemma str_contains_app (sub p q : string) : str_contains sub (p ++ sub ++ q) = true.
Proof.
  induction p as [| c p IH].
  - cbn [append]. apply str_contains_prefix, prefix_app.
  - change (String c p ++ sub ++ q) with (String c (p ++ sub ++ q)).
    cbn [str_contains]. rewrite IH.
    now destruct (String.prefix sub (String c (p ++ sub ++ q))).
Qed.

Lemma prefix_inv (sub : string) : forall s,
  String.prefix sub s = true -> exists q, s = sub ++ q.
Proof.
  induction sub as [| a sub IH]; intros s H.
  - now exists s.
  - destruct s as [| b s]; simpl in H; [discriminate |].
    destruct (Ascii.ascii_dec a b) as [-> | _]; [| discriminate].
    destruct (IH s H) as (q & ->). now exists q.
Qed.

Lemma str_contains_inv (sub s : string) :
  str_contains sub s = true -> exists p q, s = p ++ sub ++ q.
Proof.
  induction s as [| c s IH]; cbn [str_contains].
  - destruct sub; [intros _; now exists "", "" | discriminate].
  - destruct (String.prefix sub (String c s)) eqn:P.
    + intros _. destruct (prefix_inv _ _ P) as (q & E). now exists "", q.
    + intro H. destruct (IH H) as (p & q & ->). now exists (String c p), q.
Qed.

(** X1.  A key of [kwargs] counts as the cycle type exactly when it is
    ['cycle_type'] or holds [':cycle_type'] somewhere, not only at its
    end. *)
Theorem cycle_type_key_spec :
  forall k : string,
    is_cycle_type_key k = true <->
    k = "cycle_type" \/ exists p q, k = p ++ ":cycle_type" ++ q.
Proof.
  intro k. unfold is_cycle_type_key. rewrite orb_true_iff. split.
  - intros [H | H].
    + right. now apply str_contains_inv.
    + left. apply String.eqb_eq in H. now symmetry.
  - intros [-> | (p & q & ->)].
    + right. reflexivity.
    + left. apply str_contains_app.
Qed.

(** X2.  The first cycle-type key of [kwargs] alone decides both
    predicates: whatever follows it, a later ['cycle_type'] included, is
    not looked at; [is_nedc] holds exactly when its value is the string
    ['NEDC'], [is_wltp] exactly when it is ['WLTP']. *)
Theorem first_cycle_type_key_decides :
  forall (pre post : kwargs) (k : string) (v : pyval),
    (forall kv, In kv pre -> is_cycle_type_key (fst kv) = false) ->
    is_cycle_type_key k = true ->
    is_nedc (pre ++ (k, v) :: post)%list = py_eq_str v "NEDC"
    /\ is_wltp (pre ++ (k, v) :: post)%list = py_eq_str v "WLTP".
Proof.
  intros pre post k v Hpre Hk.
  induction pre as [| [k0 v0] pre IH]; simpl.
  - now rewrite Hk.
  - pose proof (Hpre (k0, v0) (or_introl eq_refl)) as H0. simpl in H0. rewrite H0.
    apply IH. intros kv Hin. apply Hpre. now right.
Qed.

Lemma first_cycle_type_key_decides_witness :
  is_nedc ([("k1", PInt 1)] ++ ("wltp_h:cycle_type", PStr "WLTP")
             :: [("cycle_type", PStr "NEDC")])%list = py_eq_str (PStr "WLTP") "NEDC"
  /\ is_wltp ([("k1", PInt 1)] ++ ("wltp_h:cycle_type", PStr "WLTP")
                :: [("cycle_type", PStr "NEDC")])%list = py_eq_str (PStr "WLTP") "WLTP".
Proof.
  apply first_cycle_type_key_decides.
  - intros kv [<- | []]. reflexivity.
  - reflexivity.
Defined.

(** X3.  Without a cycle-type key, or when the value of the first one is
    neither the string ['NEDC'] nor the string ['WLTP'] (the comparison
    minds the case), neither sub-model is eligible. *)
Theorem no_cycle_type_no_branch :
  forall kw : kwargs,
    (forall pre k v post,
        kw = (pre ++ (k, v) :: post)%list ->
        (forall kv, In kv pre -> is_cycle_type_key (fst kv) = false) ->
        is_cycle_type_key k = true ->
        py_eq_str v "NEDC" = false /\ py_eq_str v "WLTP" = false) ->
    is_nedc kw = false /\ is_wltp kw = false.
Proof.
  intros kw H.
  assert (G : forall done rest,
             kw = (done ++ rest)%list ->
             (forall kv, In kv done -> is_cycle_type_key (fst kv) = false) ->
             is_nedc rest = false /\ is_wltp rest = false).
  { intros done rest. revert done.
    induction rest as [| [k v] rest IH]; intros done E Hd; simpl.
    - now split.
    - destruct (is_cycle_type_key k) eqn:Hk.
      + now apply (H done k v rest).
      + apply (IH (done ++ [(k, v)])%list).
        * now rewrite <- app_assoc.
        * intros kv Hin. apply in_app_iff in Hin.
          destruct Hin as [Hin | [<- | []]]; [now apply Hd | exact Hk]. }
  apply (G [] kw); [reflexivity | intros kv []].
Qed.

Lemma no_cycle_type_no_branch_witness :
  is_nedc [("gear_box_type", PStr "manual"); ("cycle_type", PStr "nedc")] = false
  /\ is_wltp [("gear_box_type", PStr "manual"); ("cycle_type", PStr "nedc")] = false.
Proof.
  apply no_cycle_type_no_branch.
  intros pre k v post E Hpre Hk.
  destruct pre as [| kv0 [| kv1 pre]].
  - injection E as <- _ _. discriminate.
  - injection E as _ <- <- _. split; reflexivity.
  - injection E as _ _ E. destruct pre; discriminate.
Defined.

End CycleKeys.

(** ** [dispatcher/draw.py]: node labels *)

Module DrawFacts.

Import Draw.

Lemma plain_not_underscore (c : ascii) :
  plain c = true -> Ascii.eqb c "_"%char = false.
Proof.
  unfold plain. intro H. apply negb_true_iff in H.
  apply orb_false_iff in H as [H _]. apply orb_false_iff in H as [H _].
  now apply orb_false_iff in H as [_ H].
Qed.

Lemma underscore_not_plain (c : ascii) :
  Ascii.eqb c "_"%char = true -> plain c = false.
Proof. intro H. apply Ascii.eqb_eq in H. now subst c. Qed.

Lemma subn_eq (a : bool) (c0 c1 : ascii) (s2 : string) :
  subn a (String c0 (String c1 s2)) =
  if a && Ascii.eqb c0 "_"%char && plain c1 then
    let (r, n) := subn false s2 in (String " "%char (String c1 r), S n)
  else
    match s2 with
    | String c2 s3 =>
        if plain c0 && Ascii.eqb c1 "_"%char && plain c2 then
          let (r, n) := subn false s3 in
          (String c0 (String " "%char (String c2 r)), S n)
        else
          let (r, n) := subn false (String c1 s2) in (String c0 r, n)
    | EmptyString =>
        let (r, n) := subn false (String c1 s2) in (String c0 r, n)
    end.
Proof. reflexivity. Qed.

(** The cases of one pass, as an induction principle. *)
Lemma subn_cases (P : bool -> string -> string * nat -> Prop)
  (Hnil : forall a, P a EmptyString (EmptyString, 0))
  (Hone : forall a c0, P a (String c0 EmptyString) (String c0 EmptyString, 0))
  (Hfst : forall a c0 c1 s2 r n,
      a && Ascii.eqb c0 "_"%char && plain c1 = true ->
      P false s2 (r, n) ->
      P a (String c0 (String c1 s2)) (String " "%char (String c1 r), S n))
  (Hsnd : forall a c0 c1 c2 s3 r n,
      a && Ascii.eqb c0 "_"%char && plain c1 = false ->
      plain c0 && Ascii.eqb c1 "_"%char && plain c2 = true ->
      P false s3 (r, n) ->
      P a (String c0 (String c1 (String c2 s3)))
        (String c0 (String " "%char (String c2 r)), S n))
  (Hskip : forall a c0 c1 s2 r n,
      a && Ascii.eqb c0 "_"%char && plain c1 = false ->
      (forall c2 s3, s2 = String c2 s3 ->
                     plain c0 && Ascii.eqb c1 "_"%char && plain c2 = false) ->
      P false (String c1 s2) (r, n) ->
      P a (String c0 (String c1 s2)) (String c0 r, n)) :
  forall a s, P a s (subn a s).
Proof.
  assert (G : forall k a s, String.length s <= k -> P a s (subn a s)).
  { induction k as [| k IH]; intros a s L.
    - destruct s; [apply Hnil | simpl in L; lia].
    - destruct s as [| c0 [| c1 s2]]; [apply Hnil | apply Hone |].
      rewrite subn_eq. simpl in L.
      destruct (a && Ascii.eqb c0 "_"%char && plain c1) eqn:E1.
      + destruct (subn false s2) as [r n] eqn:E.
        apply Hfst; [exact E1 |]. rewrite <- E. apply IH. lia.
      + destruct s2 as [| c2 s3].
        * destruct (subn false (String c1 EmptyString)) as [r n] eqn:E.
          apply Hskip; [exact E1 | intros; discriminate |].
          rewrite <- E. apply IH. simpl. lia.
        * destruct (plain c0 && Ascii.eqb c1 "_"%char && plain c2) eqn:E2.
          -- destruct (subn false s3) as [r n] eqn:E.
             apply Hsnd; [exact E1 | exact E2 |].
             rewrite <- E. apply IH. simpl in L. lia.
          -- destruct (subn false (String c1 (String c2 s3))) as [r n] eqn:E.
             apply Hskip; [exact E1 | |].
             ++ intros c2' s3' Heq. injection Heq as <- <-. exact E2.
             ++ rewrite <- E. apply IH. simpl in *. lia. }
  intros a s. now apply (G (String.length s)).
Qed.

(** A pass keeps the closed form, and whether the string opens with a plain
    character. *)
Lemma subn_spaced (a : bool) (s : string) :
  head_plain (fst (subn a s)) = head_plain s
  /\ forall p, (a = true -> p = true) ->
               spaced p (fst (subn a s)) = spaced p s.
Proof.
  apply (subn_cases
           (fun a s rn => head_plain (fst rn) = head_plain s
                          /\ forall p, (a = true -> p = true) ->
                                       spaced p (fst rn) = spaced p s));
    clear a s.
  - intros a. now split.
  - intros a c0. now split.
  - intros a c0 c1 s2 r n E [_ IH].
    apply andb_true_iff in E as [E P1]. apply andb_true_iff in E as [A U0].
    apply Ascii.eqb_eq in U0. subst c0. split; [reflexivity |].
    intros p Hp. rewrite (Hp A). cbn [fst spaced].
    rewrite P1, (plain_not_underscore _ P1). cbn.
    cbn [fst] in IH. rewrite (IH true); [reflexivity | discriminate].
  - intros a c0 c1 c2 s3 r n _ E [_ IH].
    apply andb_true_iff in E as [E P2]. apply andb_true_iff in E as [P0 U1].
    apply Ascii.eqb_eq in U1. subst c1. split; [reflexivity |].
    intros p _. cbn [fst spaced].
    rewrite P0, P2, (plain_not_underscore _ P0), (plain_not_underscore _ P2). cbn.
    cbn [fst] in IH. rewrite (IH true); [reflexivity | discriminate].
  - intros a c0 c1 s2 r n _ _ [Hh IH]. cbn [fst] in *. split; [reflexivity |].
    intros p _. cbn [spaced].
    change (match r with String c _ => plain c | EmptyString => false end)
      with (head_plain r).
    rewrite Hh. cbn [head_plain].
    f_equal. apply IH. discriminate.
Qed.

(** A pass that substitutes nothing leaves the string as it is, and the
    string is then its own closed form. *)
Lemma subn_none (a : bool) (s : string) :
  snd (subn a s) = 0 ->
  fst (subn a s) = s
  /\ forall p, (p = true -> a = true \/ opens_match s = false) ->
               spaced p s = s.
Proof.
  apply (subn_cases
           (fun a s rn => snd rn = 0 ->
                          fst rn = s
                          /\ forall p, (p = true -> a = true \/ opens_match s = false) ->
                                       spaced p s = s));
    clear a s; cbn [fst snd].
  - intros a _. now split.
  - intros a c0 _. split; [reflexivity |]. intros p _. cbn [spaced].
    now rewrite andb_false_r.
  - discriminate.
  - discriminate.
  - intros a c0 c1 s2 r n E1 E2 IH Hn. destruct (IH Hn) as [-> Hs]. clear IH.
    split; [reflexivity |]. intros p Hp. cbn [spaced].
    assert (F : Ascii.eqb c0 "_"%char && p && plain c1 = false).
    { destruct p; [| now rewrite andb_false_r].
      destruct (Hp eq_refl) as [-> | O].
      - rewrite andb_true_r. exact E1.
      - rewrite andb_true_r. exact O. }
    rewrite F. f_equal. apply Hs. intro P0. right.
    destruct s2 as [| c2 s3]; [reflexivity |]. cbn [opens_match].
    specialize (E2 c2 s3 eq_refl). now rewrite P0 in E2.
Qed.

(** Every substitution uses up one underscore. *)
Lemma subn_underscores (a : bool) (s : string) :
  underscores (fst (subn a s)) + snd (subn a s) = underscores s.
Proof.
  apply (subn_cases
           (fun a s rn => underscores (fst rn) + snd rn = underscores s));
    clear a s; cbn [fst snd].
  - reflexivity.
  - intros a c0. cbn. lia.
  - intros a c0 c1 s2 r n E IH.
    apply andb_true_iff in E as [E P1]. apply andb_true_iff in E as [_ U0].
    cbn [underscores]. rewrite U0. cbn. lia.
  - intros a c0 c1 c2 s3 r n _ E IH.
    apply andb_true_iff in E as [E P2]. apply andb_true_iff in E as [_ U1].
    cbn [underscores]. rewrite U1. cbn. lia.
  - intros a c0 c1 s2 r n _ _ IH. cbn [underscores] in *. lia.
Qed.

Lemma underscores_le_length (s : string) : underscores s <= String.length s.
Proof.
  induction s as [| c s IH]; [reflexivity |]. cbn [underscores String.length].
  destruct (Ascii.eqb c "_"%char); lia.
Qed.

Lemma passes_spaced (fuel : nat) :
  forall s, underscores s <= fuel -> passes fuel s = spaced true s.
Proof.
  induction fuel as [| fuel IH]; intros s L.
  - cbn [passes]. pose proof (subn_underscores true s) as U.
    pose proof (subn_none true s) as Z.
    destruct (subn true s) as [s' n]. cbn [fst snd] in *.
    destruct n as [| n]; [| lia].
    destruct (Z eq_refl) as [-> Hs]. symmetry. apply Hs. now left.
  - cbn [passes]. pose proof (subn_underscores true s) as U.
    pose proof (subn_none true s) as Z.
    pose proof (subn_spaced true s) as [_ K].
    destruct (subn true s) as [s' n]. cbn [fst snd] in *.
    destruct n as [| n].
    + destruct (Z eq_refl) as [-> Hs]. symmetry. apply Hs. now left.
    + rewrite IH by lia. now apply K.
Qed.

Lemma spaced_head_plain (p : bool) (s : string) :
  head_plain (spaced p s) = head_plain s.
Proof.
  destruct s as [| c s]; [reflexivity |]. cbn [spaced head_plain].
  destruct (Ascii.eqb c "_"%char) eqn:U; [| reflexivity].
  rewrite (underscore_not_plain _ U). cbn [andb].
  destruct (p && match s with String c1 _ => plain c1 | EmptyString => false end);
    [reflexivity | exact (underscore_not_plain _ U)].
Qed.

Lemma spaced_spaced (s : string) :
  forall p q, (q = true -> p = true) -> spaced q (spaced p s) = spaced p s.
Proof.
  induction s as [| c s IH]; intros p q Hq; [reflexivity |].
  cbn [spaced].
  change (match s with String c1 _ => plain c1 | EmptyString => false end)
    with (head_plain s).
  change (match spaced (plain c) s with
          | String c1 _ => plain c1 | EmptyString => false end)
    with (head_plain (spaced (plain c) s)).
  rewrite spaced_head_plain.
  destruct (Ascii.eqb c "_"%char && p && head_plain s) eqn:E.
  - cbn. f_equal.
    apply andb_true_iff in E as [E _]. apply andb_true_iff in E as [U _].
    rewrite (underscore_not_plain _ U). now apply IH.
  - assert (F : Ascii.eqb c "_"%char && q && head_plain s = false).
    { destruct q; [| now rewrite andb_false_r].
      now rewrite (Hq eq_refl) in E. }
    rewrite F. f_equal. now apply IH.
Qed.

(** X4.  The loop of regular-expression passes of [replace_under_score]
    comes to an end for every string and amounts to one scan: an underscore
    becomes a space exactly when it is the first character or follows a
    character other than [(], [_], space and [)], and is itself followed by
    such a character; nothing else changes. *)
Theorem replace_under_score_closed_form :
  forall s : string, replace_under_score s = spaced true s.
Proof.
  intro s. unfold replace_under_score. apply passes_spaced.
  apply underscores_le_length.
Qed.

(** X5.  The label is stable: the regular expression matches nowhere in
    the result, and relabelling a label gives it back. *)
Theorem replace_under_score_stable :
  forall s : string,
    snd (subn true (replace_under_score s)) = 0
    /\ replace_under_score (replace_under_score s) = replace_under_score s.
Proof.
  intro s. split.
  - unfold replace_under_score.
    assert (G : forall fuel t, underscores t <= fuel ->
                               snd (subn true (passes fuel t)) = 0).
    { induction fuel as [| fuel IH]; intros t L; cbn [passes];
        pose proof (subn_underscores true t) as U;
        pose proof (subn_none true t) as Z;
        destruct (subn true t) as [t' n] eqn:E; cbn [fst snd] in *.
      - destruct n as [| n]; [| lia].
        destruct (Z eq_refl) as [-> _]. now rewrite E.
      - destruct n as [| n].
        + destruct (Z eq_refl) as [-> _]. now rewrite E.
        + apply IH. lia. }
    apply G, underscores_le_length.
  - unfold replace_under_score.
    rewrite (passes_spaced _ s) by apply underscores_le_length.
    rewrite passes_spaced by apply underscores_le_length.
    now apply spaced_spaced.
Qed.

Lemma spaced_length (s : string) :
  forall p, String.length (spaced p s) = String.length s.
Proof. induction s as [| c s IH]; intro p; cbn; [reflexivity | now rewrite IH]. Qed.

Lemma spaced_get (s : string) :
  forall p i,
    String.get i (spaced p s) = String.get i s
    \/ (String.get i s = Some "_"%char
        /\ String.get i (spaced p s) = Some " "%char).
Proof.
  induction s as [| c s IH]; intros p i; [now left |].
  cbn [spaced]. destruct i as [| i].
  - cbn [String.get].
    destruct (Ascii.eqb c "_"%char) eqn:U; [| now left].
    apply Ascii.eqb_eq in U. subst c.
    destruct (true && p && _); [now right | now left].
  - cbn [String.get]. apply IH.
Qed.

(** X6.  A label has the length of the node id, and differs from it only
    where an underscore of the id has become a space. *)
Theorem replace_under_score_pointwise :
  forall s : string,
    String.length (replace_under_score s) = String.length s
    /\ forall i,
        String.get i (replace_under_score s) = String.get i s
        \/ (String.get i s = Some "_"%char
            /\ String.get i (replace_under_score s) = Some " "%char).
Proof.
  intro s. unfold replace_under_score.
  rewrite passes_spaced by apply underscores_le_length. split.
  - apply spaced_length.
  - apply spaced_get.
Qed.

End DrawFacts.

(** ** [co2mpas/sampling/report.py]: what the generator yields *)

Module ReportOrder.

Import Report ReportSamples ReportView.

Local Open Scope list_scope.

Section Generator.

Variable DataFrame : Type.
Variable convpath : string -> string.
Variable extract_vfid_from_input : string -> exn + vfid.
Variable extract_dice_report_from_output : string -> exn + (vfid * DataFrame).

Local Abbreviation loop_inp' := (loop_inp (DataFrame := DataFrame) convpath extract_vfid_from_input).
Local Abbreviation loop_out' := (loop_out convpath extract_dice_report_from_output).
Local Abbreviation generator :=
  (yield_report_tuples_from_iofiles convpath extract_vfid_from_input
     extract_dice_report_from_output).
Local Abbreviation kinds_of := (ReportView.kinds_of convpath).
Local Abbreviation holds_id :=
  (ReportView.holds_id convpath extract_vfid_from_input extract_dice_report_from_output).

(** A loop yields the tuples of a prefix of its files, and says so when it
    stopped early. *)
Lemma loop_inp_shape (force : bool) (l : list string) : forall expected,
  let r := loop_inp' force expected l in
  exists done rest,
    l = done ++ rest
    /\ map tuple_key (yielded (fst r)) = kinds_of "inp" done
    /\ match snd r with
       | Some _ => rest = [] /\ raised (fst r) = None
       | None => rest <> [] /\ raised (fst r) <> None
       end.
Proof.
  induction l as [| fpath l IH]; intro expected; cbn [loop_inp].
  - exists [], []. cbn. auto.
  - destruct (extract_vfid_from_input (convpath fpath)) as [e | v].
    { exists [], (fpath :: l). cbn. repeat split; discriminate. }
    destruct (check_vfid_missmatch force expected (convpath fpath) v) as [e | [c w]].
    { exists [], (fpath :: l). cbn. repeat split; discriminate. }
    destruct (IH c) as (done & rest & E & K & R).
    exists (fpath :: done), rest. cbn [emit fst snd yielded raised map ReportView.kinds_of].
    split; [now rewrite E |]. split; [| exact R].
    f_equal. exact K.
Qed.

Lemma loop_out_shape (force : bool) (l : list string) : forall expected,
  let r := loop_out' force expected l in
  exists done rest,
    l = done ++ rest
    /\ map tuple_key (yielded (fst r)) = kinds_of "out" done
    /\ match snd r with
       | Some _ => rest = [] /\ raised (fst r) = None
       | None => rest <> [] /\ raised (fst r) <> None
       end.
Proof.
  induction l as [| fpath l IH]; intro expected; cbn [loop_out].
  - exists [], []. cbn. auto.
  - destruct (extract_dice_report_from_output (convpath fpath)) as [e | [v df]].
    { exists [], (fpath :: l). cbn. repeat split; discriminate. }
    destruct (check_vfid_missmatch force expected (convpath fpath) v) as [e | [c w]].
    { exists [], (fpath :: l). cbn. repeat split; discriminate. }
    destruct (IH c) as (done & rest & E & K & R).
    exists (fpath :: done), rest. cbn [emit fst snd yielded raised map ReportView.kinds_of].
    split; [now rewrite E |]. split; [| exact R].
    f_equal. exact K.
Qed.

Lemma loop_other_shape (l : list string) :
  map tuple_key (yielded (loop_other DataFrame convpath l)) = kinds_of "other" l.
Proof. unfold loop_other, ReportView.kinds_of. cbn. now rewrite map_map. Qed.

Lemma kinds_of_app (kind : string) (a b : list string) :
  kinds_of kind (a ++ b) = kinds_of kind a ++ kinds_of kind b.
Proof. apply map_app. Qed.

Lemma generator_shape :
  forall (force : bool) (iofiles : PFiles) (expected_vfid : vfid),
    let r := generator force iofiles expected_vfid in
    exists rest,
      kinds_of "inp" (inp iofiles) ++ kinds_of "out" (out iofiles)
        ++ kinds_of "other" (other iofiles)
      = map tuple_key (yielded r) ++ rest
      /\ (raised r = None <-> rest = []).
Proof.
  intros force [i o x] ev. unfold yield_report_tuples_from_iofiles. cbn [inp out other].
  pose proof (loop_inp_shape force i None) as (d1 & r1 & E1 & K1 & R1).
  cbn zeta in *.
  destruct (loop_inp' force None i) as [g1 [c1 |]]; cbn [fst snd] in *.
  - destruct R1 as [-> N1]. rewrite app_nil_r in E1. subst d1.
    pose proof (loop_out_shape force o c1) as (d2 & r2 & E2 & K2 & R2).
    cbn zeta in *.
    destruct (loop_out' force c1 o) as [g2 [c2 |]]; cbn [fst snd] in *.
    + destruct R2 as [-> N2]. rewrite app_nil_r in E2. subst d2.
      exists []. cbn [seq_drained yielded raised].
      rewrite !map_app, K1, K2, loop_other_shape, app_nil_r.
      split; [reflexivity | now split].
    + destruct R2 as [Z2 N2].
      exists (kinds_of "out" r2 ++ kinds_of "other" x).
      cbn [seq_drained yielded raised]. rewrite map_app, K1, K2, E2, kinds_of_app.
      rewrite <- !app_assoc. split; [reflexivity |].
      split; [intro H; now elim N2 |].
      intro H. destruct r2; [now elim Z2 | discriminate].
  - destruct R1 as [Z1 N1].
    exists (kinds_of "inp" r1 ++ kinds_of "out" o ++ kinds_of "other" x).
    rewrite K1, E1, kinds_of_app.
    rewrite <- !app_assoc. split; [reflexivity |].
    split; [intro H; now elim N1 |].
    intro H. destruct r1; [now elim Z1 | discriminate].
Qed.

(** X7.  The tuples come in the order of the input files, then the output
    files, then the other files, each with its converted path and its
    kind; what is yielded is a prefix of that list, and the whole of it
    exactly when the generator ends without an exception. *)
Theorem yielded_prefix_by_kind :
  forall (force : bool) (iofiles : PFiles) (expected_vfid : vfid),
    let r := generator force iofiles expected_vfid in
    exists rest,
      kinds_of "inp" (inp iofiles) ++ kinds_of "out" (out iofiles)
        ++ kinds_of "other" (other iofiles)
      = map tuple_key (yielded r) ++ rest
      /\ (raised r = None <-> rest = []).
Proof. exact generator_shape. Qed.

Lemma check_forced (expected : vfid) (fpath : string) (v : vfid) :
  exists c w, check_vfid_missmatch true expected fpath v = inr (c, w).
Proof.
  unfold check_vfid_missmatch. destruct expected as [x |]; [| eauto].
  destruct (negb (vfid_eqb (Some x) v)); eauto.
Qed.

Lemma loop_inp_forced (e : exn) (l : list string) : forall expected,
  raised (fst (loop_inp' true expected l)) = Some e ->
  exists f, In f l /\ extract_vfid_from_input (convpath f) = inl e.
Proof.
  induction l as [| fpath l IH]; intro expected; cbn [loop_inp].
  - discriminate.
  - destruct (extract_vfid_from_input (convpath fpath)) as [e' | v] eqn:X.
    { cbn. intros [= ->]. exists fpath. split; [now left | exact X]. }
    destruct (check_forced expected (convpath fpath) v) as (c & w & ->).
    cbn [emit fst raised]. intro H. destruct (IH c H) as (f & I & F).
    exists f. split; [now right | exact F].
Qed.

Lemma loop_out_forced (e : exn) (l : list string) : forall expected,
  raised (fst (loop_out' true expected l)) = Some e ->
  exists f, In f l /\ extract_dice_report_from_output (convpath f) = inl e.
Proof.
  induction l as [| fpath l IH]; intro expected; cbn [loop_out].
  - discriminate.
  - destruct (extract_dice_report_from_output (convpath fpath)) as [e' | [v df]] eqn:X.
    { cbn. intros [= ->]. exists fpath. split; [now left | exact X]. }
    destruct (check_forced expected (convpath fpath) v) as (c & w & ->).
    cbn [emit fst raised]. intro H. destruct (IH c H) as (f & I & F).
    exists f. split; [now right | exact F].
Qed.

(** X8.  With [force], a mismatch of ids never ends the generator: an
    exception that ends it is one that the extraction of an input or of an
    output file raised. *)
Theorem forced_generator_raises_only_extraction_errors :
  forall (iofiles : PFiles) (expected_vfid : vfid) (e : exn),
    raised (generator true iofiles expected_vfid) = Some e ->
    (exists f, In f (inp iofiles) /\ extract_vfid_from_input (convpath f) = inl e)
    \/ (exists f, In f (out iofiles)
                  /\ extract_dice_report_from_output (convpath f) = inl e).
Proof.
  intros [i o x] ev e. unfold yield_report_tuples_from_iofiles. cbn [inp out other].
  pose proof (loop_inp_forced e i None) as F1.
  pose proof (loop_inp_shape true i None) as (d1 & r1 & _ & _ & R1). cbn zeta in R1.
  destruct (loop_inp' true None i) as [g1 [c1 |]]; cbn [fst snd] in *.
  - pose proof (loop_out_forced e o c1) as F2.
    destruct (loop_out' true c1 o) as [g2 [c2 |]]; cbn [fst snd seq_drained raised] in *.
    + discriminate.
    + intro H. right. now apply F2.
  - intro H. left. now apply F1.
Qed.

(** The ids a loop read, when it ran to its end without [force]: with a
    known id in the cell every file holds that id. *)
Lemma loop_inp_known (x : string) (l : list string) : forall d c,
  loop_inp' false (Some x) l = (d, Some c) ->
  c = Some x
  /\ Forall (fun f => extract_vfid_from_input (convpath f) = inr (Some x)) l
  /\ warnings d = [].
Proof.
  induction l as [| fpath l IH]; intros d c; cbn [loop_inp].
  - intros [= <- <-]. auto.
  - destruct (extract_vfid_from_input (convpath fpath)) as [e | v] eqn:X;
      [discriminate |].
    unfold check_vfid_missmatch.
    destruct (vfid_eqb (Some x) v) eqn:Q; cbn [negb]; [| discriminate].
    destruct v as [y |]; [| discriminate]. cbn in Q. apply String.eqb_eq in Q. subst y.
    destruct (loop_inp' false (Some x) l) as [d' c'] eqn:L.
    unfold emit. cbn [fst snd]. intros [= <- ->].
    destruct (IH d' c eq_refl) as (-> & F & W).
    split; [reflexivity |]. split; [now constructor |]. cbn. exact W.
Qed.

Lemma loop_out_known (x : string) (l : list string) : forall d c,
  loop_out' false (Some x) l = (d, Some c) ->
  c = Some x
  /\ Forall (fun f => exists df,
                 extract_dice_report_from_output (convpath f) = inr (Some x, df)) l
  /\ warnings d = [].
Proof.
  induction l as [| fpath l IH]; intros d c; cbn [loop_out].
  - intros [= <- <-]. auto.
  - destruct (extract_dice_report_from_output (convpath fpath)) as [e | [v df]] eqn:X;
      [discriminate |].
    unfold check_vfid_missmatch.
    destruct (vfid_eqb (Some x) v) eqn:Q; cbn [negb]; [| discriminate].
    destruct v as [y |]; [| discriminate]. cbn in Q. apply String.eqb_eq in Q. subst y.
    destruct (loop_out' false (Some x) l) as [d' c'] eqn:L.
    unfold emit. cbn [fst snd]. intros [= <- ->].
    destruct (IH d' c eq_refl) as (-> & F & W).
    split; [reflexivity |]. split; [constructor; eauto |]. cbn. exact W.
Qed.

(** With nothing in the cell, files without an id may come first. *)
Lemma loop_inp_unknown (l : list string) : forall d c,
  loop_inp' false None l = (d, Some c) ->
  exists blank known,
    l = blank ++ known
    /\ Forall (fun f => extract_vfid_from_input (convpath f) = inr None) blank
    /\ match c with
       | None => known = []
       | Some x =>
           known <> []
           /\ Forall (fun f => extract_vfid_from_input (convpath f) = inr (Some x)) known
       end
    /\ warnings d = [].
Proof.
  induction l as [| fpath l IH]; intros d c; cbn [loop_inp].
  - intros [= <- <-]. exists [], []. auto.
  - destruct (extract_vfid_from_input (convpath fpath)) as [e | v] eqn:X;
      [discriminate |].
    cbn [check_vfid_missmatch].
    destruct (loop_inp' false v l) as [d' c'] eqn:L.
    unfold emit. cbn [fst snd]. intros [= <- ->]. destruct v as [y |].
    + destruct (loop_inp_known y l d' c L) as (-> & F & W).
      exists [], (fpath :: l). split; [reflexivity |]. split; [constructor |].
      split; [| exact W]. split; [discriminate | now constructor].
    + destruct (IH d' c L) as (blank & known & -> & B & K & W).
      exists (fpath :: blank), known. split; [reflexivity |].
      split; [now constructor |]. split; [exact K | exact W].
Qed.

Lemma loop_out_unknown (l : list string) : forall d c,
  loop_out' false None l = (d, Some c) ->
  exists blank known,
    l = blank ++ known
    /\ Forall (fun f => exists df,
                   extract_dice_report_from_output (convpath f) = inr (None, df)) blank
    /\ match c with
       | None => known = []
       | Some x =>
           known <> []
           /\ Forall (fun f => exists df,
                          extract_dice_report_from_output (convpath f) = inr (Some x, df))
                     known
       end
    /\ warnings d = [].
Proof.
  induction l as [| fpath l IH]; intros d c; cbn [loop_out].
  - intros [= <- <-]. exists [], []. auto.
  - destruct (extract_dice_report_from_output (convpath fpath)) as [e | [v df]] eqn:X;
      [discriminate |].
    cbn [check_vfid_missmatch].
    destruct (loop_out' false v l) as [d' c'] eqn:L.
    unfold emit. cbn [fst snd]. intros [= <- ->]. destruct v as [y |].
    + destruct (loop_out_known y l d' c L) as (-> & F & W).
      exists [], (fpath :: l). split; [reflexivity |]. split; [constructor |].
      split; [| exact W]. split; [discriminate | constructor; eauto].
    + destruct (IH d' c L) as (blank & known & -> & B & K & W).
      exists (fpath :: blank), known. split; [reflexivity |].
      split; [constructor; eauto |]. split; [exact K | exact W].
Qed.

(** X9.  Without [force], when the generator ends without an exception,
    the input and output files, in the order they were read, are some
    files holding no id followed by files that all hold one and the same
    id; and nothing was logged. *)
Theorem unforced_generator_completes_on_uniform_ids :
  forall (iofiles : PFiles) (expected_vfid : vfid),
    raised (generator false iofiles expected_vfid) = None ->
    exists blank known x,
      io_files iofiles = blank ++ known
      /\ Forall (holds_id None) blank
      /\ Forall (holds_id (Some x)) known
      /\ warnings (generator false iofiles expected_vfid) = [].
Proof.
  intros [i o t] ev. unfold yield_report_tuples_from_iofiles, ReportView.io_files.
  cbn [inp out other].
  pose proof (loop_inp_shape false i None) as (d1 & r1 & _ & _ & R1). cbn zeta in R1.
  pose proof (loop_inp_unknown i) as U1.
  destruct (loop_inp' false None i) as [g1 [c1 |]]; cbn [fst snd] in *;
    [| intro H; now destruct R1].
  destruct (U1 g1 c1 eq_refl) as (b1 & k1 & -> & B1 & K1 & W1). clear U1 R1.
  pose proof (loop_out_shape false o c1) as (d2 & r2 & _ & _ & R2). cbn zeta in R2.
  destruct (loop_out' false c1 o) as [g2 [c2 |]] eqn:L2; cbn [fst snd] in *;
    [| intro H; now destruct R2].
  intros _. cbn [seq_drained warnings loop_other]. rewrite W1, app_nil_r. cbn [app].
  assert (M : forall (P : string -> Prop) (Q : string + string -> Prop) inj l,
             (forall f, P f -> Q (inj f)) -> Forall P l -> Forall Q (map inj l)).
  { intros P Q inj l PQ F. induction F; cbn; constructor; auto. }
  destruct c1 as [x |].
  - destruct K1 as [_ K1].
    destruct (loop_out_known x o g2 c2 L2) as (_ & F2 & W2).
    exists (map inl b1), (map inl k1 ++ map inr o), x.
    split; [now rewrite map_app, <- app_assoc |].
    split; [apply (M (fun f => extract_vfid_from_input (convpath f) = inr None));
            [intros f A; exact A | exact B1] |].
    split; [| exact W2].
    apply Forall_app. split.
    + apply (M (fun f => extract_vfid_from_input (convpath f) = inr (Some x)));
        [intros f A; exact A | exact K1].
    + apply (M (fun f => exists df,
                    extract_dice_report_from_output (convpath f) = inr (Some x, df)));
        [intros f A; exact A | exact F2].
  - subst k1. rewrite app_nil_r.
    destruct (loop_out_unknown o g2 c2 L2) as (b2 & k2 & -> & B2 & K2 & W2).
    exists (map inl b1 ++ map inr b2), (map inr k2),
      (match c2 with Some x => x | None => EmptyString end).
    split; [now rewrite map_app, app_assoc |].
    split; [apply Forall_app; split |].
    + apply (M (fun f => extract_vfid_from_input (convpath f) = inr None));
        [intros f A; exact A | exact B1].
    + apply (M (fun f => exists df,
                    extract_dice_report_from_output (convpath f) = inr (None, df)));
        [intros f A; exact A | exact B2].
    + split; [| exact W2]. destruct c2 as [x |].
      * destruct K2 as [_ K2].
        apply (M (fun f => exists df,
                      extract_dice_report_from_output (convpath f) = inr (Some x, df)));
          [intros f A; exact A | exact K2].
      * subst k2. constructor.
Qed.

End Generator.

Lemma forced_generator_raises_only_extraction_errors_witness :
  (exists f, In f ["a.xlsx"] /\ no_input f = inl (ExtractionError "a.xlsx"))
  \/ (exists f, In f ["o1.xlsx"]
                /\ sheet_of f = inl (ExtractionError "a.xlsx")).
Proof.
  apply (forced_generator_raises_only_extraction_errors unit (fun p => p)
           no_input sheet_of (mkPFiles ["a.xlsx"] ["o1.xlsx"] []) None).
  reflexivity.
Defined.

Lemma unforced_generator_completes_on_uniform_ids_witness :
  exists blank known x,
    io_files (mkPFiles [] ["o1.xlsx"; "o2.xlsx"; "o2.xlsx"] ["notes.txt"])
    = blank ++ known
    /\ Forall (ReportView.holds_id (fun p => p) no_input sheet_of None) blank
    /\ Forall (ReportView.holds_id (fun p => p) no_input sheet_of (Some x)) known
    /\ warnings (yield_report_tuples_from_iofiles (fun p => p) no_input sheet_of false
                   (mkPFiles [] ["o1.xlsx"; "o2.xlsx"; "o2.xlsx"] ["notes.txt"]) None)
       = [].
Proof.
  apply (unforced_generator_completes_on_uniform_ids unit (fun p => p)
           no_input sheet_of
           (mkPFiles [] ["o1.xlsx"; "o2.xlsx"; "o2.xlsx"] ["notes.txt"]) None).
  reflexivity.
Defined.

End ReportOrder.

(** ** Ordered sets and dicts *)

Module PyCollFacts.

Import PyColl.

Local Open Scope list_scope.

Lemma existsb_eqb_in (x : string) (l : list string) :
  existsb (String.eqb x) l = true <-> In x l.
Proof.
  rewrite existsb_exists. split.
  - intros (y & I & E). apply String.eqb_eq in E. now subst y.
  - intro I. exists x. split; [exact I | apply String.eqb_refl].
Qed.

Lemma iset_add_in (acc : list string) (x y : string) :
  In y (iset_add acc x) <-> In y acc \/ y = x.
Proof.
  unfold iset_add. destruct (existsb (String.eqb x) acc) eqn:E.
  - apply existsb_eqb_in in E. split; [now left | intros [I | ->]; assumption].
  - rewrite in_app_iff. cbn. split; intros [I | I]; auto.
    + destruct I as [<- | []]. now right.
Qed.

Lemma iset_add_nodup (acc : list string) (x : string) :
  NoDup acc -> NoDup (iset_add acc x).
Proof.
  intro N. unfold iset_add. destruct (existsb (String.eqb x) acc) eqn:E; [exact N |].
  apply NoDup_app; [exact N | repeat constructor; intros [] |].
  intros y I [<- | []].
  apply existsb_eqb_in in I. congruence.
Qed.

Lemma iset_fold (l : list string) : forall acc,
  NoDup acc ->
  NoDup (fold_left iset_add l acc)
  /\ forall x, In x (fold_left iset_add l acc) <-> In x acc \/ In x l.
Proof.
  induction l as [| a l IH]; intros acc N; cbn [fold_left].
  - split; [exact N |]. intro x. cbn. tauto.
  - destruct (IH (iset_add acc a) (iset_add_nodup acc a N)) as [N' I'].
    split; [exact N' |]. intro x. rewrite I', iset_add_in. cbn.
    split; [intros [[H | ->] | H] | intros [H | [-> | H]]]; auto.
Qed.

Lemma iset_nodup (l : list string) : NoDup (iset l).
Proof. apply (iset_fold l []). constructor. Qed.

Lemma iset_in (l : list string) (x : string) : In x (iset l) <-> In x l.
Proof.
  unfold iset. rewrite (proj2 (iset_fold l [] (NoDup_nil _))). cbn. tauto.
Qed.

(** Distinct items are all kept, in their order. *)
Lemma iset_fold_fresh (l : list string) : forall acc,
  NoDup (acc ++ l) -> fold_left iset_add l acc = acc ++ l.
Proof.
  induction l as [| a l IH]; intros acc N; cbn [fold_left].
  - now rewrite app_nil_r.
  - assert (F : existsb (String.eqb a) acc = false).
    { destruct (existsb (String.eqb a) acc) eqn:E; [| reflexivity].
      apply existsb_eqb_in in E. apply NoDup_remove_2 in N.
      elim N. apply in_app_iff. now left. }
    unfold iset_add at 2. rewrite F.
    rewrite IH; rewrite <- app_assoc; [reflexivity | exact N].
Qed.

Lemma iset_idempotent (l : list string) : iset (iset l) = iset l.
Proof.
  unfold iset at 1. rewrite iset_fold_fresh; [reflexivity |].
  cbn. apply iset_nodup.
Qed.

Lemma iset_nonempty (l : list string) : l <> [] -> iset l <> [].
Proof.
  destruct l as [| a l]; [congruence |]. intros _ E.
  assert (I : In a (iset (a :: l))) by (apply iset_in; now left).
  rewrite E in I. destruct I.
Qed.

Section OrderedDict.

Variable V : Type.

Lemma od_set_keys (d : list (string * V)) (k : string) (v : V) :
  map fst (od_set d k v) = iset_add (map fst d) k.
Proof.
  induction d as [| [k' v'] d IH]; [reflexivity |].
  cbn [od_set]. unfold iset_add. cbn [map fst existsb].
  destruct (String.eqb k k') eqn:E; cbn [orb map fst]; [reflexivity |].
  rewrite IH. unfold iset_add.
  now destruct (existsb (String.eqb k) (map fst d)).
Qed.

Lemma od_fold_keys (pairs : list (string * V)) : forall d,
  map fst (fold_left (fun d kv => od_set d (fst kv) (snd kv)) pairs d)
  = fold_left iset_add (map fst pairs) (map fst d).
Proof.
  induction pairs as [| [k v] pairs IH]; intro d; [reflexivity |].
  cbn [fold_left map fst snd]. now rewrite IH, od_set_keys.
Qed.

Lemma od_of_pairs_keys (pairs : list (string * V)) :
  map fst (od_of_pairs pairs) = iset (map fst pairs).
Proof. apply (od_fold_keys pairs []). Qed.

Lemma od_get_set (d : list (string * V)) (k k' : string) (v : V) :
  od_get (od_set d k' v) k = if String.eqb k k' then Some v else od_get d k.
Proof.
  unfold od_get. induction d as [| [k0 v0] d IH]; cbn [od_set find fst].
  - now destruct (String.eqb k k').
  - destruct (String.eqb k' k0) eqn:E0; cbn [find fst].
    + apply String.eqb_eq in E0. subst k0.
      now destruct (String.eqb k k').
    + destruct (String.eqb k k0) eqn:E1.
      * apply String.eqb_eq in E1. subst k0.
        rewrite String.eqb_sym in E0. now rewrite E0.
      * exact IH.
Qed.

Lemma od_get_app (a b : list (string * V)) (k : string) :
  od_get (a ++ b) k = match od_get a k with
                      | Some v => Some v
                      | None => od_get b k
                      end.
Proof.
  unfold od_get. induction a as [| [k0 v0] a IH]; cbn [app find fst]; [reflexivity |].
  destruct (String.eqb k k0); [reflexivity | exact IH].
Qed.

(** After a run of assignments a key holds the value assigned last, or
    the value it had. *)
Lemma od_fold_get (pairs : list (string * V)) (k : string) : forall d,
  od_get (fold_left (fun d kv => od_set d (fst kv) (snd kv)) pairs d) k
  = match od_get (rev pairs) k with
    | Some v => Some v
    | None => od_get d k
    end.
Proof.
  induction pairs as [| [k' v'] pairs IH]; intro d; [reflexivity |].
  cbn [fold_left fst snd rev]. rewrite IH, od_get_app, od_get_set.
  destruct (od_get (rev pairs) k); [reflexivity |].
  unfold od_get. cbn [find fst option_map snd].
  now destruct (String.eqb k k').
Qed.

Lemma od_of_pairs_get (pairs : list (string * V)) (k : string) :
  od_get (od_of_pairs pairs) k = od_get (rev pairs) k.
Proof.
  unfold od_of_pairs. rewrite od_fold_get.
  now destruct (od_get (rev pairs) k).
Qed.

End OrderedDict.

End PyCollFacts.

(** ** [co2mpas/sampling/report.py]: the report dict and [ReportCmd.run] *)

Module ReportCmdFacts.

Import Report ReportView PyColl ReportCmd.

Local Open Scope list_scope.

Lemma find_map {A B : Type} (f : A -> B) (p : B -> bool) (l : list A) :
  find p (map f l) = option_map f (find (fun a => p (f a)) l).
Proof.
  induction l as [| a l IH]; [reflexivity |]. cbn [map find].
  destruct (p (f a)); [reflexivity | exact IH].
Qed.

Lemma kinds_of_paths (convpath : string -> string) (kind : string) (l : list string) :
  map fst (kinds_of convpath kind l) = map convpath l.
Proof. unfold kinds_of. rewrite map_map. reflexivity. Qed.

Section Convert.

Variable DataFrame : Type.
Variable Cell : Type.
Variable basename : string -> string.
Variable frame_items : DataFrame -> list (string * list Cell).
Variable convpath : string -> string.
Variable extract_vfid_from_input : string -> exn + vfid.
Variable extract_dice_report_from_output : string -> exn + (vfid * DataFrame).
Variable name : string.
Variable show_nat : nat -> string.
Variable repr_args : list string -> string.
Variable current_project_pfiles : exn + PFiles.
Variable project_str : string.
Variable falsy : PFiles -> bool.
Variable parse_io_args : list string -> exn + PFiles.
Variable yaml_dump : string -> tuple_dict Cell -> string.

Local Abbreviation generator :=
  (yield_report_tuples_from_iofiles convpath extract_vfid_from_input
     extract_dice_report_from_output).
Local Abbreviation get_dice_report' :=
  (get_dice_report basename frame_items convpath extract_vfid_from_input
     extract_dice_report_from_output).
Local Abbreviation run' :=
  (run basename frame_items convpath extract_vfid_from_input
     extract_dice_report_from_output name show_nat repr_args
     current_project_pfiles project_str falsy parse_io_args yaml_dump).
Local Abbreviation from_project :=
  (_build_io_files_from_project current_project_pfiles project_str falsy).

(** The paths of the tuples of a generator that ran to its end. *)
Lemma complete_paths (force : bool) (iofiles : PFiles) (ev : vfid) :
  raised (generator force iofiles ev) = None ->
  map (fun t : rtuple DataFrame => fst (fst t)) (yielded (generator force iofiles ev))
  = map convpath (inp iofiles ++ out iofiles ++ other iofiles).
Proof.
  intro R.
  destruct (ReportOrder.generator_shape DataFrame convpath extract_vfid_from_input
              extract_dice_report_from_output force iofiles ev) as (rest & E & C).
  apply C in R. subst rest. rewrite app_nil_r in E.
  transitivity (map fst (map tuple_key (yielded (generator force iofiles ev)))).
  { rewrite map_map. reflexivity. }
  rewrite <- E, !map_app, !kinds_of_paths. reflexivity.
Qed.

(** X10.  [get_dice_report] gives a report exactly when the generator ends
    without an exception, else that exception and nothing of what was
    read.  The report has one entry for each distinct converted path, in
    the order the paths are first met among the input, output and other
    files; a path listed more than once holds the dict of the tuple
    yielded last for it. *)
Theorem dice_report_keeps_last_tuple_of_a_path :
  forall (force : bool) (iofiles : PFiles) (expected_vfid : vfid),
    let tuples := generator force iofiles expected_vfid in
    match get_dice_report' force iofiles expected_vfid with
    | inl e => raised tuples = Some e
    | inr d =>
        raised tuples = None
        /\ map fst d = iset (map convpath (inp iofiles ++ out iofiles ++ other iofiles))
        /\ forall fpath,
            od_get d fpath
            = option_map (report_tuple_2_dict basename frame_items)
                (find (fun t : rtuple DataFrame => String.eqb fpath (fst (fst t)))
                      (rev (yielded tuples)))
    end.
Proof.
  intros force iofiles ev. cbn zeta. unfold get_dice_report.
  pose proof (complete_paths force iofiles ev) as P.
  destruct (raised (generator force iofiles ev)) as [e |]; [reflexivity |].
  split; [reflexivity |]. split.
  - rewrite PyCollFacts.od_of_pairs_keys, map_map. cbn [fst].
    f_equal. exact (P eq_refl).
  - intro fpath. rewrite PyCollFacts.od_of_pairs_get. unfold od_get.
    rewrite <- map_rev, find_map. cbn [fst].
    now destruct (find _ (rev _)).
Qed.

(** X11.  With [vfids_only] the command never yields a line, and it ends
    without an exception only when there is no file at all: as soon as a
    first tuple is there, binding it to four names raises. *)
Theorem vfids_only_prints_nothing :
  forall (project report_force : bool) (args : list string),
    let r := run' project true report_force args in
    lines r = []
    /\ (run_raised r = None ->
        exists pfiles,
          (if project then from_project else parse_io_args (iset args)) = inr pfiles
          /\ inp pfiles = [] /\ out pfiles = [] /\ other pfiles = []).
Proof.
  intros project rf args. cbn zeta. unfold run.
  set (g := fun pfiles => generator true pfiles None).
  assert (V : forall pfiles,
             lines (vfid_lines (g pfiles)) = []
             /\ (run_raised (vfid_lines (g pfiles)) = None ->
                 inp pfiles = [] /\ out pfiles = [] /\ other pfiles = [])).
  { intro pfiles. unfold vfid_lines.
    pose proof (complete_paths true pfiles None) as P. fold (g pfiles) in P.
    destruct (yielded (g pfiles)) as [| t ts]; cbn [lines run_raised].
    - split; [reflexivity |]. intro R.
      destruct (raised (g pfiles)); [discriminate |]. specialize (P eq_refl).
      cbn [map] in P. symmetry in P. apply map_eq_nil in P.
      apply app_eq_nil in P as [-> P]. apply app_eq_nil in P as [-> ->]. auto.
    - split; [reflexivity | discriminate]. }
  destruct project.
  - destruct (Nat.ltb 0 (List.length args)).
    + cbn. split; [reflexivity | discriminate].
    + destruct from_project as [e | pfiles].
      * cbn. split; [reflexivity | discriminate].
      * destruct (V pfiles) as [L N]. split; [exact L |].
        intro R. exists pfiles. split; [reflexivity | now apply N].
  - destruct (Nat.ltb (List.length args) 1).
    + cbn. split; [reflexivity | discriminate].
    + unfold _build_io_files_from_args.
      destruct (parse_io_args (iset args)) as [e | pfiles].
      * cbn. split; [reflexivity | discriminate].
      * destruct (V pfiles) as [L N]. split; [exact L |].
        intro R. exists pfiles. split; [reflexivity | now apply N].
Qed.

(** X12.  Arguments given more than once count once: the run on some
    file arguments is the run on those arguments with the repetitions
    dropped. *)
Theorem repeated_arguments_are_dropped :
  forall (vfids_only report_force : bool) (args : list string),
    args <> [] ->
    run' false vfids_only report_force args
    = run' false vfids_only report_force (iset args).
Proof.
  intros v rf args N. unfold run.
  pose proof (PyCollFacts.iset_nonempty args N) as N'.
  rewrite PyCollFacts.iset_idempotent.
  destruct args as [| a args]; [congruence |].
  destruct (iset (a :: args)) as [| b l] eqn:E; [congruence |].
  reflexivity.
Qed.

End Convert.

Lemma repeated_arguments_are_dropped_witness :
  run (fun p => p) (fun _ : unit => @nil (string * list unit)) (fun p => p)
      ReportSamples.no_input ReportSamples.sheet_of "report" (fun _ => "2")
      (fun _ => "()") (inr (mkPFiles [] [] [])) "project" (fun _ => true)
      (fun a => inr (mkPFiles [] a [])) (fun p _ => p)
      false false false ["o2.xlsx"; "o2.xlsx"]
  = run (fun p => p) (fun _ : unit => @nil (string * list unit)) (fun p => p)
      ReportSamples.no_input ReportSamples.sheet_of "report" (fun _ => "2")
      (fun _ => "()") (inr (mkPFiles [] [] [])) "project" (fun _ => true)
      (fun a => inr (mkPFiles [] a [])) (fun p _ => p)
      false false false (iset ["o2.xlsx"; "o2.xlsx"]).
Proof.
  apply (repeated_arguments_are_dropped unit unit). discriminate.
Defined.

End ReportCmdFacts.

(** ** [co2mpas/sampling/baseapp.py]: which files are read, and in what order *)

Module BaseAppFacts.

Import PyColl BaseApp.

Local Open Scope list_scope.

Section Files.

Variable convpath : string -> string.
Variable ensure_file_ext : string -> string -> string.
Variable join : string -> string -> string.
Variable splitext : string -> string * string.
Variable isdir : string -> bool.
Variable isfile : string -> bool.
Variable split_pathsep : string -> list string.
Variable _mydir : string.

Local Abbreviation try_json_and_py' := (try_json_and_py ensure_file_ext isfile).
Local Abbreviation derive_step' :=
  (derive_step convpath ensure_file_ext join splitext isdir isfile).
Local Abbreviation derive' :=
  (_derive_config_fpaths convpath ensure_file_ext join splitext isdir isfile
     split_pathsep).
Local Abbreviation collect' :=
  (_collect_static_fpaths convpath ensure_file_ext join splitext isdir isfile
     split_pathsep _mydir).

Local Abbreviation found_file := (BaseApp.found_file ensure_file_ext isfile).

Lemma try_json_and_py_adds (new_paths : list string) (basepath : string) :
  exists added,
    fst (try_json_and_py' new_paths basepath) = new_paths ++ added
    /\ Forall found_file added.
Proof.
  unfold try_json_and_py. cbn [fold_left fst].
  destruct (isfile (ensure_file_ext basepath ".py")) eqn:P;
    destruct (isfile (ensure_file_ext basepath ".json")) eqn:J; cbn [fst].
  - exists [ensure_file_ext basepath ".py"; ensure_file_ext basepath ".json"].
    split; [now rewrite <- app_assoc |].
    repeat constructor; try assumption; exists basepath; auto.
  - exists [ensure_file_ext basepath ".py"]. split; [reflexivity |].
    repeat constructor; try assumption; exists basepath; auto.
  - exists [ensure_file_ext basepath ".json"]. split; [reflexivity |].
    repeat constructor; try assumption; exists basepath; auto.
  - exists []. split; [now rewrite app_nil_r | constructor].
Qed.

Lemma derive_step_adds (new_paths : list string) (p : string) :
  exists added,
    derive_step' new_paths p = new_paths ++ added /\ Forall found_file added.
Proof.
  unfold derive_step. destruct (isdir (convpath p)).
  - apply try_json_and_py_adds.
  - destruct (try_json_and_py_adds new_paths (convpath p)) as (a1 & E1 & F1).
    destruct (try_json_and_py' new_paths (convpath p)) as [paths found].
    cbn [fst] in E1. subst paths. destruct found; cbn [negb].
    + now exists a1.
    + destruct (try_json_and_py_adds (new_paths ++ a1) (fst (splitext (convpath p))))
        as (a2 & E2 & F2).
      exists (a1 ++ a2). split; [now rewrite E2, app_assoc |].
      apply Forall_app. now split.
Qed.

Lemma derive_fold_found (ps : list string) : forall acc,
  Forall found_file acc -> Forall found_file (fold_left derive_step' ps acc).
Proof.
  induction ps as [| p ps IH]; intros acc F; cbn [fold_left]; [exact F |].
  apply IH. destruct (derive_step_adds acc p) as (added & -> & A).
  apply Forall_app. now split.
Qed.

Lemma collected_found (config_paths : option (list string)) (env : option string) :
  Forall found_file (collect' config_paths env).
Proof.
  unfold _collect_static_fpaths. apply Forall_forall. intros f I.
  apply PyCollFacts.iset_in, in_flat_map in I. destruct I as (cf & _ & I).
  assert (F : Forall found_file (derive' cf)).
  { apply derive_fold_found. constructor. }
  rewrite Forall_forall in F. now apply F.
Qed.

(** X13.  The static config files collected are files that exist, each
    named with the extension [.py] or [.json], and none is listed
    twice. *)
Theorem collected_config_files_exist_once :
  forall (config_paths : option (list string)) (env : option string),
    let collected :=
      _collect_static_fpaths convpath ensure_file_ext join splitext isdir isfile
        split_pathsep _mydir config_paths env in
    NoDup collected
    /\ forall f, In f collected ->
                 isfile f = true
                 /\ exists basepath, f = ensure_file_ext basepath ".py"
                                     \/ f = ensure_file_ext basepath ".json".
Proof.
  intros cp env. cbn zeta. split.
  - apply PyCollFacts.iset_nodup.
  - intros f I. pose proof (collected_found cp env) as F.
    rewrite Forall_forall in F. exact (F f I).
Qed.

Variable Config : Type.
Variable empty_config : Config.
Variable merge : Config -> Config -> Config.
Variable nonempty : Config -> bool.
Variable py_loader : string -> load_result Config.
Variable json_loader : string -> load_result Config.
Variable read_json : string -> load_result Config.

Local Abbreviation read' :=
  (_read_config_from_json_or_py splitext py_loader json_loader).
Local Abbreviation reads_nonempty' :=
  (reads_nonempty splitext nonempty py_loader json_loader).
Local Abbreviation configs_read' :=
  (configs_read splitext nonempty py_loader json_loader).
Local Abbreviation static_loop' :=
  (static_loop splitext merge nonempty py_loader json_loader).
Local Abbreviation load' :=
  (load_configurables_from_files convpath ensure_file_ext join splitext isdir isfile
     split_pathsep _mydir empty_config merge nonempty py_loader json_loader read_json).
Local Abbreviation persist_file pp penv :=
  (ensure_file_ext (convpath (persist_path_or convpath join pp penv)) ".json").

(** The loop reads [paths] in order: it lists the files read into a true
    config and merges their configs, the later over the earlier; an
    exception leaves it with the files listed so far. *)
Lemma static_loop_reads (raise_errors : bool) (paths : list string) :
  forall files cfg,
    match static_loop' raise_errors paths files cfg with
    | (files', inr c) =>
        files' = files ++ filter (reads_nonempty' raise_errors) paths
        /\ c = fold_left merge (configs_read' raise_errors paths) cfg
    | (files', inl e) =>
        exists done rest,
          paths = done ++ rest
          /\ files' = files ++ filter (reads_nonempty' raise_errors) done
    end.
Proof.
  induction paths as [| p paths IH]; intros files cfg; cbn [static_loop].
  - split; [now rewrite app_nil_r | reflexivity].
  - unfold reads_nonempty, configs_read. cbn [filter flat_map].
    fold (reads_nonempty' raise_errors) (configs_read' raise_errors paths).
    destruct (read' raise_errors p) as [e | [c |]] eqn:R.
    + exists [], (p :: paths). split; [reflexivity | now rewrite app_nil_r].
    + cbn [loaded_nonempty]. destruct (nonempty c) eqn:N.
      * specialize (IH (files ++ [p]) (merge cfg c)).
        destruct (static_loop' raise_errors paths (files ++ [p]) (merge cfg c))
          as [files' [e | c']].
        -- destruct IH as (done & rest & -> & ->).
           exists (p :: done), rest. split; [reflexivity |].
           cbn [filter]. unfold reads_nonempty at 2. rewrite R. cbn [loaded_nonempty].
           rewrite N. now rewrite <- app_assoc.
        -- destruct IH as [-> ->]. split; [now rewrite <- app_assoc | reflexivity].
      * specialize (IH files cfg).
        destruct (static_loop' raise_errors paths files cfg) as [files' [e | c']].
        -- destruct IH as (done & rest & -> & ->).
           exists (p :: done), rest. split; [reflexivity |].
           cbn [filter]. unfold reads_nonempty at 2. rewrite R. cbn [loaded_nonempty].
           now rewrite N.
        -- exact IH.
    + cbn [loaded_nonempty]. specialize (IH files cfg).
      destruct (static_loop' raise_errors paths files cfg) as [files' [e | c']].
      * destruct IH as (done & rest & -> & ->).
        exists (p :: done), rest. split; [reflexivity |].
        cbn [filter]. unfold reads_nonempty at 2. now rewrite R.
      * exact IH.
Qed.

Lemma filter_rev {A : Type} (f : A -> bool) (l : list A) :
  filter f (rev l) = rev (filter f l).
Proof.
  induction l as [| a l IH]; [reflexivity |]. cbn [rev filter].
  rewrite filter_app, IH. cbn [filter].
  destruct (f a); cbn [rev]; [reflexivity | now rewrite app_nil_r].
Qed.

(** What [load_configurables_from_files] leaves and returns. *)
Lemma load_outcome (raise_errors : bool) (cp : option (list string))
      (cenv pp penv : option string) (st : pstore Config) :
  let collected := collect' cp cenv in
  match load' raise_errors cp cenv pp penv st with
  | (_, files, inr (static_config, persist_config)) =>
      files = match persist_config with
              | Some _ => [persist_file pp penv]
              | None => []
              end ++ filter (reads_nonempty' raise_errors) collected
      /\ static_config
         = fold_left merge (configs_read' raise_errors (rev collected)) empty_config
      /\ match persist_config with
         | Some p => nonempty p = true
         | None => True
         end
  | (_, files, inl e) =>
      exists unread read,
        collected = unread ++ read
        /\ files = filter (reads_nonempty' raise_errors) read
  end.
Proof.
  cbn zeta. unfold load_configurables_from_files, _read_config_from_static_files.
  pose proof (static_loop_reads raise_errors (rev (collect' cp cenv)) [] empty_config)
    as S.
  destruct (static_loop' raise_errors (rev (collect' cp cenv)) [] empty_config)
    as [files [e | static_config]].
  - destruct S as (done & rest & E & ->). cbn [app].
    exists (rev rest), (rev done). split.
    + rewrite <- rev_app_distr, <- E. now rewrite rev_involutive.
    + now rewrite filter_rev.
  - destruct S as [-> ->]. cbn [app]. rewrite filter_rev.
    unfold _read_config_from_persist_file, load_pconfig.
    destruct (read_json (persist_file pp penv)) as [c | | ex].
    + cbn [loaded_nonempty]. destruct (nonempty c) eqn:N; cbn [negb].
      * rewrite rev_app_distr, rev_involutive. cbn [rev app]. auto.
      * rewrite rev_involutive. cbn [app]. auto.
    + cbn [loaded_nonempty negb]. rewrite rev_involutive. cbn [app]. auto.
    + destruct raise_errors.
      * exists [], (collect' cp cenv). rewrite rev_involutive. auto.
      * rewrite rev_involutive. cbn [app]. auto.
Qed.

(** X14.  After [load_configurables_from_files], [loaded_config_files]
    holds the persist file first, if it was read into a true config,
    then the collected static files that were, in the order they were
    collected, the first being the one that overrides the rest.  When an
    exception gets out, it holds in that order the files read before
    it. *)
Theorem loaded_config_files_in_descending_order :
  forall (raise_errors : bool) (config_paths : option (list string))
         (config_env persist_path persist_env : option string) (st : pstore Config),
    let collected := collect' config_paths config_env in
    match load' raise_errors config_paths config_env persist_path persist_env st with
    | (_, files, inr (_, persist_config)) =>
        files = match persist_config with
                | Some _ => [persist_file persist_path persist_env]
                | None => []
                end ++ filter (reads_nonempty' raise_errors) collected
    | (_, files, inl e) =>
        exists unread read,
          collected = unread ++ read
          /\ files = filter (reads_nonempty' raise_errors) read
    end.
Proof.
  intros raise_errors cp cenv pp penv st. cbn zeta.
  pose proof (load_outcome raise_errors cp cenv pp penv st) as L. cbn zeta in L.
  destruct (load' raise_errors cp cenv pp penv st) as [[st' files] [e | [s p]]].
  - exact L.
  - now destruct L as [-> _].
Qed.

Lemma configs_read_rev (raise_errors : bool) (paths : list string) :
  configs_read' raise_errors (rev paths) = rev (configs_read' raise_errors paths).
Proof.
  unfold configs_read. induction paths as [| p paths IH]; [reflexivity |].
  cbn [rev flat_map]. rewrite flat_map_app, IH. cbn [flat_map].
  rewrite app_nil_r.
  destruct (read' raise_errors p) as [e | [c |]]; cbn [rev app];
    try now rewrite app_nil_r.
  destruct (nonempty c); cbn [rev app]; [reflexivity | now rewrite app_nil_r].
Qed.

(** Every file listed bears one of the extensions, given that
    [ensure_file_ext] returns a name no shorter than the extension. *)
Lemma loaded_files_long (raise_errors : bool) (cp : option (list string))
      (cenv pp penv : option string) (st : pstore Config) :
  (forall b e, String.length e <= String.length (ensure_file_ext b e)) ->
  Forall (fun f => 3 <= String.length f)
         (snd (fst (load' raise_errors cp cenv pp penv st))).
Proof.
  intro Hlen.
  assert (C : forall l, incl l (collect' cp cenv) ->
                        Forall (fun f => 3 <= String.length f) l).
  { intros l Hl. apply Forall_forall. intros f I.
    pose proof (collected_found cp cenv) as F. rewrite Forall_forall in F.
    destruct (F f (Hl f I)) as (_ & b & [-> | ->]).
    - exact (Hlen b ".py").
    - pose proof (Hlen b ".json") as H. cbn in H. lia. }
  assert (Fi : forall l, incl (filter (reads_nonempty' raise_errors) l) l).
  { intros l f I. now apply filter_In in I. }
  pose proof (load_outcome raise_errors cp cenv pp penv st) as L. cbn zeta in L.
  destruct (load' raise_errors cp cenv pp penv st) as [[st' files] [e | [s p]]];
    cbn [fst snd].
  - destruct L as (unread & read & E & ->). apply C.
    intros f I. apply Fi in I. rewrite E. apply in_app_iff. now right.
  - destruct L as (-> & _ & _). apply Forall_app. split; [| apply C, Fi].
    destruct p; constructor; [| constructor].
    pose proof (Hlen (convpath (persist_path_or convpath join pp penv)) ".json") as H.
    cbn in H. lia.
Qed.

Section Lookup.

Variable Key : Type.
Variable Val : Type.
(** Reading a parameter of a config. *)
Variable lookup : Config -> Key -> option Val.
Hypothesis lookup_empty : forall k, lookup empty_config k = None.
Hypothesis lookup_merge : forall a b k,
  lookup (merge a b) k = match lookup b k with
                         | Some v => Some v
                         | None => lookup a k
                         end.

Lemma first_defined_app (a b : list Config) (k : Key) :
  first_defined lookup (a ++ b) k
  = match first_defined lookup a k with
    | Some v => Some v
    | None => first_defined lookup b k
    end.
Proof.
  induction a as [| c a IH]; [reflexivity |]. cbn [app first_defined].
  destruct (lookup c k); [reflexivity | exact IH].
Qed.

Lemma fold_merge_lookup (cs : list Config) (k : Key) : forall acc,
  lookup (fold_left merge cs acc) k
  = match first_defined lookup (rev cs) k with
    | Some v => Some v
    | None => lookup acc k
    end.
Proof.
  induction cs as [| c cs IH]; intro acc; [reflexivity |].
  cbn [fold_left rev]. rewrite IH, first_defined_app, lookup_merge.
  cbn [first_defined].
  destruct (first_defined lookup (rev cs) k); [reflexivity |].
  now destruct (lookup c k).
Qed.

(** The static config holds for each parameter the value of the first
    collected file that sets it. *)
Lemma static_config_lookup (raise_errors : bool) (cp : option (list string))
      (cenv pp penv : option string) (st : pstore Config) :
  match load' raise_errors cp cenv pp penv st with
  | (_, _, inr (static_config, persist_config)) =>
      (forall k, lookup static_config k
                 = first_defined lookup (configs_read' raise_errors (collect' cp cenv)) k)
      /\ match persist_config with
         | Some p => nonempty p = true
         | None => True
         end
  | _ => True
  end.
Proof.
  pose proof (load_outcome raise_errors cp cenv pp penv st) as L. cbn zeta in L.
  destruct (load' raise_errors cp cenv pp penv st) as [[st' files] [e | [s p]]];
    [exact I |].
  destruct L as (_ & -> & N). split; [| exact N].
  intro k. rewrite fold_merge_lookup, configs_read_rev, rev_involutive, lookup_empty.
  now destruct (first_defined lookup _ k).
Qed.

End Lookup.

End Files.

Section WriteThenFind.

Variable convpath : string -> string.
Variable ensure_file_ext : string -> string -> string.
Variable join : string -> string -> string.
Variable splitext : string -> string * string.
Variable isdir : string -> bool.
Variable split_pathsep : string -> list string.
Variable _mydir : string.
Variable repr_str : string -> string.

(** X21.  The file that [write_default_config] settles on for a path is
    the first one that [_derive_config_fpaths] returns for the same
    path, once that file is there: what [config init <path>] writes is
    what [--config-paths=<path>] reads first.  The path is taken to hold
    no path separator, and to name a folder after the write exactly when
    it named one before. *)
Theorem written_config_is_found_first :
  forall (isfile_before isfile_after : string -> bool)
         (path : string) (force : bool) (config_file : string) (is_overwrite : bool),
    path <> EmptyString ->
    split_pathsep path = [path] ->
    write_default_config convpath ensure_file_ext join isdir isfile_before _mydir
      repr_str (Some path) force = inr (WriteConfig config_file is_overwrite) ->
    isfile_after config_file = true ->
    exists rest,
      _derive_config_fpaths convpath ensure_file_ext join splitext isdir isfile_after
        split_pathsep path = config_file :: rest.
Proof.
  intros before after path force f ow P S W A.
  unfold _derive_config_fpaths. rewrite S. cbn [fold_left].
  unfold write_default_config in W.
  destruct path as [| c rest]; [congruence |].
  unfold derive_step. destruct (isdir (convpath (String c rest))).
  - destruct (before (ensure_file_ext
                        (join (convpath (String c rest)) default_config_fname) ".py")
              && negb force); [discriminate |].
    injection W as <- _. unfold try_json_and_py. cbn [fold_left fst]. rewrite A.
    cbn [fst app].
    destruct (after (ensure_file_ext
                       (join (convpath (String c rest)) default_config_fname) ".json"));
      cbn [fst]; eauto.
  - destruct (before (ensure_file_ext (convpath (String c rest)) ".py") && negb force);
      [discriminate |].
    injection W as <- _. unfold try_json_and_py. cbn [fold_left fst]. rewrite A.
    cbn [fst app].
    destruct (after (ensure_file_ext (convpath (String c rest)) ".json"));
      cbn [negb]; eauto.
Qed.

End WriteThenFind.

Lemma written_config_is_found_first_witness :
  exists rest,
    _derive_config_fpaths (fun p => p) CfgSamples.sample_ensure_file_ext
      CfgSamples.sample_join CfgSamples.sample_splitext (fun _ => false)
      CfgSamples.sample_isfile (fun p => [p]) "a" = "a.py" :: rest.
Proof.
  apply (written_config_is_found_first (fun p => p) CfgSamples.sample_ensure_file_ext
           CfgSamples.sample_join CfgSamples.sample_splitext (fun _ => false)
           (fun p => [p]) "." (fun p => p) (fun _ => false) CfgSamples.sample_isfile
           "a" false "a.py" false).
  - discriminate.
  - reflexivity.
  - reflexivity.
  - reflexivity.
Defined.

End BaseAppFacts.

(** ** [co2mpas/sampling/cfgcmd.py]: [config show] and [config paths] *)

Module CfgCmdFacts.

Import PyColl BaseApp CfgCmd.

Local Open Scope list_scope.

Section Show.

Variable convpath : string -> string.
Variable ensure_file_ext : string -> string -> string.
Variable join : string -> string -> string.
Variable splitext : string -> string * string.
Variable isdir : string -> bool.
Variable isfile : string -> bool.
Variable split_pathsep : string -> list string.
Variable _mydir : string.
Variable Config : Type.
Variable empty_config : Config.
Variable merge : Config -> Config -> Config.
Variable nonempty : Config -> bool.
Variable py_loader : string -> load_result Config.
Variable json_loader : string -> load_result Config.
Variable read_json : string -> load_result Config.
Variable Key : Type.
Variable Val : Type.
Variable lookup : Config -> Key -> option Val.

Local Abbreviation collect' :=
  (_collect_static_fpaths convpath ensure_file_ext join splitext isdir isfile
     split_pathsep _mydir).
Local Abbreviation configs_read' :=
  (configs_read splitext nonempty py_loader json_loader).
Local Abbreviation load' :=
  (load_configurables_from_files convpath ensure_file_ext join splitext isdir isfile
     split_pathsep _mydir empty_config merge nonempty py_loader json_loader read_json).

(** X15.  In the config that [config show] prints, a parameter has the
    value given on the command line; failing that the value of the
    persist file; failing that the value of the first collected static
    file that was read into a true config and sets it.  This holds for
    any config type whose [merge] lets the merged-in config win. *)
Theorem shown_config_precedence :
  (forall k, lookup empty_config k = None) ->
  (forall a b k, lookup (merge a b) k = match lookup b k with
                                        | Some v => Some v
                                        | None => lookup a k
                                        end) ->
  forall (raise_errors : bool) (config_paths : option (list string))
         (config_env persist_path persist_env : option string) (st : pstore Config),
    match load' raise_errors config_paths config_env persist_path persist_env st with
    | (_, _, inr (static_config, persist_config)) =>
        forall (cli_config : Config) (k : Key),
          lookup (show_loaded_config merge nonempty cli_config static_config
                    persist_config) k
          = match lookup cli_config k with
            | Some v => Some v
            | None =>
                match match persist_config with
                      | Some p => lookup p k
                      | None => None
                      end with
                | Some v => Some v
                | None =>
                    first_defined lookup
                      (configs_read' raise_errors (collect' config_paths config_env)) k
                end
            end
    | _ => True
    end.
Proof.
  intros lookup_empty lookup_merge raise_errors cp cenv pp penv st.
  pose proof (BaseAppFacts.static_config_lookup convpath ensure_file_ext join splitext
                isdir isfile split_pathsep _mydir Config empty_config merge nonempty
                py_loader json_loader read_json Key Val lookup lookup_empty
                lookup_merge raise_errors cp cenv pp penv st) as L.
  destruct (load' raise_errors cp cenv pp penv st) as [[st' files] [e | [s p]]];
    [exact I |].
  destruct L as [S N]. intros cli k. unfold show_loaded_config.
  rewrite lookup_merge. destruct (lookup cli k); [reflexivity |].
  destruct p as [p |]; [| apply S].
  rewrite N, lookup_merge. destruct (lookup p k); [reflexivity | apply S].
Qed.

End Show.

Lemma shown_config_precedence_witness :
  match CfgSamples.sample_load with
  | (_, _, inr (static_config, persist_config)) =>
      forall (cli_config : CfgSamples.config) (k : string),
        od_get (show_loaded_config CfgSamples.sample_merge CfgSamples.sample_nonempty
                  cli_config static_config persist_config) k
        = match od_get cli_config k with
          | Some v => Some v
          | None =>
              match match persist_config with
                    | Some p => od_get p k
                    | None => None
                    end with
              | Some v => Some v
              | None =>
                  first_defined od_get
                    (configs_read CfgSamples.sample_splitext CfgSamples.sample_nonempty
                       CfgSamples.sample_py_loader CfgSamples.sample_json_loader false
                       (_collect_static_fpaths (fun p => p)
                          CfgSamples.sample_ensure_file_ext CfgSamples.sample_join
                          CfgSamples.sample_splitext (fun _ => false)
                          CfgSamples.sample_isfile (fun p => [p]) "."
                          (Some ["a"; "b"]) None)) k
              end
          end
  | _ => True
  end.
Proof.
  unfold CfgSamples.sample_load.
  apply (shown_config_precedence (fun p => p) CfgSamples.sample_ensure_file_ext
           CfgSamples.sample_join CfgSamples.sample_splitext (fun _ => false)
           CfgSamples.sample_isfile (fun p => [p]) "." CfgSamples.config []
           CfgSamples.sample_merge CfgSamples.sample_nonempty
           CfgSamples.sample_py_loader CfgSamples.sample_json_loader
           CfgSamples.sample_read_json string string od_get).
  - reflexivity.
  - intros a b k. apply PyCollFacts.od_get_app.
Defined.

Section Paths.

Variable sep : string.
Variable name : string.
Variable show_nat : nat -> string.
Variable repr_args : list string -> string.

Local Abbreviation paths_run' := (paths_run sep name show_nat repr_args).

Lemma unpack_pair_other (item : string) :
  String.length item <> 2 -> unpack_pair item = None.
Proof.
  destruct item as [| a [| b [| c item]]]; cbn; congruence.
Qed.

Local Abbreviation line_of := (CfgCmd.line_of sep).

Lemma paths_lines_stop (pre : list string) (item : string) (post : list string) :
  Forall (fun s => String.length s = 2) pre ->
  String.length item <> 2 ->
  exists ls,
    paths_lines sep (pre ++ item :: post) = mkListing ls (Some ValueError)
    /\ Forall2 line_of pre ls.
Proof.
  intros F N. induction F as [| s pre S F IH]; cbn [app paths_lines].
  - rewrite (unpack_pair_other item N). exists []. split; [reflexivity | constructor].
  - destruct s as [| p [| f [| c s]]]; try discriminate S. cbn [unpack_pair].
    unfold format_tuple. cbn [last_char].
    destruct IH as (ls & -> & L). cbn [printed failed].
    eexists. split; [reflexivity |]. constructor; [| exact L].
    exists p, f. split; reflexivity.
Qed.

(** X16.  [config paths] prints a line for a loaded file only while the
    paths are two characters long, whose first character it takes for
    the path and whose second for the files; the first path of another
    length ends the listing with [ValueError]. *)
Theorem paths_lists_only_two_character_items :
  forall (pre : list string) (item : string) (post : list string),
    Forall (fun s => String.length s = 2) pre ->
    String.length item <> 2 ->
    exists ls,
      paths_run' [] (pre ++ item :: post) = inr (mkListing ls (Some ValueError))
      /\ Forall2 line_of pre ls.
Proof.
  intros pre item post F N.
  destruct (paths_lines_stop pre item post F N) as (ls & E & L).
  exists ls. split; [| exact L]. unfold paths_run. cbn. now rewrite E.
Qed.

Section Loaded.

Variable convpath : string -> string.
Variable ensure_file_ext : string -> string -> string.
Variable join : string -> string -> string.
Variable splitext : string -> string * string.
Variable isdir : string -> bool.
Variable isfile : string -> bool.
Variable split_pathsep : string -> list string.
Variable _mydir : string.
Variable Config : Type.
Variable empty_config : Config.
Variable merge : Config -> Config -> Config.
Variable nonempty : Config -> bool.
Variable py_loader : string -> load_result Config.
Variable json_loader : string -> load_result Config.
Variable read_json : string -> load_result Config.

Local Abbreviation load' :=
  (load_configurables_from_files convpath ensure_file_ext join splitext isdir isfile
     split_pathsep _mydir empty_config merge nonempty py_loader json_loader read_json).

(** X17.  Once [load_configurables_from_files] has listed a file,
    [config paths] prints nothing and ends with [ValueError]: the list
    holds paths, not pairs, and a path bears an extension.  This holds
    given that [ensure_file_ext] returns a name no shorter than the
    extension it is asked for. *)
Theorem config_paths_fails_on_loaded_files :
  (forall b e, String.length e <= String.length (ensure_file_ext b e)) ->
  forall (raise_errors : bool) (config_paths : option (list string))
         (config_env persist_path persist_env : option string) (st : pstore Config),
    let files :=
      snd (fst (load' raise_errors config_paths config_env persist_path
                  persist_env st)) in
    files <> [] ->
    paths_run' [] files = inr (mkListing [] (Some ValueError)).
Proof.
  intros Hlen raise_errors cp cenv pp penv st files N.
  pose proof (BaseAppFacts.loaded_files_long convpath ensure_file_ext join splitext
                isdir isfile split_pathsep _mydir Config empty_config merge nonempty
                py_loader json_loader read_json raise_errors cp cenv pp penv st Hlen)
    as L.
  fold files in L. destruct files as [| f files']; [congruence |].
  inversion L as [| ? ? Hf _]; subst.
  unfold paths_run. cbn [List.length Nat.ltb Nat.leb paths_lines].
  rewrite unpack_pair_other; [reflexivity | lia].
Qed.

End Loaded.

End Paths.

Lemma paths_lists_only_two_character_items_witness :
  exists ls,
    paths_run "/" "paths" (fun _ => "0") (fun _ => "()") []
              (["ab"; "/c"] ++ "a.py" :: ["b.py"])
    = inr (mkListing ls (Some ValueError))
    /\ Forall2 (CfgCmd.line_of "/") ["ab"; "/c"] ls.
Proof.
  apply paths_lists_only_two_character_items.
  - repeat constructor.
  - cbn. lia.
Defined.

Lemma sample_ensure_long (b e : string) :
  String.length e <= String.length (CfgSamples.sample_ensure_file_ext b e).
Proof.
  unfold CfgSamples.sample_ensure_file_ext, endswith.
  destruct (Nat.leb (String.length e) (String.length (lower b))
            && String.eqb _ e) eqn:E.
  - apply andb_true_iff in E as [E _]. apply Nat.leb_le in E.
    clear - E. revert E. generalize (String.length e). intros n E.
    assert (L : String.length (lower b) = String.length b).
    { clear. induction b as [| c b IH]; cbn; [reflexivity | now rewrite IH]. }
    lia.
  - clear E. induction b as [| c b IH]; cbn; [lia | lia].
Qed.

Lemma config_paths_fails_on_loaded_files_witness :
  paths_run "/" "paths" (fun _ => "0") (fun _ => "()") []
            (snd (fst CfgSamples.sample_load))
  = inr (mkListing [] (Some ValueError)).
Proof.
  unfold CfgSamples.sample_load.
  apply (config_paths_fails_on_loaded_files "/" "paths" (fun _ => "0") (fun _ => "()")
           (fun p => p) CfgSamples.sample_ensure_file_ext CfgSamples.sample_join
           CfgSamples.sample_splitext (fun _ => false) CfgSamples.sample_isfile
           (fun p => [p]) "." CfgSamples.config [] CfgSamples.sample_merge
           CfgSamples.sample_nonempty CfgSamples.sample_py_loader
           CfgSamples.sample_json_loader CfgSamples.sample_read_json
           sample_ensure_long).
  vm_compute. discriminate.
Defined.

End CfgCmdFacts.


(** ** [co2mpas/sampling/baseapp.py]: command names and the command chain *)

Module CmdFacts.

Import PyColl BaseApp CmdChain.

Lemma lower_length (s : string) : String.length (lower s) = String.length s.
Proof. induction s as [| c s IH]; cbn; [reflexivity | now rewrite IH]. Qed.

Lemma lower_app (a b : string) : lower (a ++ b) = lower a ++ lower b.
Proof. induction a as [| c a IH]; cbn; [reflexivity | now rewrite IH]. Qed.

Lemma length_app (a b : string) :
  String.length (a ++ b) = String.length a + String.length b.
Proof. induction a as [| c a IH]; cbn; [reflexivity | now rewrite IH]. Qed.

Lemma substring_all (s : string) : String.substring 0 (String.length s) s = s.
Proof. induction s as [| c s IH]; cbn; [reflexivity | now rewrite IH]. Qed.

Lemma substring_head (a b : string) :
  String.substring 0 (String.length a) (a ++ b) = a.
Proof.
  induction a as [| c a IH]; cbn.
  - now destruct b.
  - now rewrite IH.
Qed.

Lemma substring_tail (a b : string) :
  String.substring (String.length a) (String.length b) (a ++ b) = b.
Proof.
  induction a as [| c a IH]; cbn; [apply substring_all | exact IH].
Qed.

Lemma endswith_app (a b : string) : endswith (a ++ b) b = true.
Proof.
  unfold endswith. rewrite length_app.
  replace (String.length a + String.length b - String.length b)
    with (String.length a) by lia.
  rewrite substring_tail, String.eqb_refl, andb_true_r.
  apply Nat.leb_le. lia.
Qed.

Section Names.

Variable camel_to_cmd_name : string -> string.

(** X18.  A class name that ends in [cmd], in whatever letter case,
    gives the command name of what comes before these three letters; a
    class whose whole name is these three letters keeps it. *)
Theorem cmd_suffix_is_stripped :
  forall base suffix : string,
    base <> "" ->
    lower suffix = "cmd" ->
    class2cmd_name camel_to_cmd_name (base ++ suffix) = camel_to_cmd_name base
    /\ class2cmd_name camel_to_cmd_name suffix = camel_to_cmd_name suffix.
Proof.
  intros base suffix B L. unfold class2cmd_name.
  assert (S3 : String.length suffix = 3).
  { rewrite <- lower_length, L. reflexivity. }
  split.
  - rewrite lower_app, L, endswith_app, length_app, S3. cbn [andb].
    assert (P : Nat.ltb 3 (String.length base + 3) = true).
    { apply Nat.ltb_lt. destruct base; [congruence | cbn; lia]. }
    rewrite P. replace (String.length base + 3 - 3) with (String.length base) by lia.
    now rewrite substring_head.
  - rewrite S3. cbn [Nat.ltb Nat.leb]. now rewrite andb_false_r.
Qed.

Variable Cls : Type.
Variable cls_name : Cls -> string.
Variable short_help : Cls -> string.

(** X19.  [build_sub_cmds] holds one entry for each distinct command
    name, in the order the names are first met; when two classes give
    the same name, the entry is that of the later class. *)
Theorem sub_cmds_keep_the_later_class :
  forall subapp_classes : list Cls,
    let d := build_sub_cmds camel_to_cmd_name cls_name short_help subapp_classes in
    map fst d
    = iset (map (fun sa => class2cmd_name camel_to_cmd_name (cls_name sa))
                subapp_classes)
    /\ forall n,
        od_get d n
        = option_map (fun sa => (sa, short_help sa))
            (find (fun sa => String.eqb n (class2cmd_name camel_to_cmd_name (cls_name sa)))
                  (rev subapp_classes)).
Proof.
  intro l. cbn zeta. unfold build_sub_cmds. split.
  - rewrite PyCollFacts.od_of_pairs_keys, map_map. reflexivity.
  - intro n. rewrite PyCollFacts.od_of_pairs_get. unfold od_get.
    rewrite <- map_rev, ReportCmdFacts.find_map. cbn [fst].
    now destruct (find _ (rev l)).
Qed.

End Names.

Lemma cmd_suffix_is_stripped_witness :
  class2cmd_name (fun s => s) ("Report" ++ "CMD") = "Report"
  /\ class2cmd_name (fun s => s) "CMD" = "CMD".
Proof.
  apply (cmd_suffix_is_stripped (fun s => s) "Report" "CMD").
  - discriminate.
  - reflexivity.
Defined.

Local Open Scope list_scope.

Section Dicts.

Variable V : Type.

Lemma od_get_absent (d : list (string * V)) (k : string) :
  ~ In k (map fst d) -> od_get d k = None.
Proof.
  unfold od_get. induction d as [| [k0 v0] d IH]; [reflexivity |].
  cbn [map fst In find]. intro N.
  destruct (String.eqb k k0) eqn:E.
  - apply String.eqb_eq in E. elim N. now left.
  - apply IH. intro I. apply N. now right.
Qed.

Lemma od_get_rev (d : list (string * V)) (k : string) :
  NoDup (map fst d) -> od_get (rev d) k = od_get d k.
Proof.
  induction d as [| [k0 v0] d IH]; [reflexivity |].
  cbn [map fst rev]. intro N. inversion N as [| ? ? N0 N1]; subst.
  rewrite PyCollFacts.od_get_app, (IH N1).
  unfold od_get at 2 3. cbn [find fst].
  destruct (String.eqb k k0) eqn:E.
  - apply String.eqb_eq in E. subst k0. now rewrite (od_get_absent d k N0).
  - fold (od_get d k). now destruct (od_get d k).
Qed.

Lemma od_update_keys (d1 d2 : list (string * V)) :
  NoDup (map fst d1) -> NoDup (map fst (od_update d1 d2)).
Proof.
  intro N. unfold od_update. rewrite PyCollFacts.od_fold_keys.
  now apply PyCollFacts.iset_fold.
Qed.

Lemma od_update_get (d1 d2 : list (string * V)) (k : string) :
  NoDup (map fst d2) ->
  od_get (od_update d1 d2) k = match od_get d2 k with
                               | Some v => Some v
                               | None => od_get d1 k
                               end.
Proof.
  intro N. unfold od_update. now rewrite PyCollFacts.od_fold_get, od_get_rev.
Qed.

Lemma first_set_app (a b : list (list (string * V))) (k : string) :
  first_set (a ++ b) k = match first_set a k with
                         | Some v => Some v
                         | None => first_set b k
                         end.
Proof.
  induction a as [| d a IH]; [reflexivity |]. cbn [app first_set].
  destruct (od_get d k); [reflexivity | exact IH].
Qed.

(** Merging dicts in turn: the last dict that holds a key gives its
    value. *)
Lemma merge_fold (dicts : list (list (string * V))) (k : string) : forall acc,
  Forall (fun d => NoDup (map fst d)) dicts ->
  NoDup (map fst acc) ->
  NoDup (map fst (fold_left od_update dicts acc))
  /\ od_get (fold_left od_update dicts acc) k
     = match first_set (rev dicts) k with
       | Some v => Some v
       | None => od_get acc k
       end.
Proof.
  induction dicts as [| d dicts IH]; intros acc F N; cbn [fold_left rev].
  - now split.
  - inversion F as [| ? ? Nd F']; subst.
    destruct (IH (od_update acc d) F' (od_update_keys acc d N)) as [N' G].
    split; [exact N' |].
    rewrite G, first_set_app, od_update_get by exact Nd. cbn [first_set].
    destruct (first_set (rev dicts) k); [reflexivity |].
    now destruct (od_get d k).
Qed.

End Dicts.

Section Inherit.

Variable Flag : Type.

(** X20.  For a command with a parent, [_inherit_parent_cmd] leaves in
    [classes] each class once, those of the command chain and their
    [conf_classes] all among them; and an alias takes the value of the
    nearest command of the chain that sets it -- the sub-command or the
    command itself before its parents -- else it keeps the value it
    had.  The dicts of aliases are taken to hold each key once. *)
Theorem nearest_command_sets_the_alias :
  forall (self : cmd Flag) (subapp : option (cmd Flag))
         (aliases : list (string * string)) (flags : list (string * Flag)),
    parent self <> None ->
    Forall (fun c => NoDup (map fst (cmd_aliases c))) (my_cmd_chain self subapp) ->
    let r := _inherit_parent_cmd self subapp aliases flags in
    NoDup (fst (fst r))
    /\ (forall c, In c (my_cmd_chain self subapp) ->
                  In (cls c) (fst (fst r)) /\ incl (conf_classes c) (fst (fst r)))
    /\ forall k,
        od_get (snd (fst r)) k
        = match first_set (map cmd_aliases (my_cmd_chain self subapp)) k with
          | Some v => Some v
          | None => od_get aliases k
          end.
Proof.
  intros self subapp aliases flags P F. cbn zeta. unfold _inherit_parent_cmd.
  destruct (parent self) as [p |]; [clear P | congruence].
  cbn [fst snd]. set (ch := my_cmd_chain self subapp) in *.
  split; [apply PyCollFacts.iset_nodup |]. split.
  - intros c I. split.
    + apply PyCollFacts.iset_in, in_app_iff. left. now apply in_map.
    + intros x Hx. apply PyCollFacts.iset_in, in_app_iff. right.
      apply in_concat. exists (conf_classes c). split; [now apply in_map | exact Hx].
  - intro k. unfold dtz_merge.
    assert (F' : Forall (fun d : list (string * string) => NoDup (map fst d))
                        (map cmd_aliases (rev ch))).
    { apply Forall_forall. intros d I. apply in_map_iff in I.
      destruct I as (c & <- & I). rewrite Forall_forall in F.
      apply F. now apply in_rev. }
    destruct (merge_fold string (map cmd_aliases (rev ch)) k [] F' (NoDup_nil _))
      as [N G].
    rewrite od_update_get by exact N. rewrite G.
    rewrite <- map_rev, rev_involutive.
    now destruct (first_set (map cmd_aliases ch) k).
Qed.

End Inherit.

Lemma nearest_command_sets_the_alias_witness :
  let r := _inherit_parent_cmd report_cmd None [("log-level", "Application.log_level")]
             [] in
  NoDup (fst (fst r))
  /\ (forall c, In c (my_cmd_chain report_cmd None) ->
                In (cls c) (fst (fst r)) /\ incl (conf_classes c) (fst (fst r)))
  /\ forall k,
      od_get (snd (fst r)) k
      = match first_set (map cmd_aliases (my_cmd_chain report_cmd None)) k with
        | Some v => Some v
        | None => od_get [("log-level", "Application.log_level")] k
        end.
Proof.
  apply (nearest_command_sets_the_alias unit report_cmd None).
  - discriminate.
  - repeat constructor; cbn; intuition discriminate.
Defined.

End CmdFacts.
